(** * A shallow embedding of [SimpleVector] (simple-vector/simple_vector.h)

    The container is a template over its element type.  The embedding is a
    section over that type [T] and over the operations of [T] the code
    calls: value-initialisation [Type{}], [operator==], [operator<] and
    what a move assignment leaves in its source.  These operations are
    functions: the development is about element types whose
    value-initialisation, assignments and comparisons return and do not
    throw (the scalar types, and classes whose special members are
    [noexcept]).  What the container does when an element assignment
    throws in the middle of a shift is outside it.

    - [size_t] values are in [N], with the wrap-around of [++], [--] and
      [*] written out; the [int] counter of [Create] and the [ptrdiff_t]
      offset of [Insert] have their ranges, beyond which the behaviour is
      undefined.
    - [ArrayPtr] (array_ptr.h, not among the sources) is a list of slots,
      the empty list being the buffer that owns nothing.  Reading or
      writing a slot the block does not have is undefined behaviour.
    - An iterator is the null pointer or the address of a slot of the
      block of the container it is used with.
    - A member function is a computation in a state monad over the
      receiver.  A computation returns, throws ([out_of_range],
      [bad_alloc]), fails an [assert], or is undefined.
    - Constructors from another container, the two assignments and [swap]
      take a reference that may name the receiver: they are computations
      over a store of objects.
    - [PushBack] and [Insert] take a reference to an element, which may
      name a slot of the receiver's own block: where the code reads the
      reference after it has changed the block, the argument is a
      reference ([ref]) and is read where the code reads it. *)

From stdpp Require Import base option list numbers gmap.

Local Open Scope N_scope.

(** ** Machine integers *)

(** [size_t] is a 64-bit unsigned integer: its arithmetic wraps. *)
Definition wrap (n : N) : N := n mod 2 ^ 64.

(** [int] is a 32-bit signed integer: exceeding [INT_MAX] is undefined. *)
Definition INT_MAX : N := 2 ^ 31 - 1.

(** [ptrdiff_t] is a 64-bit signed integer. *)
Definition PTRDIFF_MAX : N := 2 ^ 63 - 1.

(** ** Outcomes and the state monad *)

Inductive exn : Set := out_of_range | bad_alloc.

Inductive outcome (S A : Type) : Type :=
| Ok (a : A) (s : S)          (* normal return, with the state reached *)
| Throw (e : exn) (s : S)     (* exception, with the state at the throw *)
| AssertFail                  (* a failed assert aborts the program *)
| UB.                         (* undefined behaviour *)
Arguments Ok {S A} a s.
Arguments Throw {S A} e s.
Arguments AssertFail {S A}.
Arguments UB {S A}.

Definition M (S A : Type) : Type := S → outcome S A.

Global Instance M_ret {S} : MRet (M S) := λ A a s, Ok a s.

Global Instance M_bind {S} : MBind (M S) := λ A B f m s,
  match m s with
  | Ok a s' => f a s'
  | Throw e s' => Throw e s'
  | AssertFail => AssertFail
  | UB => UB
  end.

Definition get {S} : M S S := λ s, Ok s s.
Definition gets {S A} (f : S → A) : M S A := λ s, Ok (f s) s.
Definition modify {S} (f : S → S) : M S unit := λ s, Ok tt (f s).
Definition throw {S A} (e : exn) : M S A := λ s, Throw e s.
Definition assert {S} (b : bool) : M S unit := λ s, if b then Ok tt s else AssertFail.
Definition undefined {S A} : M S A := λ _, UB.

(** An [option] whose [None] stands for an access outside a block. *)
Definition defined {S A} (o : option A) : M S A :=
  match o with Some a => mret a | None => undefined end.

(** Run a member function on another object [o] (a local or an argument).
    An exception leaving it unwinds into the caller, whose own state is the
    one it had at the call. *)
Definition on {S S' A} (o : S') (m : M S' A) : M S (A * S') := λ s,
  match m o with
  | Ok a o' => Ok (a, o') s
  | Throw e _ => Throw e s
  | AssertFail => AssertFail
  | UB => UB
  end.

(** The computation returned, or threw; either way a state is left. *)
Definition final_state {S A} (r : outcome S A) : option S :=
  match r with
  | Ok _ s | Throw _ s => Some s
  | AssertFail | UB => None
  end.

(** ** Iterators *)

(** [Iterator] is [Type*].  A pointer is the null pointer or the address of
    a slot of the block of the container it is used with, given by the
    slot's index (the index [length block] is the past-the-end address). *)
Inductive Iterator : Set := nullptr | slot (i : N).

Global Instance Iterator_eq_dec : EqDecision Iterator.
Proof. solve_decision. Defined.

(** Pointer comparison; comparing the null pointer with an address is
    unspecified and taken as false. *)
Definition iter_le (p q : Iterator) : bool :=
  match p, q with
  | nullptr, nullptr => true
  | slot a, slot b => a <=? b
  | _, _ => false
  end.

Definition iter_lt (p q : Iterator) : bool :=
  match p, q with
  | slot a, slot b => a <? b
  | _, _ => false
  end.

(** [p + 1] *)
Definition iter_succ (p : Iterator) : option Iterator :=
  match p with nullptr => None | slot a => Some (slot (a + 1)) end.

(** [std::distance(first, last)], a [ptrdiff_t]; used with [first <= last]. *)
Definition distance (first last : Iterator) : option N :=
  match first, last with
  | nullptr, nullptr => Some 0
  | slot a, slot b => if a <=? b then Some (b - a) else None
  | _, _ => None
  end.

(** The slot index an iterator stands for. *)
Definition iter_offset (p : Iterator) : N :=
  match p with nullptr => 0 | slot a => a end.

(** ** ReserveProxyObj *)

(** The wrapper class that carries a capacity to the reserving
    constructor. *)
Record ReserveProxyObj : Set := mkReserveProxyObj { n_ : N }.

(** [ReserveProxyObj(size_t cap)] *)
Definition ReserveProxyObj_of (cap : N) : ReserveProxyObj := {| n_ := cap |}.

(** [Res] *)
Definition Res (obj : ReserveProxyObj) : N := n_ obj.

(** The free function [Reserve(size_t capacity_to_reserve)]. *)
Definition Reserve_proxy (capacity_to_reserve : N) : ReserveProxyObj :=
  ReserveProxyObj_of capacity_to_reserve.

Section SimpleVector.
Variable T : Type.
(** [Type{}] *)
Variable T_default : T.
(** [a == b] on elements *)
Variable T_eqb : T → T → bool.
(** [a < b] on elements *)
Variable T_ltb : T → T → bool.
(** [T_moved d s] is the state [s] is left in by [d = std::move(s)]
    ([d] then holds the value [s] had). *)
Variable T_moved : T → T → T.
(** [T_self_moved x] is the state [x] is left in by [x = std::move(x)]. *)
Variable T_self_moved : T → T.
(** The largest element count [new Type[n]] delivers: at least one
    element, and no block of [2 ^ 63] elements or more exists. *)
Variable max_alloc : N.
Hypothesis max_alloc_range : 1 ≤ max_alloc < 2 ^ 63.

(** *** Assignment between two elements *)

(** An assignment maps destination and source to what they become. *)
Definition assignment : Type := T → T → T * T.
Definition copy_assign : assignment := λ d s, (s, s).
Definition move_assign : assignment := λ d s, (s, T_moved d s).

(** *** ArrayPtr *)

(** Modelled from the spec: array_ptr.h is not part of the sources.  A
    Buffer owns one block of value-initialized slots, or nothing; it is
    indexed without bounds checking, swapped in constant time, and a move
    leaves the source owning nothing.  The empty list is the buffer that
    owns nothing (its raw pointer is null). *)
Local Abbreviation ArrayPtr := (list T).

(** Modelled from the spec: [ArrayPtr<Type> tmp(n)], the constructor of
    array_ptr.h, which is not part of the sources: a block of [n]
    value-initialized slots, nothing when [n = 0]; [new] throws when the
    block cannot be delivered. *)
Definition ArrayPtr_new {S} (n : N) : M S ArrayPtr :=
  if n =? 0 then mret []
  else if max_alloc <? n then throw bad_alloc
  else mret (replicate (N.to_nat n) T_default).

(** Modelled from the spec: [&p[i]], with [operator[]] of array_ptr.h
    (not part of the sources) unchecked. *)
Definition slot_addr (p : ArrayPtr) (i : N) : Iterator :=
  match p with
  | [] => if i =? 0 then nullptr else slot i
  | _ => slot i
  end.

(** [*(p + j) = *(q + i)] for two blocks [q] (source) and [p]. *)
Definition assign_across (asg : assignment) (src : ArrayPtr) (i : nat)
    (dst : ArrayPtr) (j : nat) : option (ArrayPtr * ArrayPtr) :=
  s ← src !! i; d ← dst !! j;
  let '(d', s') := asg d s in
  Some (<[i := s']> src, <[j := d']> dst).

(** [*(p + j) = *(p + i)] inside one block. *)
Definition assign_within (asg : assignment) (buf : ArrayPtr) (i j : nat)
    : option ArrayPtr :=
  s ← buf !! i; d ← buf !! j;
  let '(d', s') := asg d s in
  Some (<[j := d']> (<[i := s']> buf)).

(** [*(p + j) = x] for a variable [x]; also gives what [x] becomes. *)
Definition assign_slot (asg : assignment) (buf : ArrayPtr) (j : nat) (x : T)
    : option (ArrayPtr * T) :=
  d ← buf !! j;
  let '(d', x') := asg d x in
  Some (<[j := d']> buf, x').

(** The loop of [std::copy], [n] elements from slot [i] of [src] to slot
    [j] of another block [dst]. *)
Fixpoint copy_across (asg : assignment) (n : nat) (src : ArrayPtr) (i : nat)
    (dst : ArrayPtr) (j : nat) : option (ArrayPtr * ArrayPtr) :=
  match n with
  | O => Some (src, dst)
  | S n' =>
      '(src', dst') ← assign_across asg src i dst j;
      copy_across asg n' src' (S i) dst' (S j)
  end.

(** The loop of [std::copy] inside one block, first element first. *)
Fixpoint copy_within (asg : assignment) (n : nat) (buf : ArrayPtr)
    (i j : nat) : option ArrayPtr :=
  match n with
  | O => Some buf
  | S n' =>
      buf' ← assign_within asg buf i j;
      copy_within asg n' buf' (S i) (S j)
  end.

(** The loop of [std::copy_backward] inside one block: [*(--d_last) =
    *(--last)], [n] times. *)
Fixpoint copy_backward_within (asg : assignment) (n : nat) (buf : ArrayPtr)
    (last d_last : nat) : option ArrayPtr :=
  match n with
  | O => Some buf
  | S n' =>
      match last, d_last with
      | S last', S d_last' =>
          buf' ← assign_within asg buf last' d_last';
          copy_backward_within asg n' buf' last' d_last'
      | _, _ => None
      end
  end.

(** The loop of [std::fill]. *)
Fixpoint fill_loop (n : nat) (buf : ArrayPtr) (j : nat) (x : T)
    : option ArrayPtr :=
  match n with
  | O => Some buf
  | S n' =>
      '(buf', _) ← assign_slot copy_assign buf j x;
      fill_loop n' buf' (S j) x
  end.

(** The loop of [std::equal]: stops at the first mismatch. *)
Fixpoint equal_loop (n : nat) (a : ArrayPtr) (i : nat) (b : ArrayPtr)
    (j : nat) : option bool :=
  match n with
  | O => Some true
  | S n' =>
      x ← a !! i; y ← b !! j;
      if T_eqb x y then equal_loop n' a (S i) b (S j) else Some false
  end.

(** A range [first, last) of iterators into a block: the index of its
    first slot and its length. *)
Definition iter_range (first last : Iterator) : option (nat * nat) :=
  n ← distance first last;
  Some (N.to_nat (iter_offset first), N.to_nat n).

(** The slot where [n] accesses through [d_first] start: an access
    through the null pointer is undefined, an empty range accesses
    nothing. *)
Definition access_start (n : nat) (d_first : Iterator) : option nat :=
  match d_first with
  | slot j => Some (N.to_nat j)
  | nullptr => match n with O => Some O | S _ => None end
  end.

(** [std::copy(first, last, d_first)] from block [src] into block [dst];
    with [move_assign] the iterators are move iterators. *)
Definition std_copy (asg : assignment) (src : ArrayPtr)
    (first last : Iterator) (dst : ArrayPtr) (d_first : Iterator)
    : option (ArrayPtr * ArrayPtr) :=
  '(i, n) ← iter_range first last;
  j ← access_start n d_first;
  copy_across asg n src i dst j.

(** [std::copy(first, last, d_first)], all three into one block. *)
Definition std_copy_within (asg : assignment) (buf : ArrayPtr)
    (first last d_first : Iterator) : option ArrayPtr :=
  '(i, n) ← iter_range first last;
  j ← access_start n d_first;
  copy_within asg n buf i j.

(** [std::copy_backward(first, last, d_last)], all three into one block. *)
Definition std_copy_backward_within (asg : assignment) (buf : ArrayPtr)
    (first last d_last : Iterator) : option ArrayPtr :=
  '(i, n) ← iter_range first last;
  e ← access_start n d_last;
  copy_backward_within asg n buf (i + n)%nat e.

(** [std::fill(first, last, value)] *)
Definition std_fill (buf : ArrayPtr) (first last : Iterator) (value : T)
    : option ArrayPtr :=
  '(i, n) ← iter_range first last;
  fill_loop n buf i value.

(** The values [*it] yields over the range [first, last) of a block. *)
Definition read_range (buf : ArrayPtr) (first last : Iterator)
    : option (list T) :=
  '(i, n) ← iter_range first last;
  if bool_decide (i + n ≤ length buf)%nat then Some (take n (drop i buf))
  else None.

(** *** The container *)

Record SimpleVector : Type := mkSimpleVector
  { items_ : ArrayPtr; size_ : N; cap_ : N }.

Definition with_items (p : ArrayPtr) (v : SimpleVector) : SimpleVector :=
  {| items_ := p; size_ := size_ v; cap_ := cap_ v |}.
Definition with_size (n : N) (v : SimpleVector) : SimpleVector :=
  {| items_ := items_ v; size_ := n; cap_ := cap_ v |}.
Definition with_cap (n : N) (v : SimpleVector) : SimpleVector :=
  {| items_ := items_ v; size_ := size_ v; cap_ := n |}.

(** The default member initializers: [items_{}], [size_ = 0], [cap_ = 0]. *)
Definition init : SimpleVector := {| items_ := []; size_ := 0; cap_ := 0 |}.

(** The logically present elements, slots [0 .. size_). *)
Definition elems (v : SimpleVector) : list T :=
  take (N.to_nat (size_ v)) (items_ v).

(** [SimpleVector tmp(args)]: a local built by constructor [c]. *)
Definition construct {S} (c : M SimpleVector unit) : M S SimpleVector :=
  '(_, o) ← on init c; mret o.

(** [items_.swap(tmp.items_)]; the result is what [tmp] becomes. *)
Definition swap_items (tmp : SimpleVector) : M SimpleVector SimpleVector :=
  λ this, Ok (with_items (items_ this) tmp) (with_items (items_ tmp) this).

(** [*r = x] on a slot [r] of the receiver's block. *)
Definition assign_at (r : N) (x : T) : M SimpleVector unit :=
  this ← get;
  '(p, _) ← defined (assign_slot copy_assign (items_ this) (N.to_nat r) x);
  modify (with_items p).

(** [*r = std::move(x)]; the result is what [x] becomes. *)
Definition move_at (r : N) (x : T) : M SimpleVector T :=
  this ← get;
  '(p, x') ← defined (assign_slot move_assign (items_ this) (N.to_nat r) x);
  modify (with_items p);; mret x'.

(** A reference to an element, as [PushBack] and [Insert] receive it:
    to an object outside the receiver's block, given by the value it
    holds, or to slot [i] of the block the receiver has at the call. *)
Inductive ref : Type := ext (x : T) | elem (i : N).

(** The value a reference designates, read now. *)
Definition read_ref (r : ref) : M SimpleVector T :=
  match r with
  | ext x => mret x
  | elem i => this ← get; defined (items_ this !! N.to_nat i)
  end.

(** [items_[d] = std::move(value)] for a reference [value]; the result is
    the reference with what an outside object becomes.  A slot of the
    block that is moved from is left in its moved-from state. *)
Definition move_at_ref (d : N) (value : ref) : M SimpleVector ref :=
  match value with
  | ext x => x' ← move_at d x; mret (ext x')
  | elem i =>
      this ← get;
      if i =? d then
        x ← defined (items_ this !! N.to_nat i);
        modify (with_items (<[N.to_nat i := T_self_moved x]> (items_ this)));;
        mret (elem i)
      else
        p ← defined (assign_within move_assign (items_ this)
                       (N.to_nat i) (N.to_nat d));
        modify (with_items p);;
        mret (elem i)
  end.

(** [tmp[d] = std::move(value)] for a local [tmp] and a reference [value]
    that may name a slot of the receiver's block; the result is the
    reference and what [tmp] becomes. *)
Definition move_to (tmp : SimpleVector) (d : N) (value : ref)
    : M SimpleVector (ref * SimpleVector) :=
  match value with
  | ext x => '(x', tmp) ← on tmp (move_at d x); mret (ext x', tmp)
  | elem i =>
      this ← get;
      '(src, dst) ← defined (assign_across move_assign (items_ this)
                               (N.to_nat i) (items_ tmp) (N.to_nat d));
      modify (with_items src);;
      mret (elem i, with_items dst tmp)
  end.

(** [++size_] and [--size_] *)
Definition incr_size : M SimpleVector unit :=
  modify (λ this, with_size (wrap (size_ this + 1)) this).
Definition decr_size : M SimpleVector unit :=
  modify (λ this, with_size (wrap (size_ this + (2 ^ 64 - 1))) this).

(** **** Size queries *)

Definition GetSize (this : SimpleVector) : N := size_ this.
Definition GetCapacity (this : SimpleVector) : N := cap_ this.
Definition IsEmpty (this : SimpleVector) : bool :=
  if size_ this =? 0 then true else false.

(** **** Iteration *)

Definition begin (this : SimpleVector) : Iterator :=
  if cap_ this =? 0 then nullptr else slot_addr (items_ this) 0.
Definition end_ (this : SimpleVector) : Iterator :=
  if cap_ this =? 0 then nullptr else slot_addr (items_ this) (size_ this).
(** The const overloads and [cbegin], [cend] have the same bodies. *)
Definition begin_const (this : SimpleVector) : Iterator :=
  if cap_ this =? 0 then nullptr else slot_addr (items_ this) 0.
Definition end_const (this : SimpleVector) : Iterator :=
  if cap_ this =? 0 then nullptr else slot_addr (items_ this) (size_ this).
Definition cbegin (this : SimpleVector) : Iterator :=
  if cap_ this =? 0 then nullptr else slot_addr (items_ this) 0.
Definition cend (this : SimpleVector) : Iterator :=
  if cap_ this =? 0 then nullptr else slot_addr (items_ this) (size_ this).

(** **** Element access *)

(** [operator[]], both overloads: the reference returned is the index of
    the slot it designates. *)
Definition operator_index (index : N) : M SimpleVector N :=
  this ← get;
  assert (index <=? size_ this);;
  mret index.

(** [At], both overloads. *)
Definition At (index : N) : M SimpleVector N :=
  this ← get;
  if size_ this <=? index then throw out_of_range
  else mret index.

(** **** Constructors *)

Definition SimpleVector_default : M SimpleVector unit := mret tt.

(** [explicit SimpleVector(size_t size)] *)
Definition SimpleVector_sized (size : N) : M SimpleVector unit :=
  if negb (size =? 0) then
    tmp ← ArrayPtr_new size;
    modify (with_items tmp);;
    modify (with_size size);;
    modify (with_cap size)
  else mret tt.

(** [SimpleVector(size_t size, const Type& value)] *)
Definition SimpleVector_fill (size : N) (value : T) : M SimpleVector unit :=
  tmp ← construct (SimpleVector_sized size);
  p ← defined (std_fill (items_ tmp) (begin tmp) (end_ tmp) value);
  _ ← swap_items (with_items p tmp);
  modify (with_size size);;
  modify (with_cap size).

(** [swap]; the result is what [other] becomes. *)
Definition swap (other : SimpleVector) : M SimpleVector SimpleVector :=
  λ this,
    Ok {| items_ := items_ this; size_ := size_ this; cap_ := cap_ this |}
       {| items_ := items_ other; size_ := size_ other; cap_ := cap_ other |}.

(** The loop of [Create], run on [tmp]; [i] is an [int]. *)
Fixpoint Create_loop (src : list T) (i : N) : M SimpleVector unit :=
  match src with
  | [] => mret tt
  | x :: src' =>
      r ← operator_index i;
      assign_at r x;;
      if INT_MAX <=? i then undefined
      else Create_loop src' (i + 1)
  end.

(** [Create(begin, end, size)], on the values the range yields. *)
Definition Create (src : list T) (size : N) : M SimpleVector unit :=
  tmp ← construct (SimpleVector_sized size);
  '(_, tmp) ← on tmp (Create_loop src 0);
  _ ← swap (with_cap size (with_size size tmp));
  mret tt.

(** [SimpleVector(std::initializer_list<Type> init)] *)
Definition SimpleVector_list (il : list T) : M SimpleVector unit :=
  let size := wrap (N.of_nat (length il)) in
  Create il size.

(** [SimpleVector(const SimpleVector& other)] *)
Definition SimpleVector_copy (other : SimpleVector) : M SimpleVector unit :=
  let size := GetSize other in
  src ← defined (read_range (items_ other) (begin_const other) (end_const other));
  Create src size.

(** [SimpleVector(const ReserveProxyObj& obj)], on [obj.Res()]. *)
Definition SimpleVector_reserve (res : N) : M SimpleVector unit :=
  tmp ← construct (SimpleVector_sized res);
  _ ← swap tmp;
  modify (with_size 0).

(** [SimpleVector(SimpleVector&& other)]; the result is what [other]
    becomes.  Modelled from the spec: the move constructor of array_ptr.h
    (not part of the sources) takes the block and leaves [other.items_]
    owning nothing. *)
Definition SimpleVector_move (other : SimpleVector) : M SimpleVector SimpleVector :=
  λ _, Ok {| items_ := []; size_ := 0; cap_ := 0 |}
          {| items_ := items_ other; size_ := size_ other; cap_ := cap_ other |}.

(** **** Capacity *)

(** [std::copy(first, last, d_first)] from the receiver's block into the
    block of the local [tmp]; the result is what [tmp] becomes. *)
Definition copy_into (asg : assignment) (first last : Iterator)
    (tmp : SimpleVector) (d_first : Iterator) : M SimpleVector SimpleVector :=
  this ← get;
  '(src, dst) ← defined (std_copy asg (items_ this) first last (items_ tmp) d_first);
  modify (with_items src);;
  mret (with_items dst tmp).

Definition Reserve (new_capacity : N) : M SimpleVector unit :=
  this ← get;
  if new_capacity <=? cap_ this then mret tt
  else
    tmp ← construct (SimpleVector_sized new_capacity);
    tmp ← copy_into move_assign (begin this) (end_ this) tmp (begin tmp);
    _ ← swap_items tmp;
    modify (with_cap new_capacity).

Definition Clear : M SimpleVector unit := modify (with_size 0).

(** The loop of [Resize]: [items_[i] = std::move(n)], [k] times. *)
Fixpoint Resize_loop (k : nat) (i : N) (n : T) : M SimpleVector unit :=
  match k with
  | O => mret tt
  | S k' =>
      n' ← move_at i n;
      Resize_loop k' (wrap (i + 1)) n'
  end.

Definition Resize (new_size : N) : M SimpleVector unit :=
  this ← get;
  if new_size <? size_ this then modify (with_size new_size)
  else if new_size <=? cap_ this then
    Resize_loop (N.to_nat (new_size - size_ this)) (size_ this) T_default;;
    modify (with_size new_size)
  else if cap_ this <? new_size then
    tmp ← construct (SimpleVector_sized (N.max new_size (wrap (cap_ this * 2))));
    tmp ← copy_into move_assign (begin this) (end_ this) tmp (begin tmp);
    _ ← swap_items tmp;
    modify (with_size new_size);;
    modify (λ this, with_cap (N.max new_size (wrap (cap_ this * 2))) this)
  else mret tt.

(** **** PushBack *)

(** [PushBack(const Type& item)].  [item] is read before the block of
    the receiver changes ([std::copy] leaves its source as it is), so
    the value it designates at the call stands for the reference also
    when it names a slot of the receiver. *)
Definition PushBack (item : T) : M SimpleVector unit :=
  this ← get;
  if size_ this <? cap_ this then
    assign_at (size_ this) item;;
    incr_size
  else
    (if cap_ this =? 0 then
       tmp ← construct (SimpleVector_sized 1);
       '(r, tmp) ← on tmp (operator_index (size_ this));
       '(_, tmp) ← on tmp (assign_at r item);
       _ ← swap_items tmp;
       modify (with_cap 1)
     else
       tmp ← construct (SimpleVector_sized (wrap (cap_ this * 2)));
       tmp ← copy_into copy_assign (begin this) (end_ this) tmp (begin tmp);
       '(r, tmp) ← on tmp (operator_index (size_ this));
       '(_, tmp) ← on tmp (assign_at r item);
       _ ← swap_items tmp;
       modify (λ this, with_cap (wrap (cap_ this * 2)) this));;
    incr_size.

(** [PushBack(Type&& item)]; the result is what [item] becomes.  [item]
    is read after the elements have been moved out of the block, so it
    is a reference. *)
Definition PushBack_move (item : ref) : M SimpleVector ref :=
  this ← get;
  if size_ this <? cap_ this then
    item' ← move_at_ref (size_ this) item;
    incr_size;;
    mret item'
  else
    item' ←
      (if cap_ this =? 0 then
         tmp ← construct (SimpleVector_sized 1);
         '(r, tmp) ← on tmp (operator_index (size_ this));
         '(item', tmp) ← move_to tmp r item;
         _ ← swap_items tmp;
         modify (with_cap 1);;
         mret item'
       else
         tmp ← construct (SimpleVector_sized (wrap (cap_ this * 2)));
         tmp ← copy_into move_assign (begin this) (end_ this) tmp (begin tmp);
         '(r, tmp) ← on tmp (operator_index (size_ this));
         '(item', tmp) ← move_to tmp r item;
         _ ← swap_items tmp;
         modify (λ this, with_cap (wrap (cap_ this * 2)) this);;
         mret item');
    incr_size;;
    mret item'.

(** **** Insert, PopBack, Erase *)

(** [std::copy] and [std::copy_backward] inside the receiver's block. *)
Definition copy_here (asg : assignment) (first last d_first : Iterator)
    : M SimpleVector unit :=
  this ← get;
  p ← defined (std_copy_within asg (items_ this) first last d_first);
  modify (with_items p).

Definition copy_backward_here (asg : assignment) (first last d_last : Iterator)
    : M SimpleVector unit :=
  this ← get;
  p ← defined (std_copy_backward_within asg (items_ this) first last d_last);
  modify (with_items p).

(** [d + 1] on a [ptrdiff_t]. *)
Definition ptrdiff_succ {S} (d : N) : M S N :=
  if PTRDIFF_MAX <=? d then undefined else mret (d + 1).

(** [Insert(ConstIterator pos, const Type& value)].  [value] is read
    after [std::copy_backward] has shifted the block, so it is a
    reference. *)
Definition Insert (pos : Iterator) (value : ref) : M SimpleVector Iterator :=
  this ← get;
  assert (iter_le (begin this) pos && iter_le pos (end_ this));;
  if cap_ this =? 0 then
    x ← read_ref value;
    PushBack x;;
    gets begin
  else
    d ← defined (distance (cbegin this) pos);
    if size_ this <? cap_ this then
      e1 ← defined (iter_succ (end_ this));
      copy_backward_here copy_assign pos (cend this) e1;;
      x ← read_ref value;
      assign_at d x;;
      incr_size;;
      gets (λ this, slot_addr (items_ this) d)
    else
      tmp ← construct (SimpleVector_sized (wrap (cap_ this * 2)));
      tmp ← copy_into copy_assign (cbegin this) pos tmp (begin tmp);
      '(r, tmp) ← on tmp (operator_index d);
      x ← read_ref value;
      '(_, tmp) ← on tmp (assign_at r x);
      d1 ← ptrdiff_succ d;
      '(r1, tmp) ← on tmp (operator_index d1);
      tmp ← copy_into copy_assign pos (cend this) tmp
             (slot_addr (items_ tmp) r1);
      _ ← swap_items tmp;
      modify (λ this, with_cap (wrap (cap_ this * 2)) this);;
      incr_size;;
      gets (λ this, slot_addr (items_ this) d).

(** [Insert(Iterator pos, Type&& value)]; also gives what [value]
    becomes. *)
Definition Insert_move (pos : Iterator) (value : ref)
    : M SimpleVector (Iterator * ref) :=
  this ← get;
  assert (iter_le (begin this) pos && iter_le pos (end_ this));;
  if cap_ this =? 0 then
    value' ← PushBack_move value;
    b ← gets begin;
    mret (b, value')
  else
    d ← defined (distance (begin this) pos);
    if size_ this <? cap_ this then
      e1 ← defined (iter_succ (end_ this));
      copy_backward_here move_assign pos (end_ this) e1;;
      value' ← move_at_ref d value;
      incr_size;;
      b ← gets (λ this, slot_addr (items_ this) d);
      mret (b, value')
    else
      tmp ← construct (SimpleVector_sized (wrap (cap_ this * 2)));
      tmp ← copy_into move_assign (begin this) pos tmp (begin tmp);
      '(r, tmp) ← on tmp (operator_index d);
      '(value', tmp) ← move_to tmp r value;
      d1 ← ptrdiff_succ d;
      '(r1, tmp) ← on tmp (operator_index d1);
      tmp ← copy_into move_assign pos (end_ this) tmp
             (slot_addr (items_ tmp) r1);
      _ ← swap_items tmp;
      modify (λ this, with_cap (wrap (cap_ this * 2)) this);;
      incr_size;;
      b ← gets (λ this, slot_addr (items_ this) d);
      mret (b, value').

Definition PopBack : M SimpleVector unit :=
  this ← get;
  assert (negb (IsEmpty this));;
  decr_size.

Definition Erase (pos : Iterator) : M SimpleVector Iterator :=
  this ← get;
  assert (iter_le (begin this) pos && iter_lt pos (end_ this));;
  let pos_c := pos in
  d ← defined (distance (begin this) pos_c);
  p1 ← defined (iter_succ pos_c);
  copy_here move_assign p1 (end_ this) (slot_addr (items_ this) d);;
  decr_size;;
  gets (λ this, slot_addr (items_ this) d).

(** **** Comparison and copy assignment *)

(** [operator==] on two containers; [None] is an access outside a
    block. *)
Definition operator_eq (lhs rhs : SimpleVector) : option bool :=
  if negb (GetSize lhs =? GetSize rhs) then Some false
  else
    '(i, n) ← iter_range (begin_const lhs) (end_const lhs);
    j ← access_start n (begin_const rhs);
    equal_loop n (items_ lhs) i (items_ rhs) j.

(** [operator=(const SimpleVector& rhs)].  [rhs] is only read, and read
    before the receiver changes, so its value at the call stands for
    the reference also when [rhs] is the receiver. *)
Definition operator_assign (rhs : SimpleVector) : M SimpleVector unit :=
  this ← get;
  same ← defined (operator_eq this rhs);
  if (same : bool) then mret tt
  else
    copy_rhs ← construct (SimpleVector_copy rhs);
    _ ← swap copy_rhs;
    mret tt.

(** **** The other comparisons *)

(** [operator!=] *)
Definition operator_ne (lhs rhs : SimpleVector) : option bool :=
  negb <$> operator_eq lhs rhs.

(** The loop of [std::lexicographical_compare] over [n1] slots of [a] from
    slot [i] and [n2] slots of [b] from slot [j]: the first pair of
    elements of which one is less than the other decides; when a range
    runs out, the first is less exactly if only it has run out. *)
Fixpoint lexicographical_loop (n1 : nat) (a : ArrayPtr) (i : nat)
    (n2 : nat) (b : ArrayPtr) (j : nat) : option bool :=
  match n1, n2 with
  | S n1', S n2' =>
      x ← a !! i; y ← b !! j;
      if T_ltb x y then Some true
      else if T_ltb y x then Some false
      else lexicographical_loop n1' a (S i) n2' b (S j)
  | O, S _ => Some true
  | _, O => Some false
  end.

(** [operator<] *)
Definition operator_lt (lhs rhs : SimpleVector) : option bool :=
  '(i, n1) ← iter_range (begin_const lhs) (end_const lhs);
  '(j, n2) ← iter_range (begin_const rhs) (end_const rhs);
  lexicographical_loop n1 (items_ lhs) i n2 (items_ rhs) j.

(** [operator<=] *)
Definition operator_le (lhs rhs : SimpleVector) : option bool :=
  negb <$> operator_lt rhs lhs.

(** [operator>] *)
Definition operator_gt (lhs rhs : SimpleVector) : option bool :=
  operator_lt rhs lhs.

(** [operator>=] *)
Definition operator_ge (lhs rhs : SimpleVector) : option bool :=
  negb <$> operator_gt rhs lhs.

(** [SimpleVector v(Reserve(n))]: the constructor from a
    [ReserveProxyObj], on the object itself. *)
Definition SimpleVector_proxy (obj : ReserveProxyObj) : M SimpleVector unit :=
  SimpleVector_reserve (Res obj).

(** *** Objects and references

    Copy and move construction, the two assignments and [swap] take
    another container by reference, which may be the receiver itself.
    Objects live in a store and are named by their address. *)

(** The object at address [a]; a dangling reference is undefined. *)
Definition deref (a : nat) : M (gmap nat SimpleVector) SimpleVector :=
  λ σ, match σ !! a with Some v => Ok v σ | None => UB end.

(** An update of the object at address [a]. *)
Definition update (a : nat) (f : SimpleVector → SimpleVector)
    : M (gmap nat SimpleVector) unit :=
  v ← deref a; modify (insert a (f v)).

(** A member function called on the object at address [this]. *)
Definition method {A} (this : nat) (m : M SimpleVector A)
    : M (gmap nat SimpleVector) A :=
  λ σ, match σ !! this with
       | None => UB
       | Some v =>
           match m v with
           | Ok a v' => Ok a (<[this := v']> σ)
           | Throw e v' => Throw e (<[this := v']> σ)
           | AssertFail => AssertFail
           | UB => UB
           end
       end.

(** [SimpleVector dst(args);]: a new object at the unused address [dst],
    built by constructor [c]; when [c] throws there is no object. *)
Definition declare {A} (dst : nat) (c : M SimpleVector A)
    : M (gmap nat SimpleVector) A :=
  λ σ, match σ !! dst with
       | Some _ => UB
       | None =>
           match c init with
           | Ok a v => Ok a (<[dst := v]> σ)
           | Throw e _ => Throw e σ
           | AssertFail => AssertFail
           | UB => UB
           end
       end.

(** [SimpleVector dst(other);] *)
Definition declare_copy (dst other : nat) : M (gmap nat SimpleVector) unit :=
  o ← deref other;
  declare dst (SimpleVector_copy o).

(** [SimpleVector dst(std::move(other));] *)
Definition declare_move (dst other : nat) : M (gmap nat SimpleVector) unit :=
  o ← deref other;
  o' ← declare dst (SimpleVector_move o);
  update other (λ _, o').

(** [this = rhs;] *)
Definition assign_ref (this rhs : nat) : M (gmap nat SimpleVector) unit :=
  r ← deref rhs;
  method this (operator_assign r).

(** [this = std::move(rhs);], that is [operator=(SimpleVector&& rhs)].
    Modelled from the spec: the move assignment of array_ptr.h (not part
    of the sources) takes the block of [rhs.items_] and leaves it owning
    nothing. *)
Definition move_assign_ref (this rhs : nat) : M (gmap nat SimpleVector) unit :=
  _ ← deref this;
  if bool_decide (this = rhs) then mret tt
  else
    r ← deref rhs;
    update this (with_items (items_ r));;
    update rhs (with_items []);;
    r ← deref rhs;
    update rhs (with_size 0);;
    update this (with_size (size_ r));;
    r ← deref rhs;
    update rhs (with_cap 0);;
    update this (with_cap (cap_ r)).

(** [this.swap(other);]: three exchanges of one member each. *)
Definition swap_ref (this other : nat) : M (gmap nat SimpleVector) unit :=
  a ← deref this; b ← deref other;
  update this (with_items (items_ b));;
  update other (with_items (items_ a));;
  a ← deref this; b ← deref other;
  update this (with_size (size_ b));;
  update other (with_size (size_ a));;
  a ← deref this; b ← deref other;
  update this (with_cap (cap_ b));;
  update other (with_cap (cap_ a)).

(** *** The public operations *)

Inductive call : Type :=
| Declare_default (dst : nat)
| Declare_sized (dst : nat) (size : N)
| Declare_fill (dst : nat) (size : N) (value : T)
| Declare_list (dst : nat) (il : list T)
| Declare_copy (dst other : nat)
| Declare_reserve (dst : nat) (res : N)
| Declare_move (dst other : nat)
| Call_assign (this rhs : nat)
| Call_move_assign (this rhs : nat)
| Call_Reserve (this : nat) (new_capacity : N)
| Call_GetSize (this : nat)
| Call_GetCapacity (this : nat)
| Call_IsEmpty (this : nat)
| Call_index (this : nat) (index : N)
| Call_At (this : nat) (index : N)
| Call_Clear (this : nat)
| Call_Resize (this : nat) (new_size : N)
| Call_PushBack (this : nat) (item : T)
| Call_PushBack_move (this : nat) (item : ref)
| Call_Insert (this : nat) (pos : Iterator) (value : ref)
| Call_Insert_move (this : nat) (pos : Iterator) (value : ref)
| Call_PopBack (this : nat)
| Call_Erase (this : nat) (pos : Iterator)
| Call_swap (this other : nat)
| Call_begin (this : nat)
| Call_end (this : nat)
| Call_begin_const (this : nat)
| Call_end_const (this : nat)
| Call_cbegin (this : nat)
| Call_cend (this : nat).

(** A call for its effect on the store; what it returns is dropped. *)
Definition exec (c : call) : M (gmap nat SimpleVector) unit :=
  match c with
  | Declare_default dst => declare dst SimpleVector_default
  | Declare_sized dst size => declare dst (SimpleVector_sized size)
  | Declare_fill dst size value => declare dst (SimpleVector_fill size value)
  | Declare_list dst il => declare dst (SimpleVector_list il)
  | Declare_copy dst other => declare_copy dst other
  | Declare_reserve dst res => declare dst (SimpleVector_reserve res)
  | Declare_move dst other => declare_move dst other
  | Call_assign this rhs => assign_ref this rhs
  | Call_move_assign this rhs => move_assign_ref this rhs
  | Call_Reserve this n => method this (Reserve n)
  | Call_GetSize this => method this (gets GetSize);; mret tt
  | Call_GetCapacity this => method this (gets GetCapacity);; mret tt
  | Call_IsEmpty this => method this (gets IsEmpty);; mret tt
  | Call_index this index => method this (operator_index index);; mret tt
  | Call_At this index => method this (At index);; mret tt
  | Call_Clear this => method this Clear
  | Call_Resize this n => method this (Resize n)
  | Call_PushBack this item => method this (PushBack item)
  | Call_PushBack_move this item => method this (PushBack_move item);; mret tt
  | Call_Insert this pos value => method this (Insert pos value);; mret tt
  | Call_Insert_move this pos value => method this (Insert_move pos value);; mret tt
  | Call_PopBack this => method this PopBack
  | Call_Erase this pos => method this (Erase pos);; mret tt
  | Call_swap this other => swap_ref this other
  | Call_begin this => method this (gets begin);; mret tt
  | Call_end this => method this (gets end_);; mret tt
  | Call_begin_const this => method this (gets begin_const);; mret tt
  | Call_end_const this => method this (gets end_const);; mret tt
  | Call_cbegin this => method this (gets cbegin);; mret tt
  | Call_cend this => method this (gets cend);; mret tt
  end.

(** ** Vocabulary of the properties *)

(** Both assignments leave the source's value in the destination. *)
Definition transfers (asg : assignment) : Prop := ∀ d s, (asg d s).1 = s.

(** The representation invariant: the block has [cap_] slots (none when
    [cap_ = 0]), of which the first [size_] are in use, and it is a block
    that [new] delivered. *)
Definition wf (v : SimpleVector) : Prop :=
  length (items_ v) = N.to_nat (cap_ v) ∧ size_ v ≤ cap_ v ∧ cap_ v ≤ max_alloc.

(** The two conditions the specification states of size and capacity. *)
Definition invariant (v : SimpleVector) : Prop :=
  0 ≤ size_ v ≤ cap_ v ∧ (cap_ v = 0 → size_ v = 0).

(** A reference to an element is valid for the receiver [v]: it names
    an object outside the block, or a slot the block has. *)
Definition ref_valid (r : ref) (v : SimpleVector) : Prop :=
  match r with ext _ => True | elem i => i < cap_ v end.

(** The stated preconditions of the public operations.  A declaration
    names an unused address, a reference names an object (a reference to
    an element, an object outside the receiver or a slot of its block);
    [operator[]] takes an index below the size, [PopBack] a non-empty
    container, [Insert] a position in [[begin, end]] and [Erase] one in
    [[begin, end)]. *)
Definition pre (c : call) (σ : gmap nat SimpleVector) : Prop :=
  match c with
  | Declare_default dst | Declare_sized dst _ | Declare_fill dst _ _
  | Declare_reserve dst _ | Declare_list dst _ => σ !! dst = None
  | Declare_copy dst other | Declare_move dst other =>
      σ !! dst = None ∧ is_Some (σ !! other)
  | Call_assign this rhs | Call_move_assign this rhs | Call_swap this rhs =>
      is_Some (σ !! this) ∧ is_Some (σ !! rhs)
  | Call_index this index => ∃ v, σ !! this = Some v ∧ index < size_ v
  | Call_PopBack this => ∃ v, σ !! this = Some v ∧ IsEmpty v = false
  | Call_PushBack_move this item =>
      ∃ v, σ !! this = Some v ∧ ref_valid item v
  | Call_Insert this pos value | Call_Insert_move this pos value =>
      ∃ v, σ !! this = Some v
           ∧ iter_le (begin v) pos && iter_le pos (end_ v) = true
           ∧ ref_valid value v
  | Call_Erase this pos =>
      ∃ v, σ !! this = Some v
           ∧ iter_le (begin v) pos && iter_lt pos (end_ v) = true
  | Call_Reserve this _ | Call_GetSize this | Call_GetCapacity this
  | Call_IsEmpty this | Call_At this _ | Call_Clear this | Call_Resize this _
  | Call_PushBack this _
  | Call_begin this | Call_end this | Call_begin_const this
  | Call_end_const this | Call_cbegin this | Call_cend this =>
      is_Some (σ !! this)
  end.

(** No stated precondition, but the reach of the code: [Create] counts
    the elements it copies with an [int], so the initializer list, and
    the container that a copy construction or a copy assignment copies,
    have at most [INT_MAX] elements. *)
Definition int_counted (c : call) (σ : gmap nat SimpleVector) : Prop :=
  match c with
  | Declare_list _ il => N.of_nat (length il) ≤ INT_MAX
  | Declare_copy _ other | Call_assign _ other =>
      ∀ o, σ !! other = Some o → size_ o ≤ INT_MAX
  | _ => True
  end.

Definition ends_wf {A} (r : outcome SimpleVector A) : Prop :=
  ∃ v', final_state r = Some v' ∧ wf v'.

(** The calls [v.PushBack(x)] for the elements [x] of [l] in turn. *)
Fixpoint push_each (l : list T) : M SimpleVector unit :=
  match l with
  | [] => mret tt
  | x :: l' => PushBack x;; push_each l'
  end.

(** The capacities that repeated doubling from an empty container
    reaches: [0], or a power of two that is less than twice the size. *)
Definition doubled (v : SimpleVector) : Prop :=
  cap_ v = 0 ∨ (∃ k, cap_ v = 2 ^ k) ∧ cap_ v < 2 * size_ v.

(** Lexicographic order on lists of elements, a proper prefix being
    less. *)
Fixpoint lex_lt (l1 l2 : list T) : bool :=
  match l1, l2 with
  | x :: l1', y :: l2' =>
      if T_ltb x y then true
      else if T_ltb y x then false
      else lex_lt l1' l2'
  | [], _ :: _ => true
  | _, [] => false
  end.

(** Elementwise [==] on lists of the same length. *)
Fixpoint all_eqb (l1 l2 : list T) : bool :=
  match l1, l2 with
  | x :: l1', y :: l2' => T_eqb x y && all_eqb l1' l2'
  | [], [] => true
  | _, _ => false
  end.

(** The calls of a member function that names no other container, with
    their receiver. *)
Definition member_call (c : call) : option nat :=
  match c with
  | Call_Reserve this _ | Call_GetSize this | Call_GetCapacity this
  | Call_IsEmpty this | Call_index this _ | Call_At this _ | Call_Clear this
  | Call_Resize this _ | Call_PushBack this _ | Call_PushBack_move this _
  | Call_Insert this _ _ | Call_Insert_move this _ _ | Call_PopBack this
  | Call_Erase this _ | Call_begin this | Call_end this
  | Call_begin_const this | Call_end_const this | Call_cbegin this
  | Call_cend this => Some this
  | _ => None
  end.

(** What a member function leaves of a well-formed receiver [v]: after
    a return a well-formed container of at least the capacity of [v],
    after an exception, which is [bad_alloc], [v] itself. *)
Definition keeps {A} (v : SimpleVector) (r : outcome SimpleVector A) : Prop :=
  match r with
  | Ok _ v' => wf v' ∧ cap_ v ≤ cap_ v'
  | Throw e v' => v' = v ∧ e = bad_alloc
  | AssertFail | UB => False
  end.

(** [v'] is [v] with [value] inserted before the element of index [d]
    (at the end for [d = size_ v]). *)
Definition inserted (d : N) (value : T) (v v' : SimpleVector) : Prop :=
  wf v' ∧ size_ v' = size_ v + 1
  ∧ elems v' = take (N.to_nat d) (elems v)
               ++ value :: drop (N.to_nat d) (elems v).

(** [v'] is [v] without its element of index [d], in the same block. *)
Definition erased (d : N) (v v' : SimpleVector) : Prop :=
  wf v' ∧ size_ v' = size_ v - 1 ∧ cap_ v' = cap_ v
  ∧ elems v' = take (N.to_nat d) (elems v)
               ++ drop (S (N.to_nat d)) (elems v).

(** The slot of the block at the call whose value [Insert] stores when
    its argument names slot [i]: the reference is read after the
    elements from the position on have been shifted one slot up, which
    happens when the container has room. *)
Definition slot_read (pos : Iterator) (i : N) (v : SimpleVector) : N :=
  if decide (size_ v < cap_ v ∧ iter_offset pos < i ≤ size_ v) then i - 1
  else i.

(** ** Properties of the loops *)

Lemma copy_assign_transfers : transfers copy_assign.
Proof using Type. clear max_alloc_range. by intros d s. Qed.

Lemma move_assign_transfers : transfers move_assign.
Proof using Type. clear max_alloc_range. by intros d s. Qed.

Lemma assign_within_Some asg buf i j s d :
  buf !! i = Some s → buf !! j = Some d →
  assign_within asg buf i j
  = Some (<[j := (asg d s).1]> (<[i := (asg d s).2]> buf)).
Proof.
  intros Hi Hj. unfold assign_within. rewrite Hi, Hj. simpl.
  by destruct (asg d s).
Qed.

Lemma copy_across_spec asg n : transfers asg → ∀ src i dst j,
  (i + n ≤ length src)%nat → (j + n ≤ length dst)%nat →
  ∃ src' dst', copy_across asg n src i dst j = Some (src', dst')
    ∧ length src' = length src ∧ length dst' = length dst
    ∧ (∀ k, ¬ (i ≤ k < i + n)%nat → src' !! k = src !! k)
    ∧ (∀ k, dst' !! k =
            if decide (j ≤ k < j + n)%nat then src !! (i + (k - j))%nat
            else dst !! k).
Proof.
  intros Hasg. induction n as [|n IH]; intros src i dst j Hsrc Hdst.
  - exists src, dst. split_and!; try done. intros k. case_decide; [lia|done].
  - destruct (lookup_lt_is_Some_2 src i) as [s Hs]; [lia|].
    destruct (lookup_lt_is_Some_2 dst j) as [d Hd]; [lia|].
    cbn [copy_across]. unfold assign_across. rewrite Hs, Hd. simpl.
    specialize (Hasg d s). destruct (asg d s) as [d' s']. simpl in *. subst d'.
    destruct (IH (<[i := s']> src) (S i) (<[j := s]> dst) (S j))
      as (src' & dst' & -> & Hls & Hld & Hsrc' & Hdst');
      [rewrite length_insert; lia ..|].
    rewrite length_insert in Hls, Hld.
    exists src', dst'. split_and!; try done.
    + intros k Hk. rewrite Hsrc' by lia. apply list_lookup_insert_ne. lia.
    + intros k. rewrite Hdst'. rewrite !list_lookup_insert.
      repeat case_decide; try lia.
      * f_equal. lia.
      * replace k with j by lia. by replace (i + (j - j))%nat with i by lia.
      * done.
Qed.

(** [std::copy] to the slot just before the first one read moves every
    element of the range one slot down; the last slot read is left in
    the state of a source. *)
Lemma copy_within_down asg n : transfers asg → ∀ buf j,
  (S j + n ≤ length buf)%nat →
  ∃ buf', copy_within asg n buf (S j) j = Some buf'
    ∧ length buf' = length buf
    ∧ (∀ k, k ≠ (j + n)%nat → buf' !! k =
            if decide (j ≤ k < j + n)%nat then buf !! S k else buf !! k).
Proof.
  intros Hasg. induction n as [|n IH]; intros buf j Hlen.
  - exists buf. split_and!; try done. intros k _. case_decide; [lia|done].
  - destruct (lookup_lt_is_Some_2 buf (S j)) as [s Hs]; [lia|].
    destruct (lookup_lt_is_Some_2 buf j) as [d Hd]; [lia|].
    cbn [copy_within]. rewrite (assign_within_Some _ _ _ _ _ _ Hs Hd).
    rewrite Hasg. set (s' := (asg d s).2). simpl.
    destruct (IH (<[j := s]> (<[S j := s']> buf)) (S j))
      as (buf' & -> & Hl & Hb); [rewrite !length_insert; lia|].
    rewrite !length_insert in Hl.
    exists buf'. split_and!; try done. intros k Hk.
    rewrite Hb by lia. rewrite !list_lookup_insert, !length_insert.
    repeat case_decide; try lia; try done.
    by replace k with j by lia.
Qed.

(** [std::copy_backward] to the slot just after the last one read moves
    every element of the range one slot up; the first slot read is left
    in the state of a source. *)
Lemma copy_backward_within_up asg n : transfers asg → ∀ buf d,
  (d + n + 1 ≤ length buf)%nat →
  ∃ buf', copy_backward_within asg n buf (d + n) (S (d + n)) = Some buf'
    ∧ length buf' = length buf
    ∧ (∀ k, k ≠ d → buf' !! k =
            if decide (d < k ≤ d + n)%nat then buf !! (k - 1)%nat
            else buf !! k).
Proof.
  intros Hasg. induction n as [|n IH]; intros buf d Hlen.
  - exists buf. split_and!; try done. intros k _. case_decide; [lia|done].
  - destruct (lookup_lt_is_Some_2 buf (d + n)) as [s Hs]; [lia|].
    destruct (lookup_lt_is_Some_2 buf (S (d + n))) as [x Hx]; [lia|].
    rewrite Nat.add_succ_r. cbn [copy_backward_within].
    rewrite (assign_within_Some _ _ _ _ _ _ Hs Hx).
    rewrite Hasg. set (s' := (asg x s).2). simpl.
    destruct (IH (<[S (d + n) := s]> (<[(d + n)%nat := s']> buf)) d)
      as (buf' & -> & Hl & Hb); [rewrite !length_insert; lia|].
    rewrite !length_insert in Hl.
    exists buf'. split_and!; try done. intros k Hk.
    rewrite Hb by lia. rewrite !list_lookup_insert, !length_insert.
    repeat case_decide; try lia; try done.
    replace k with (S (d + n)) by lia.
    by replace (S (d + n) - 1)%nat with (d + n)%nat by lia.
Qed.

Lemma fill_loop_spec n x : ∀ buf j,
  (j + n ≤ length buf)%nat →
  ∃ buf', fill_loop n buf j x = Some buf'
    ∧ length buf' = length buf
    ∧ (∀ k, buf' !! k =
            if decide (j ≤ k < j + n)%nat then Some x else buf !! k).
Proof.
  induction n as [|n IH]; intros buf j Hlen.
  - exists buf. split_and!; try done. intros k. case_decide; [lia|done].
  - destruct (lookup_lt_is_Some_2 buf j) as [d Hd]; [lia|].
    cbn [fill_loop]. unfold assign_slot. rewrite Hd. simpl.
    destruct (IH (<[j := x]> buf) (S j)) as (buf' & -> & Hl & Hb);
      [rewrite length_insert; lia|].
    rewrite length_insert in Hl.
    exists buf'. split_and!; try done. intros k.
    rewrite Hb, list_lookup_insert. repeat case_decide; try lia; done.
Qed.

(** [std::equal] reads both ranges up to the first mismatch. *)
Lemma equal_loop_total n : ∀ a i b j,
  (i + n ≤ length a)%nat → (j + n ≤ length b)%nat →
  ∃ e, equal_loop n a i b j = Some e
    ∧ (e = true ↔ ∀ k x y, (k < n)%nat → a !! (i + k)%nat = Some x →
                   b !! (j + k)%nat = Some y → T_eqb x y = true).
Proof.
  induction n as [|n IH]; intros a i b j Ha Hb.
  - exists true. split; [done|]. split; [|done]. intros _ k x y Hk. lia.
  - destruct (lookup_lt_is_Some_2 a i) as [x Hx]; [lia|].
    destruct (lookup_lt_is_Some_2 b j) as [y Hy]; [lia|].
    cbn [equal_loop]. rewrite Hx, Hy. simpl. destruct (T_eqb x y) eqn:Hxy.
    + destruct (IH a (S i) b (S j)) as (e & -> & He); [lia..|].
      exists e. split; [done|]. rewrite He. split.
      * intros H [|k] x' y' Hk Hx' Hy'.
        -- rewrite Nat.add_0_r in *. congruence.
        -- apply (H k); [lia|..]; by rewrite Nat.add_succ_comm.
      * intros H k x' y' Hk Hx' Hy'. apply (H (S k)); [lia|..];
          by rewrite <- Nat.add_succ_comm.
    + exists false. split; [done|]. split; [done|]. intros H.
      rewrite <- Hxy. apply (H 0%nat); [lia|..]; by rewrite Nat.add_0_r.
Qed.

Ltac mrun :=
  cbv beta iota zeta delta
    [mbind M_bind mret M_ret get gets modify throw assert undefined defined
     on construct read_ref move_at_ref move_to].

Lemma wrap_small n : n < 2 ^ 64 → wrap n = n.
Proof using Type. clear max_alloc_range. apply N.mod_small. Qed.

Lemma SimpleVector_sized_0 : SimpleVector_sized 0 init = Ok tt init.
Proof. done. Qed.

Lemma SimpleVector_sized_ok n :
  n ≠ 0 → n ≤ max_alloc →
  SimpleVector_sized n init
  = Ok tt {| items_ := replicate (N.to_nat n) T_default; size_ := n; cap_ := n |}.
Proof.
  intros Hn Hmax. unfold SimpleVector_sized, ArrayPtr_new. mrun.
  destruct (N.eqb_spec n 0); [done|]. cbn [negb].
  destruct (N.ltb_spec max_alloc n); [lia|]. done.
Qed.

Lemma SimpleVector_sized_throw n :
  max_alloc < n → SimpleVector_sized n init = Throw bad_alloc init.
Proof.
  intros Hmax. unfold SimpleVector_sized, ArrayPtr_new. mrun.
  destruct (N.eqb_spec n 0); [lia|]. cbn [negb].
  destruct (N.ltb_spec max_alloc n); [done|lia].
Qed.

Lemma construct_sized_ok {S} n (s : S) :
  n ≠ 0 → n ≤ max_alloc →
  construct (SimpleVector_sized n) s
  = Ok {| items_ := replicate (N.to_nat n) T_default; size_ := n; cap_ := n |} s.
Proof. intros. mrun. by rewrite SimpleVector_sized_ok. Qed.

Lemma construct_sized_0 {S} (s : S) :
  construct (SimpleVector_sized 0) s = Ok init s.
Proof. done. Qed.

Lemma construct_sized_throw {S} n (s : S) :
  max_alloc < n → construct (SimpleVector_sized n) s = Throw bad_alloc s.
Proof. intros. mrun. by rewrite SimpleVector_sized_throw. Qed.

Lemma assign_at_ok r x v d :
  items_ v !! N.to_nat r = Some d →
  assign_at r x v = Ok tt (with_items (<[N.to_nat r := x]> (items_ v)) v).
Proof using Type. clear max_alloc_range. intros Hd. unfold assign_at, assign_slot. mrun. by rewrite Hd. Qed.

Lemma move_at_ok r x v d :
  items_ v !! N.to_nat r = Some d →
  move_at r x v
  = Ok (T_moved d x) (with_items (<[N.to_nat r := x]> (items_ v)) v).
Proof using Type. clear max_alloc_range. intros Hd. unfold move_at, assign_slot. mrun. by rewrite Hd. Qed.

Lemma operator_index_ok index v :
  index ≤ size_ v → operator_index index v = Ok index v.
Proof using Type. clear max_alloc_range.
  intros H. unfold operator_index. mrun.
  by destruct (N.leb_spec index (size_ v)); [|lia].
Qed.

(** *** Lookups in decided form *)

Lemma lookup_app_decide (l1 l2 : list T) i :
  (l1 ++ l2) !! i
  = if decide (i < length l1)%nat then l1 !! i else l2 !! (i - length l1)%nat.
Proof using Type. clear max_alloc_range. case_decide; [by apply lookup_app_l|apply lookup_app_r; lia]. Qed.

Lemma lookup_replicate_decide n (x : T) i :
  replicate n x !! i = if decide (i < n)%nat then Some x else None.
Proof using Type. clear max_alloc_range.
  case_decide; [by apply lookup_replicate_2|].
  apply lookup_replicate_None. lia.
Qed.

Lemma lookup_cons_decide (x : T) l i :
  (x :: l) !! i = if decide (i = 0)%nat then Some x else l !! (i - 1)%nat.
Proof using Type. clear max_alloc_range. destruct i; [done|]. simpl. by rewrite Nat.sub_0_r. Qed.

Ltac lookups :=
  repeat first
    [ rewrite list_lookup_insert | rewrite lookup_take
    | rewrite lookup_app_decide | rewrite lookup_drop
    | rewrite lookup_replicate_decide | rewrite lookup_cons_decide
    | rewrite lookup_nil
    | rewrite length_insert | rewrite length_take | rewrite length_drop
    | rewrite length_replicate | rewrite length_app
    | progress cbn [length] ].

Ltac cases :=
  repeat case_decide; try lia; try done;
  try (f_equal; lia); try (rewrite lookup_ge_None_2 by lia; done);
  try (symmetry; rewrite lookup_ge_None_2 by lia; done).

(** *** Iterators of a well-formed container *)

Lemma with_items_id v : with_items (items_ v) v = v.
Proof using Type. clear max_alloc_range. by destruct v. Qed.

Lemma slot_addr_block (p : list T) i :
  (0 < length p)%nat → slot_addr p i = slot i.
Proof using Type. clear max_alloc_range. destruct p; simpl; [lia|done]. Qed.

Lemma wf_slot_addr v i : wf v → cap_ v ≠ 0 → slot_addr (items_ v) i = slot i.
Proof using Type. clear max_alloc_range.
  intros (Hlen & _) Hcap. destruct (items_ v); [|done].
  simpl in Hlen. lia.
Qed.

Lemma wf_begin v : wf v → cap_ v ≠ 0 → begin v = slot 0.
Proof using Type. clear max_alloc_range.
  intros Hwf Hcap. unfold begin. destruct (N.eqb_spec (cap_ v) 0); [done|].
  by apply wf_slot_addr.
Qed.

Lemma wf_end v : wf v → cap_ v ≠ 0 → end_ v = slot (size_ v).
Proof using Type. clear max_alloc_range.
  intros Hwf Hcap. unfold end_. destruct (N.eqb_spec (cap_ v) 0); [done|].
  by apply wf_slot_addr.
Qed.

Lemma begin_end_null v : cap_ v = 0 → begin v = nullptr ∧ end_ v = nullptr.
Proof using Type. clear max_alloc_range. intros H. unfold begin, end_. by rewrite H. Qed.

Lemma wf_range v :
  wf v →
  iter_range (begin v) (end_ v) = Some (0%nat, N.to_nat (size_ v)).
Proof using Type. clear max_alloc_range.
  intros Hwf. destruct (N.eq_dec (cap_ v) 0) as [Hcap|Hcap].
  - destruct (begin_end_null v Hcap) as [-> ->]. destruct Hwf as (_ & Hs & _).
    by replace (size_ v) with 0 by lia.
  - rewrite wf_begin, wf_end by done. unfold iter_range. simpl.
    destruct (N.leb_spec 0 (size_ v)); [|lia]. simpl. by rewrite N.sub_0_r.
Qed.

Lemma wf_access_start v n :
  wf v → (n ≤ N.to_nat (cap_ v))%nat → access_start n (begin v) = Some 0%nat.
Proof using Type. clear max_alloc_range.
  intros Hwf Hn. destruct (N.eq_dec (cap_ v) 0) as [Hcap|Hcap].
  - destruct (begin_end_null v Hcap) as [-> _]. simpl.
    destruct n; [done|lia].
  - by rewrite wf_begin.
Qed.

(** *** Transfer of all the elements into a fresh block *)

Lemma copy_range_into asg first last tmp d_first v i n j :
  transfers asg →
  iter_range first last = Some (i, n) →
  access_start n d_first = Some j →
  (i + n ≤ length (items_ v))%nat →
  (j + n ≤ length (items_ tmp))%nat →
  ∃ src' dst',
    copy_into asg first last tmp d_first v
    = Ok (with_items dst' tmp) (with_items src' v)
    ∧ length src' = length (items_ v)
    ∧ length dst' = length (items_ tmp)
    ∧ (∀ k, ¬ (i ≤ k < i + n)%nat → src' !! k = items_ v !! k)
    ∧ (∀ k, dst' !! k =
            if decide (j ≤ k < j + n)%nat then items_ v !! (i + (k - j))%nat
            else items_ tmp !! k).
Proof.
  intros Hasg Hr Hj Hi Hjn.
  destruct (copy_across_spec asg n Hasg (items_ v) i (items_ tmp) j Hi Hjn)
    as (src' & dst' & Hc & Hrest).
  exists src', dst'. split; [|done].
  unfold copy_into, std_copy. mrun. rewrite Hr. simpl. rewrite Hj. simpl.
  by rewrite Hc.
Qed.

Lemma copy_all_into asg tmp v :
  transfers asg → wf v → wf tmp → size_ v ≤ cap_ tmp →
  ∃ src',
    copy_into asg (begin v) (end_ v) tmp (begin tmp) v
    = Ok (with_items (elems v ++ drop (N.to_nat (size_ v)) (items_ tmp)) tmp)
         (with_items src' v)
    ∧ length src' = length (items_ v).
Proof.
  intros Hasg Hwf Htmp Hsz.
  destruct (copy_range_into asg (begin v) (end_ v) tmp (begin tmp) v
              0%nat (N.to_nat (size_ v)) 0%nat)
    as (src' & dst' & Hc & Hl & Hld & _ & Hdst); try done.
  - by apply wf_range.
  - apply wf_access_start; [done|lia].
  - destruct Hwf as (? & ? & ?). lia.
  - destruct Htmp as (? & ? & ?). lia.
  - exists src'. split; [|done]. rewrite Hc. do 2 f_equal.
    apply list_eq. intros k. rewrite Hdst. unfold elems.
    destruct Hwf as (? & ? & ?). lookups. cases.
Qed.

(** *** PushBack *)

Lemma wf_lookup v i :
  wf v → i < cap_ v → is_Some (items_ v !! N.to_nat i).
Proof using Type. clear max_alloc_range. intros (Hl & _) Hi. apply lookup_lt_is_Some_2. lia. Qed.

Lemma PushBack_room item v :
  wf v → size_ v < cap_ v →
  PushBack item v
  = Ok tt {| items_ := <[N.to_nat (size_ v) := item]> (items_ v);
             size_ := size_ v + 1; cap_ := cap_ v |}.
Proof.
  intros Hwf Hlt. destruct (wf_lookup v (size_ v) Hwf Hlt) as [d Hd].
  destruct Hwf as (Hl & Hs & Hc).
  unfold PushBack, incr_size. mrun.
  destruct (N.ltb_spec (size_ v) (cap_ v)); [|lia].
  rewrite (assign_at_ok _ _ _ _ Hd). unfold with_size, with_items. simpl.
  by rewrite wrap_small by lia.
Qed.

Lemma PushBack_move_room item v :
  wf v → size_ v < cap_ v →
  ∃ item',
    PushBack_move (ext item) v
    = Ok (ext item') {| items_ := <[N.to_nat (size_ v) := item]> (items_ v);
                  size_ := size_ v + 1; cap_ := cap_ v |}.
Proof.
  intros Hwf Hlt. destruct (wf_lookup v (size_ v) Hwf Hlt) as [d Hd].
  destruct Hwf as (Hl & Hs & Hc). exists (T_moved d item).
  unfold PushBack_move, incr_size. mrun.
  destruct (N.ltb_spec (size_ v) (cap_ v)); [|lia].
  rewrite (move_at_ok _ _ _ _ Hd). unfold with_size, with_items. simpl.
  by rewrite wrap_small by lia.
Qed.

Lemma PushBack_empty item v :
  wf v → cap_ v = 0 →
  PushBack item v = Ok tt {| items_ := [item]; size_ := 1; cap_ := 1 |}.
Proof.
  intros (Hl & Hs & Hc) Hcap. assert (size_ v = 0) as Hsz by lia.
  unfold PushBack, incr_size, swap_items. mrun. rewrite Hsz, Hcap. simpl.
  rewrite SimpleVector_sized_ok by lia. simpl.
  by rewrite Hsz.
Qed.

Lemma PushBack_move_empty item v :
  wf v → cap_ v = 0 →
  PushBack_move (ext item) v
  = Ok (ext (T_moved T_default item)) {| items_ := [item]; size_ := 1; cap_ := 1 |}.
Proof.
  intros (Hl & Hs & Hc) Hcap. assert (size_ v = 0) as Hsz by lia.
  unfold PushBack_move, incr_size, swap_items. mrun. rewrite Hsz, Hcap. simpl.
  rewrite SimpleVector_sized_ok by lia. simpl.
  by rewrite Hsz.
Qed.

Lemma wf_sized n :
  n ≤ max_alloc →
  wf {| items_ := replicate (N.to_nat n) T_default; size_ := n; cap_ := n |}.
Proof. intros. split_and!; simpl; [by rewrite length_replicate|lia|done]. Qed.

Lemma wf_elems_full v : wf v → size_ v = cap_ v → elems v = items_ v.
Proof. intros (Hl & _) Hs. unfold elems. apply take_ge. lia. Qed.

Lemma PushBack_grow item v :
  wf v → size_ v = cap_ v → cap_ v ≠ 0 → 2 * cap_ v ≤ max_alloc →
  PushBack item v
  = Ok tt {| items_ := items_ v ++ item :: replicate (N.to_nat (cap_ v) - 1) T_default;
             size_ := size_ v + 1; cap_ := 2 * cap_ v |}.
Proof.
  intros Hwf Hfull Hcap Hmax.
  assert (wrap (cap_ v * 2) = 2 * cap_ v) as Hw by (rewrite wrap_small; lia).
  unfold PushBack, incr_size, swap_items. mrun.
  destruct (N.ltb_spec (size_ v) (cap_ v)); [lia|].
  destruct (N.eqb_spec (cap_ v) 0); [done|].
  rewrite Hw, SimpleVector_sized_ok by lia.
  set (tmp := {| items_ := replicate _ _ |}).
  destruct (copy_all_into copy_assign tmp v) as (src' & -> & Hsrc);
    [apply copy_assign_transfers|done|by apply wf_sized|simpl; lia|].
  rewrite operator_index_ok by (simpl; lia).
  destruct Hwf as (Hl & Hs & Hc).
  rewrite wf_elems_full by done. simpl.
  destruct (lookup_lt_is_Some_2
    (items_ v ++ drop (N.to_nat (size_ v)) (replicate (N.to_nat (2 * cap_ v)) T_default))
    (N.to_nat (size_ v))) as [d Hd]; [lookups; lia|].
  erewrite assign_at_ok by exact Hd. simpl.
  rewrite Hw, wrap_small by lia. f_equal.
  unfold with_size, with_cap, with_items. simpl. f_equal.
  apply list_eq. intros k. lookups. cases.
Qed.

Lemma PushBack_move_grow item v :
  wf v → size_ v = cap_ v → cap_ v ≠ 0 → 2 * cap_ v ≤ max_alloc →
  PushBack_move (ext item) v
  = Ok (ext (T_moved T_default item))
       {| items_ := items_ v ++ item :: replicate (N.to_nat (cap_ v) - 1) T_default;
          size_ := size_ v + 1; cap_ := 2 * cap_ v |}.
Proof.
  intros Hwf Hfull Hcap Hmax.
  assert (wrap (cap_ v * 2) = 2 * cap_ v) as Hw by (rewrite wrap_small; lia).
  unfold PushBack_move, incr_size, swap_items. mrun.
  destruct (N.ltb_spec (size_ v) (cap_ v)); [lia|].
  destruct (N.eqb_spec (cap_ v) 0); [done|].
  rewrite Hw, SimpleVector_sized_ok by lia.
  set (tmp := {| items_ := replicate _ _ |}).
  destruct (copy_all_into move_assign tmp v) as (src' & -> & Hsrc);
    [apply move_assign_transfers|done|by apply wf_sized|simpl; lia|].
  rewrite operator_index_ok by (simpl; lia).
  destruct Hwf as (Hl & Hs & Hc).
  rewrite wf_elems_full by done. simpl.
  assert ((items_ v ++ drop (N.to_nat (size_ v)) (replicate (N.to_nat (2 * cap_ v)) T_default))
          !! N.to_nat (size_ v) = Some T_default) as Hd by (lookups; cases).
  erewrite move_at_ok by exact Hd. simpl.
  rewrite Hw, wrap_small by lia. f_equal.
  unfold with_size, with_cap, with_items. simpl. f_equal.
  apply list_eq. intros k. lookups. cases.
Qed.

Lemma PushBack_throw item v :
  wf v → size_ v = cap_ v → cap_ v ≠ 0 → max_alloc < 2 * cap_ v →
  PushBack item v = Throw bad_alloc v.
Proof.
  intros (Hl & Hs & Hc) Hfull Hcap Hmax.
  assert (wrap (cap_ v * 2) = 2 * cap_ v) as Hw by (rewrite wrap_small; lia).
  unfold PushBack. mrun.
  destruct (N.ltb_spec (size_ v) (cap_ v)); [lia|].
  destruct (N.eqb_spec (cap_ v) 0); [done|].
  by rewrite Hw, SimpleVector_sized_throw.
Qed.

Lemma PushBack_move_throw item v :
  wf v → size_ v = cap_ v → cap_ v ≠ 0 → max_alloc < 2 * cap_ v →
  PushBack_move item v = Throw bad_alloc v.
Proof.
  intros (Hl & Hs & Hc) Hfull Hcap Hmax.
  assert (wrap (cap_ v * 2) = 2 * cap_ v) as Hw by (rewrite wrap_small; lia).
  unfold PushBack_move. mrun.
  destruct (N.ltb_spec (size_ v) (cap_ v)); [lia|].
  destruct (N.eqb_spec (cap_ v) 0); [done|].
  by rewrite Hw, SimpleVector_sized_throw.
Qed.

(** *** Insert *)

(** The positions [Insert] accepts. *)
Lemma valid_insert_position v pos :
  wf v → iter_le (begin v) pos && iter_le pos (end_ v) = true →
  (cap_ v = 0 ∧ pos = nullptr)
  ∨ (cap_ v ≠ 0 ∧ ∃ d, pos = slot d ∧ d ≤ size_ v).
Proof.
  intros Hwf Hpos. destruct (N.eq_dec (cap_ v) 0) as [Hcap|Hcap].
  - left. split; [done|]. destruct (begin_end_null v Hcap) as [Hb He].
    rewrite Hb in Hpos. by destruct pos.
  - right. split; [done|]. rewrite wf_begin, wf_end in Hpos by done.
    destruct pos as [|d]; [done|]. exists d. split; [done|].
    apply andb_true_iff in Hpos as [_ Hd]. by apply N.leb_le in Hd.
Qed.

Lemma copy_backward_here_up asg v d :
  transfers asg → wf v → d ≤ size_ v → size_ v < cap_ v →
  ∃ buf',
    copy_backward_here asg (slot d) (slot (size_ v)) (slot (size_ v + 1)) v
    = Ok tt (with_items buf' v)
    ∧ length buf' = length (items_ v)
    ∧ (∀ k, k ≠ N.to_nat d → buf' !! k =
            if decide (N.to_nat d < k ≤ N.to_nat (size_ v))%nat
            then items_ v !! (k - 1)%nat else items_ v !! k).
Proof.
  intros Hasg (Hl & Hs & Hc) Hd Hlt.
  destruct (copy_backward_within_up asg (N.to_nat (size_ v - d)) Hasg
              (items_ v) (N.to_nat d)) as (buf' & Hcb & Hlen & Hb); [lia|].
  exists buf'. split_and!; [|done|].
  - unfold copy_backward_here, std_copy_backward_within, iter_range. mrun.
    simpl. destruct (N.leb_spec d (size_ v)); [|lia]. simpl.
    replace (N.to_nat (size_ v + 1))
      with (S (N.to_nat d + N.to_nat (size_ v - d))) by lia.
    by rewrite Hcb.
  - intros k Hk. rewrite Hb by done. cases.
Qed.

Lemma Insert_room pos value v :
  wf v → iter_le (begin v) pos && iter_le pos (end_ v) = true →
  size_ v < cap_ v →
  ∃ items',
    Insert pos (ext value) v
    = Ok (slot (iter_offset pos))
         {| items_ := items'; size_ := size_ v + 1; cap_ := cap_ v |}
    ∧ length items' = length (items_ v)
    ∧ (∀ k, (k ≤ N.to_nat (size_ v))%nat → items' !! k =
            if decide (k < N.to_nat (iter_offset pos))%nat then items_ v !! k
            else if decide (k = N.to_nat (iter_offset pos)) then Some value
            else items_ v !! (k - 1)%nat).
Proof.
  intros Hwf Hpos Hlt.
  destruct (valid_insert_position v pos Hwf Hpos)
    as [[Hcap _]|(Hcap & d & -> & Hd)]; [lia|].
  destruct (copy_backward_here_up copy_assign v d) as (buf' & Hcb & Hlen & Hb);
    [apply copy_assign_transfers|done..|].
  exists (<[N.to_nat d := value]> buf'). pose proof Hwf as (Hl & Hs & Hc).
  split_and!.
  - unfold Insert, incr_size. mrun. rewrite Hpos.
    destruct (N.eqb_spec (cap_ v) 0); [done|].
    unfold cbegin, cend. fold (begin v) (end_ v).
    rewrite wf_begin, wf_end by done. simpl.
    destruct (N.leb_spec 0 d); [|lia]. simpl. rewrite N.sub_0_r.
    destruct (N.ltb_spec (size_ v) (cap_ v)); [|lia].
    rewrite Hcb. destruct (lookup_lt_is_Some_2 buf' (N.to_nat d)) as [x Hx]; [lia|].
    erewrite assign_at_ok by exact Hx. simpl.
    rewrite wrap_small by lia.
    by rewrite slot_addr_block by (rewrite length_insert; lia).
  - by rewrite length_insert.
  - intros k Hk. simpl. lookups. destruct (decide (k = N.to_nat d)) as [->|Hne].
    + cases.
    + rewrite Hb by done. cases.
Qed.

Lemma Insert_empty pos value v :
  wf v → iter_le (begin v) pos && iter_le pos (end_ v) = true →
  cap_ v = 0 →
  Insert pos (ext value) v
  = Ok (slot 0) {| items_ := [value]; size_ := 1; cap_ := 1 |}.
Proof.
  intros Hwf Hpos Hcap. unfold Insert. mrun. rewrite Hpos.
  destruct (N.eqb_spec (cap_ v) 0); [|done].
  by rewrite PushBack_empty.
Qed.

Lemma Insert_grow pos value v :
  wf v → iter_le (begin v) pos && iter_le pos (end_ v) = true →
  size_ v = cap_ v → cap_ v ≠ 0 → 2 * cap_ v ≤ max_alloc →
  Insert pos (ext value) v
  = Ok (slot (iter_offset pos))
       {| items_ := take (N.to_nat (iter_offset pos)) (items_ v)
                    ++ value :: drop (N.to_nat (iter_offset pos)) (items_ v)
                    ++ replicate (N.to_nat (cap_ v) - 1) T_default;
          size_ := size_ v + 1; cap_ := 2 * cap_ v |}.
Proof.
  intros Hwf Hpos Hfull Hcap Hmax.
  destruct (valid_insert_position v pos Hwf Hpos)
    as [[Hcap0 _]|(_ & d & -> & Hd)]; [lia|].
  assert (wrap (cap_ v * 2) = 2 * cap_ v) as Hw by (rewrite wrap_small; lia).
  pose proof Hwf as (Hl & Hs & Hc).
  unfold Insert, incr_size, swap_items, ptrdiff_succ. mrun. rewrite Hpos.
  destruct (N.eqb_spec (cap_ v) 0); [done|].
  unfold cbegin, cend. fold (begin v) (end_ v).
  rewrite wf_begin, wf_end by done. simpl.
  destruct (N.leb_spec 0 d); [|lia]. simpl. rewrite N.sub_0_r.
  destruct (N.ltb_spec (size_ v) (cap_ v)); [lia|].
  rewrite Hw, SimpleVector_sized_ok by lia.
  set (tmp := {| items_ := replicate _ _ |}).
  assert (wf tmp) as Htmp by (apply wf_sized; lia).
  assert (cap_ tmp = 2 * cap_ v) as Htc by done.
  assert (size_ tmp = 2 * cap_ v) as Hts by done.
  assert (items_ tmp = replicate (N.to_nat (2 * cap_ v)) T_default) as Hti by done.
  assert (length (items_ tmp) = N.to_nat (2 * cap_ v)) as Htl
    by (rewrite Hti; apply length_replicate).
  clearbody tmp.
  rewrite (wf_begin tmp) by first [exact Htmp|lia].
  destruct (copy_range_into copy_assign (slot 0) (slot d) tmp (slot 0) v
              0%nat (N.to_nat d) 0%nat)
    as (src1 & dst1 & -> & Hls1 & Hld1 & Hsrc1 & Hdst1);
    [apply copy_assign_transfers| |done|lia|lia|].
  { unfold iter_range. simpl. destruct (N.leb_spec 0 d); [|lia].
    simpl. by rewrite N.sub_0_r. }
  rewrite operator_index_ok by (simpl; lia).
  destruct (lookup_lt_is_Some_2 dst1 (N.to_nat d)) as [x Hx]; [lia|].
  erewrite assign_at_ok by exact Hx.
  destruct (N.leb_spec PTRDIFF_MAX d); [unfold PTRDIFF_MAX in *; lia|].
  rewrite operator_index_ok by (simpl; lia).
  rewrite slot_addr_block by (simpl; rewrite length_insert; lia).
  destruct (copy_range_into copy_assign (slot d) (slot (size_ v))
              (with_items (<[N.to_nat d:=value]> (items_ (with_items dst1 tmp)))
                 (with_items dst1 tmp))
              (slot (d + 1)) (with_items src1 v)
              (N.to_nat d) (N.to_nat (size_ v - d)) (N.to_nat (d + 1)))
    as (src2 & dst2 & -> & Hls2 & Hld2 & Hsrc2 & Hdst2);
    [apply copy_assign_transfers| |done|simpl; lia
    |simpl; rewrite length_insert; lia|].
  { unfold iter_range. simpl. destruct (N.leb_spec d (size_ v)); [|lia]. done. }
  simpl in *. rewrite length_insert in Hld2. rewrite Hw, wrap_small by lia.
  rewrite slot_addr_block by lia. f_equal.
  unfold with_size, with_cap, with_items. simpl. f_equal.
  apply list_eq. intros k. rewrite Hdst2.
  rewrite list_lookup_insert, Hld1, Hdst1, Hti.
  case_decide as Hk.
  - rewrite Hsrc1 by lia. lookups. cases.
  - lookups. cases.
Qed.

(** *** PopBack and Erase *)

Lemma wrap_pred n : 0 < n < 2 ^ 64 → wrap (n + (2 ^ 64 - 1)) = n - 1.
Proof using Type. clear max_alloc_range.
  intros Hn. unfold wrap.
  replace (n + (2 ^ 64 - 1)) with ((n - 1) + 1 * 2 ^ 64) by lia.
  rewrite N.Div0.mod_add. apply N.mod_small. lia.
Qed.

Lemma PopBack_ok v :
  wf v → size_ v ≠ 0 →
  PopBack v = Ok tt {| items_ := items_ v; size_ := size_ v - 1; cap_ := cap_ v |}.
Proof.
  intros (Hl & Hs & Hc) Hne. unfold PopBack, decr_size, IsEmpty. mrun.
  destruct (N.eqb_spec (size_ v) 0); [done|]. simpl.
  unfold with_size. by rewrite wrap_pred by lia.
Qed.

(** The positions [Erase] accepts. *)
Lemma valid_erase_position v pos :
  wf v → iter_le (begin v) pos && iter_lt pos (end_ v) = true →
  cap_ v ≠ 0 ∧ ∃ d, pos = slot d ∧ d < size_ v.
Proof.
  intros Hwf Hpos. destruct (N.eq_dec (cap_ v) 0) as [Hcap|Hcap].
  - destruct (begin_end_null v Hcap) as [Hb He].
    rewrite Hb, He in Hpos. by destruct pos.
  - split; [done|]. rewrite wf_begin, wf_end in Hpos by done.
    destruct pos as [|d]; [done|]. exists d. split; [done|].
    apply andb_true_iff in Hpos as [_ Hd]. by apply N.ltb_lt in Hd.
Qed.

Lemma Erase_ok pos v :
  wf v → iter_le (begin v) pos && iter_lt pos (end_ v) = true →
  ∃ items',
    Erase pos v
    = Ok (slot (iter_offset pos))
         {| items_ := items'; size_ := size_ v - 1; cap_ := cap_ v |}
    ∧ length items' = length (items_ v)
    ∧ (∀ k, (k < N.to_nat (size_ v) - 1)%nat → items' !! k =
            if decide (k < N.to_nat (iter_offset pos))%nat then items_ v !! k
            else items_ v !! S k).
Proof.
  intros Hwf Hpos.
  destruct (valid_erase_position v pos Hwf Hpos) as (Hcap & d & -> & Hd).
  pose proof Hwf as (Hl & Hs & Hc).
  destruct (copy_within_down move_assign (N.to_nat (size_ v - (d + 1)))
              move_assign_transfers (items_ v) (N.to_nat d))
    as (buf' & Hcw & Hlen & Hb); [lia|].
  exists buf'. split_and!; [|done|].
  - unfold Erase, decr_size, copy_here, std_copy_within, iter_range. mrun.
    rewrite Hpos. rewrite wf_begin, wf_end by done. simpl.
    destruct (N.leb_spec 0 d); [|lia]. simpl.
    rewrite N.sub_0_r, wf_slot_addr by done. simpl.
    destruct (N.leb_spec (d + 1) (size_ v)); [|lia]. simpl.
    replace (N.to_nat (d + 1)) with (S (N.to_nat d)) by lia.
    rewrite Hcw. simpl. rewrite wrap_pred by lia.
    by rewrite slot_addr_block by lia.
  - intros k Hk. simpl. rewrite Hb by lia. cases.
Qed.

(** *** Resize *)

Lemma Resize_loop_spec k : ∀ i n v,
  (N.to_nat i + k ≤ length (items_ v))%nat → i + N.of_nat k < 2 ^ 64 →
  ∃ items',
    Resize_loop k i n v = Ok tt (with_items items' v)
    ∧ length items' = length (items_ v)
    ∧ (∀ j, ¬ (N.to_nat i ≤ j < N.to_nat i + k)%nat →
            items' !! j = items_ v !! j)
    ∧ ((0 < k)%nat → items' !! N.to_nat i = Some n)
    ∧ ((∀ d, T_moved d n = n) →
       ∀ j, (N.to_nat i ≤ j < N.to_nat i + k)%nat → items' !! j = Some n).
Proof.
  induction k as [|k IH]; intros i n v Hlen Hi.
  - exists (items_ v). rewrite with_items_id.
    split_and!; try done; intros; lia.
  - destruct (lookup_lt_is_Some_2 (items_ v) (N.to_nat i)) as [d Hd]; [lia|].
    cbn [Resize_loop]. mrun. rewrite (move_at_ok _ _ _ _ Hd).
    rewrite wrap_small by lia.
    destruct (IH (i + 1) (T_moved d n)
                (with_items (<[N.to_nat i:=n]> (items_ v)) v))
      as (items' & -> & Hl & Hout & _ & Hin);
      [simpl; rewrite length_insert; lia|lia|].
    simpl in *. rewrite length_insert in Hl.
    exists items'. split_and!; try done.
    + intros j Hj. rewrite Hout by lia. apply list_lookup_insert_ne. lia.
    + intros _. rewrite Hout by lia. apply list_lookup_insert_eq. lia.
    + intros Hst j Hj. destruct (decide (j = N.to_nat i)) as [->|Hne].
      * rewrite Hout by lia. apply list_lookup_insert_eq. lia.
      * rewrite <- (Hst d). apply Hin; [|lia].
        intros d'. by rewrite !Hst.
Qed.

Lemma Resize_shrink new_size v :
  new_size < size_ v →
  Resize new_size v
  = Ok tt {| items_ := items_ v; size_ := new_size; cap_ := cap_ v |}.
Proof.
  intros Hlt. unfold Resize. mrun.
  by destruct (N.ltb_spec new_size (size_ v)); [|lia].
Qed.

Lemma Resize_within new_size v :
  wf v → size_ v ≤ new_size ≤ cap_ v →
  ∃ items',
    Resize new_size v
    = Ok tt {| items_ := items'; size_ := new_size; cap_ := cap_ v |}
    ∧ length items' = length (items_ v)
    ∧ (∀ j, (j < N.to_nat (size_ v))%nat → items' !! j = items_ v !! j)
    ∧ (size_ v < new_size → items' !! N.to_nat (size_ v) = Some T_default)
    ∧ ((∀ d, T_moved d T_default = T_default) →
       ∀ j, (N.to_nat (size_ v) ≤ j < N.to_nat new_size)%nat →
            items' !! j = Some T_default).
Proof.
  intros (Hl & Hs & Hc) Hn.
  destruct (Resize_loop_spec (N.to_nat (new_size - size_ v)) (size_ v)
              T_default v) as (items' & Hr & Hlen & Hout & Hfst & Hin);
    [lia..|].
  exists items'. split_and!; try done.
  - unfold Resize. mrun.
    destruct (N.ltb_spec new_size (size_ v)); [lia|].
    destruct (N.leb_spec new_size (cap_ v)); [|lia].
    by rewrite Hr.
  - intros j Hj. apply Hout. lia.
  - intros Hlt. apply Hfst. lia.
  - intros Hst j Hj. apply Hin; [done|lia].
Qed.

Lemma Resize_grow new_size v :
  wf v → cap_ v < new_size → N.max new_size (2 * cap_ v) ≤ max_alloc →
  Resize new_size v
  = Ok tt {| items_ := elems v ++ replicate
                         (N.to_nat (N.max new_size (2 * cap_ v) - size_ v))
                         T_default;
             size_ := new_size; cap_ := N.max new_size (2 * cap_ v) |}.
Proof.
  intros Hwf Hlt Hmax. pose proof Hwf as (Hl & Hs & Hc).
  assert (wrap (cap_ v * 2) = 2 * cap_ v) as Hw by (rewrite wrap_small; lia).
  unfold Resize, swap_items. mrun.
  destruct (N.ltb_spec new_size (size_ v)); [lia|].
  destruct (N.leb_spec new_size (cap_ v)); [lia|].
  destruct (N.ltb_spec (cap_ v) new_size); [|lia].
  rewrite Hw, SimpleVector_sized_ok by lia.
  set (tmp := {| items_ := replicate _ _ |}).
  destruct (copy_all_into move_assign tmp v) as (src' & -> & Hsrc);
    [apply move_assign_transfers|done|by apply wf_sized|simpl; lia|].
  simpl. rewrite Hw. unfold with_size, with_cap, with_items. simpl.
  by rewrite drop_replicate, <- N2Nat.inj_sub.
Qed.

Lemma Resize_throw new_size v :
  wf v → cap_ v < new_size → max_alloc < N.max new_size (2 * cap_ v) →
  Resize new_size v = Throw bad_alloc v.
Proof.
  intros (Hl & Hs & Hc) Hlt Hmax.
  assert (wrap (cap_ v * 2) = 2 * cap_ v) as Hw by (rewrite wrap_small; lia).
  unfold Resize. mrun.
  destruct (N.ltb_spec new_size (size_ v)); [lia|].
  destruct (N.leb_spec new_size (cap_ v)); [lia|].
  destruct (N.ltb_spec (cap_ v) new_size); [|lia].
  by rewrite Hw, SimpleVector_sized_throw.
Qed.

(** *** Constructors *)

Lemma wf_init : wf init.
Proof. split_and!; simpl; lia. Qed.

Lemma SimpleVector_fill_ok size value :
  size ≤ max_alloc →
  SimpleVector_fill size value init
  = Ok tt {| items_ := replicate (N.to_nat size) value;
             size_ := size; cap_ := size |}.
Proof.
  intros Hmax. unfold SimpleVector_fill, swap_items. mrun.
  destruct (N.eq_dec size 0) as [->|Hne]; [done|].
  rewrite SimpleVector_sized_ok by done.
  set (tmp := {| items_ := replicate _ _ |}).
  assert (wf tmp) as Htmp by by apply wf_sized.
  unfold std_fill. rewrite (wf_range tmp Htmp). simpl.
  destruct (fill_loop_spec (N.to_nat size) value
              (replicate (N.to_nat size) T_default) 0)
    as (buf' & -> & Hlen & Hb); [lookups; lia|].
  simpl. unfold with_size, with_cap, with_items. simpl. do 2 f_equal.
  apply list_eq. intros k. rewrite Hb. lookups. cases.
Qed.

Lemma SimpleVector_fill_throw size value :
  max_alloc < size → SimpleVector_fill size value init = Throw bad_alloc init.
Proof.
  intros Hmax. unfold SimpleVector_fill. mrun.
  by rewrite SimpleVector_sized_throw.
Qed.

Lemma SimpleVector_reserve_ok res :
  res ≤ max_alloc →
  SimpleVector_reserve res init
  = Ok tt {| items_ := replicate (N.to_nat res) T_default;
             size_ := 0; cap_ := res |}.
Proof.
  intros Hmax. unfold SimpleVector_reserve, swap. mrun.
  destruct (N.eq_dec res 0) as [->|Hne]; [done|].
  by rewrite SimpleVector_sized_ok by done.
Qed.

Lemma SimpleVector_reserve_throw res :
  max_alloc < res → SimpleVector_reserve res init = Throw bad_alloc init.
Proof.
  intros Hmax. unfold SimpleVector_reserve. mrun.
  by rewrite SimpleVector_sized_throw.
Qed.

Lemma Create_loop_spec src : ∀ i tmp,
  (N.to_nat i + length src ≤ length (items_ tmp))%nat →
  i + N.of_nat (length src) ≤ size_ tmp →
  i + N.of_nat (length src) ≤ INT_MAX →
  ∃ items',
    Create_loop src i tmp = Ok tt (with_items items' tmp)
    ∧ length items' = length (items_ tmp)
    ∧ (∀ k, items' !! k =
            if decide (N.to_nat i ≤ k < N.to_nat i + length src)%nat
            then src !! (k - N.to_nat i)%nat else items_ tmp !! k).
Proof.
  induction src as [|x src IH]; intros i tmp Hlen Hsz Hint.
  - exists (items_ tmp). rewrite with_items_id. split_and!; try done.
    intros k. simpl. cases.
  - simpl in Hlen, Hsz, Hint.
    destruct (lookup_lt_is_Some_2 (items_ tmp) (N.to_nat i)) as [d Hd]; [lia|].
    cbn [Create_loop]. mrun. rewrite operator_index_ok by lia.
    rewrite (assign_at_ok _ _ _ _ Hd).
    destruct (N.leb_spec INT_MAX i); [lia|].
    destruct (IH (i + 1) (with_items (<[N.to_nat i:=x]> (items_ tmp)) tmp))
      as (items' & -> & Hl & Hb); [simpl; rewrite length_insert; lia|simpl; lia..|].
    simpl in *. rewrite length_insert in Hl.
    exists items'. split_and!; try done.
    intros k. rewrite Hb. lookups. cases.
Qed.

Lemma Create_ok src size this :
  length src = N.to_nat size → size ≤ INT_MAX → size ≤ max_alloc →
  Create src size this
  = Ok tt {| items_ := src; size_ := size; cap_ := size |}.
Proof.
  intros Hlen Hint Hmax. unfold Create, swap. mrun.
  destruct (N.eq_dec size 0) as [->|Hne].
  - destruct src; [done|simpl in Hlen; lia].
  - rewrite SimpleVector_sized_ok by done.
    set (tmp := {| items_ := replicate _ _ |}).
    destruct (Create_loop_spec src 0 tmp) as (items' & -> & Hl & Hb);
      [simpl; lookups; lia|simpl; lia|lia|].
    simpl. do 2 f_equal. apply list_eq. intros k. rewrite Hb. simpl.
    lookups. cases.
Qed.

Lemma Create_throw src size this :
  max_alloc < size → Create src size this = Throw bad_alloc this.
Proof.
  intros Hmax. unfold Create. mrun. by rewrite SimpleVector_sized_throw.
Qed.

Lemma SimpleVector_list_ok il this :
  N.of_nat (length il) ≤ INT_MAX → N.of_nat (length il) ≤ max_alloc →
  SimpleVector_list il this
  = Ok tt {| items_ := il; size_ := N.of_nat (length il);
             cap_ := N.of_nat (length il) |}.
Proof.
  intros Hint Hmax. unfold SimpleVector_list.
  rewrite wrap_small by (unfold INT_MAX in Hint; lia).
  apply Create_ok; [lia|done..].
Qed.

Lemma SimpleVector_list_throw il this :
  N.of_nat (length il) ≤ INT_MAX → max_alloc < N.of_nat (length il) →
  SimpleVector_list il this = Throw bad_alloc this.
Proof.
  intros Hint Hmax. unfold SimpleVector_list.
  rewrite wrap_small by (unfold INT_MAX in Hint; lia). by apply Create_throw.
Qed.

Lemma read_range_elems v :
  wf v →
  read_range (items_ v) (begin_const v) (end_const v) = Some (elems v).
Proof.
  intros Hwf. unfold read_range, begin_const, end_const.
  fold (begin v) (end_ v). rewrite wf_range by done. simpl.
  destruct Hwf as (Hl & Hs & Hc). by rewrite bool_decide_true by lia.
Qed.

Lemma SimpleVector_copy_ok other this :
  wf other → size_ other ≤ INT_MAX →
  SimpleVector_copy other this
  = Ok tt {| items_ := elems other; size_ := size_ other;
             cap_ := size_ other |}.
Proof.
  intros Hwf Hint. unfold SimpleVector_copy, GetSize. mrun.
  rewrite read_range_elems by done. simpl.
  destruct Hwf as (Hl & Hs & Hc).
  apply Create_ok; [unfold elems; rewrite length_take; lia|done|lia].
Qed.

(** *** Comparison and copy assignment *)

Lemma operator_eq_spec a b :
  wf a → wf b →
  ∃ e, operator_eq a b = Some e
    ∧ (e = true ↔
       size_ a = size_ b
       ∧ ∀ k x y, elems a !! k = Some x → elems b !! k = Some y →
                  T_eqb x y = true).
Proof.
  intros Ha Hb. unfold operator_eq, GetSize.
  destruct (N.eqb_spec (size_ a) (size_ b)) as [Heq|Hne]; simpl.
  - unfold begin_const, end_const. fold (begin a) (end_ a) (begin b).
    rewrite wf_range by done. simpl.
    pose proof Ha as (Hla & Hsa & Hca). pose proof Hb as (Hlb & Hsb & Hcb).
    rewrite (wf_access_start b) by first [done|lia]. simpl.
    destruct (equal_loop_total (N.to_nat (size_ a)) (items_ a) 0 (items_ b) 0)
      as (e & -> & He); [lia..|].
    exists e. split; [done|]. rewrite He. unfold elems. rewrite <- Heq.
    split.
    + intros H. split; [done|]. intros k x y Hx Hy.
      rewrite lookup_take in Hx, Hy. case_decide; [|done]. by apply (H k).
    + intros [_ H] k x y Hk Hx Hy. apply (H k); by rewrite lookup_take_lt.
  - exists false. split; [done|]. split; [done|]. by intros [? _].
Qed.

Lemma operator_eq_same_elems a b :
  wf a → wf b → (∀ x, T_eqb x x = true) →
  size_ a = size_ b → elems a = elems b →
  operator_eq a b = Some true.
Proof.
  intros Ha Hb Hrefl Hs He.
  destruct (operator_eq_spec a b Ha Hb) as (e & -> & Hiff).
  f_equal. apply Hiff. split; [done|]. intros k x y Hx Hy.
  rewrite He in Hx. by simplify_eq.
Qed.

Lemma operator_assign_same rhs this :
  operator_eq this rhs = Some true → operator_assign rhs this = Ok tt this.
Proof. intros He. unfold operator_assign. mrun. by rewrite He. Qed.

Lemma operator_assign_copy rhs this :
  operator_eq this rhs = Some false → wf rhs → size_ rhs ≤ INT_MAX →
  operator_assign rhs this
  = Ok tt {| items_ := elems rhs; size_ := size_ rhs; cap_ := size_ rhs |}.
Proof.
  intros He Hwf Hint. unfold operator_assign, swap. mrun. rewrite He. simpl.
  by rewrite SimpleVector_copy_ok.
Qed.

Lemma wf_copy v :
  wf v → wf {| items_ := elems v; size_ := size_ v; cap_ := size_ v |}.
Proof.
  intros (Hl & Hs & Hc). unfold elems.
  split_and!; simpl; [rewrite length_take|..]; lia.
Qed.

Lemma elems_copy v :
  wf v → elems {| items_ := elems v; size_ := size_ v; cap_ := size_ v |}
         = elems v.
Proof. intros. unfold elems. simpl. by rewrite take_take, Nat.min_id. Qed.

(** *** Operations on two objects *)

Lemma record_eta v :
  {| items_ := items_ v; size_ := size_ v; cap_ := cap_ v |} = v.
Proof using Type. clear max_alloc_range. by destruct v. Qed.

Ltac store_run :=
  unfold deref, update, method, declare; mrun; unfold deref; mrun;
  repeat (simplify_map_eq; mrun).

Lemma swap_ref_ok this other a b (σ : gmap nat SimpleVector) :
  σ !! this = Some a → σ !! other = Some b →
  ∃ σ', swap_ref this other σ = Ok tt σ'
    ∧ σ' !! this = Some b ∧ σ' !! other = Some a
    ∧ (∀ c, c ≠ this → c ≠ other → σ' !! c = σ !! c).
Proof using Type. clear max_alloc_range.
  intros Ha Hb. unfold swap_ref. destruct (decide (this = other)) as [->|Hne].
  - store_run. eexists. split; [done|].
    unfold with_items, with_size, with_cap. simpl. rewrite ?record_eta.
    split_and!; [by simplify_map_eq..|]. intros c ??. by simplify_map_eq.
  - store_run. eexists. split; [done|].
    unfold with_items, with_size, with_cap. simpl. rewrite ?record_eta.
    split_and!; [by simplify_map_eq..|]. intros c ??. by simplify_map_eq.
Qed.

Lemma move_assign_ref_self this a (σ : gmap nat SimpleVector) :
  σ !! this = Some a → move_assign_ref this this σ = Ok tt σ.
Proof using Type. clear max_alloc_range.
  intros Ha. unfold move_assign_ref. store_run.
  by rewrite bool_decide_true by done.
Qed.

Lemma move_assign_ref_other this rhs a s (σ : gmap nat SimpleVector) :
  this ≠ rhs → σ !! this = Some a → σ !! rhs = Some s →
  move_assign_ref this rhs σ = Ok tt (<[this := s]> (<[rhs := init]> σ)).
Proof using Type. clear max_alloc_range.
  intros Hne Ha Hs. unfold move_assign_ref. store_run.
  rewrite bool_decide_false by done. store_run.
  unfold with_items, with_size, with_cap. simpl. rewrite ?record_eta.
  f_equal. apply map_eq. intros c.
  destruct (decide (c = this)) as [->|]; [by simplify_map_eq|].
  destruct (decide (c = rhs)) as [->|]; by simplify_map_eq.
Qed.

Lemma declare_move_ok dst other s (σ : gmap nat SimpleVector) :
  σ !! dst = None → σ !! other = Some s →
  declare_move dst other σ = Ok tt (<[other := init]> (<[dst := s]> σ)).
Proof using Type. clear max_alloc_range.
  intros Hd Hs. unfold declare_move, SimpleVector_move. store_run.
  by rewrite ?record_eta.
Qed.

Lemma method_ok {A} this (m : M SimpleVector A) v r v'
    (σ : gmap nat SimpleVector) :
  σ !! this = Some v → m v = Ok r v' →
  method this m σ = Ok r (<[this := v']> σ).
Proof. intros Hv Hm. unfold method. by rewrite Hv, Hm. Qed.

Lemma method_throw {A} this (m : M SimpleVector A) v e v'
    (σ : gmap nat SimpleVector) :
  σ !! this = Some v → m v = Throw e v' →
  method this m σ = Throw e (<[this := v']> σ).
Proof. intros Hv Hm. unfold method. by rewrite Hv, Hm. Qed.

(** *** Reserve *)

Lemma Reserve_noop new_capacity v :
  new_capacity ≤ cap_ v → Reserve new_capacity v = Ok tt v.
Proof.
  intros Hle. unfold Reserve. mrun.
  by destruct (N.leb_spec new_capacity (cap_ v)); [|lia].
Qed.

Lemma Reserve_grow new_capacity v :
  wf v → cap_ v < new_capacity → new_capacity ≤ max_alloc →
  Reserve new_capacity v
  = Ok tt {| items_ := elems v ++ replicate
                         (N.to_nat (new_capacity - size_ v)) T_default;
             size_ := size_ v; cap_ := new_capacity |}.
Proof.
  intros Hwf Hlt Hmax. pose proof Hwf as (Hl & Hs & Hc).
  unfold Reserve, swap_items. mrun.
  destruct (N.leb_spec new_capacity (cap_ v)); [lia|].
  rewrite SimpleVector_sized_ok by lia.
  set (tmp := {| items_ := replicate _ _ |}).
  destruct (copy_all_into move_assign tmp v) as (src' & -> & Hsrc);
    [apply move_assign_transfers|done|by apply wf_sized|simpl; lia|].
  simpl. unfold with_size, with_cap, with_items. simpl.
  by rewrite drop_replicate, <- N2Nat.inj_sub.
Qed.

Lemma Reserve_throw new_capacity v :
  cap_ v < new_capacity → max_alloc < new_capacity →
  Reserve new_capacity v = Throw bad_alloc v.
Proof.
  intros Hlt Hmax. unfold Reserve. mrun.
  destruct (N.leb_spec new_capacity (cap_ v)); [lia|].
  by rewrite SimpleVector_sized_throw.
Qed.

(** *** Insert, the overload taking an rvalue *)

Lemma Insert_throw pos value v :
  wf v → iter_le (begin v) pos && iter_le pos (end_ v) = true →
  size_ v = cap_ v → cap_ v ≠ 0 → max_alloc < 2 * cap_ v →
  Insert pos value v = Throw bad_alloc v.
Proof.
  intros Hwf Hpos Hfull Hcap Hmax.
  destruct (valid_insert_position v pos Hwf Hpos)
    as [[Hcap0 _]|(_ & d & -> & Hd)]; [lia|].
  pose proof Hwf as (Hl & Hs & Hc).
  assert (wrap (cap_ v * 2) = 2 * cap_ v) as Hw by (rewrite wrap_small; lia).
  unfold Insert. mrun. rewrite Hpos.
  destruct (N.eqb_spec (cap_ v) 0); [done|].
  unfold cbegin. fold (begin v). rewrite wf_begin by done. simpl.
  destruct (N.leb_spec 0 d); [|lia]. simpl.
  destruct (N.ltb_spec (size_ v) (cap_ v)); [lia|].
  by rewrite Hw, SimpleVector_sized_throw.
Qed.

Lemma Insert_move_throw pos value v :
  wf v → iter_le (begin v) pos && iter_le pos (end_ v) = true →
  size_ v = cap_ v → cap_ v ≠ 0 → max_alloc < 2 * cap_ v →
  Insert_move pos value v = Throw bad_alloc v.
Proof.
  intros Hwf Hpos Hfull Hcap Hmax.
  destruct (valid_insert_position v pos Hwf Hpos)
    as [[Hcap0 _]|(_ & d & -> & Hd)]; [lia|].
  pose proof Hwf as (Hl & Hs & Hc).
  assert (wrap (cap_ v * 2) = 2 * cap_ v) as Hw by (rewrite wrap_small; lia).
  unfold Insert_move. mrun. rewrite Hpos.
  destruct (N.eqb_spec (cap_ v) 0); [done|].
  rewrite wf_begin by done. simpl.
  destruct (N.leb_spec 0 d); [|lia]. simpl.
  destruct (N.ltb_spec (size_ v) (cap_ v)); [lia|].
  by rewrite Hw, SimpleVector_sized_throw.
Qed.

Lemma Insert_move_empty pos value v :
  wf v → iter_le (begin v) pos && iter_le pos (end_ v) = true →
  cap_ v = 0 →
  Insert_move pos (ext value) v
  = Ok (slot 0, ext (T_moved T_default value))
       {| items_ := [value]; size_ := 1; cap_ := 1 |}.
Proof.
  intros Hwf Hpos Hcap. unfold Insert_move. mrun. rewrite Hpos.
  destruct (N.eqb_spec (cap_ v) 0); [|done].
  by rewrite PushBack_move_empty.
Qed.

Lemma Insert_move_room pos value v :
  wf v → iter_le (begin v) pos && iter_le pos (end_ v) = true →
  size_ v < cap_ v →
  ∃ items' value',
    Insert_move pos (ext value) v
    = Ok (slot (iter_offset pos), ext value')
         {| items_ := items'; size_ := size_ v + 1; cap_ := cap_ v |}
    ∧ length items' = length (items_ v)
    ∧ (∀ k, (k ≤ N.to_nat (size_ v))%nat → items' !! k =
            if decide (k < N.to_nat (iter_offset pos))%nat then items_ v !! k
            else if decide (k = N.to_nat (iter_offset pos)) then Some value
            else items_ v !! (k - 1)%nat).
Proof.
  intros Hwf Hpos Hlt.
  destruct (valid_insert_position v pos Hwf Hpos)
    as [[Hcap _]|(Hcap & d & -> & Hd)]; [lia|].
  destruct (copy_backward_here_up move_assign v d) as (buf' & Hcb & Hlen & Hb);
    [apply move_assign_transfers|done..|].
  destruct (lookup_lt_is_Some_2 buf' (N.to_nat d)) as [x Hx];
    [destruct Hwf as (? & ? & ?); lia|].
  exists (<[N.to_nat d := value]> buf'), (T_moved x value).
  pose proof Hwf as (Hl & Hs & Hc).
  split_and!.
  - unfold Insert_move, incr_size. mrun. rewrite Hpos.
    destruct (N.eqb_spec (cap_ v) 0); [done|].
    rewrite wf_begin, wf_end by done. simpl.
    destruct (N.leb_spec 0 d); [|lia]. simpl. rewrite N.sub_0_r.
    destruct (N.ltb_spec (size_ v) (cap_ v)); [|lia].
    rewrite Hcb. erewrite move_at_ok by exact Hx. simpl.
    rewrite wrap_small by lia.
    by rewrite slot_addr_block by (rewrite length_insert; lia).
  - by rewrite length_insert.
  - intros k Hk. simpl. lookups. destruct (decide (k = N.to_nat d)) as [->|Hne].
    + cases.
    + rewrite Hb by done. cases.
Qed.

Lemma Insert_move_grow pos value v :
  wf v → iter_le (begin v) pos && iter_le pos (end_ v) = true →
  size_ v = cap_ v → cap_ v ≠ 0 → 2 * cap_ v ≤ max_alloc →
  Insert_move pos (ext value) v
  = Ok (slot (iter_offset pos), ext (T_moved T_default value))
       {| items_ := take (N.to_nat (iter_offset pos)) (items_ v)
                    ++ value :: drop (N.to_nat (iter_offset pos)) (items_ v)
                    ++ replicate (N.to_nat (cap_ v) - 1) T_default;
          size_ := size_ v + 1; cap_ := 2 * cap_ v |}.
Proof.
  intros Hwf Hpos Hfull Hcap Hmax.
  destruct (valid_insert_position v pos Hwf Hpos)
    as [[Hcap0 _]|(_ & d & -> & Hd)]; [lia|].
  assert (wrap (cap_ v * 2) = 2 * cap_ v) as Hw by (rewrite wrap_small; lia).
  pose proof Hwf as (Hl & Hs & Hc).
  unfold Insert_move, incr_size, swap_items, ptrdiff_succ. mrun. rewrite Hpos.
  destruct (N.eqb_spec (cap_ v) 0); [done|].
  rewrite wf_begin, wf_end by done. simpl.
  destruct (N.leb_spec 0 d); [|lia]. simpl. rewrite N.sub_0_r.
  destruct (N.ltb_spec (size_ v) (cap_ v)); [lia|].
  rewrite Hw, SimpleVector_sized_ok by lia.
  set (tmp := {| items_ := replicate _ _ |}).
  assert (wf tmp) as Htmp by (apply wf_sized; lia).
  assert (cap_ tmp = 2 * cap_ v) as Htc by done.
  assert (size_ tmp = 2 * cap_ v) as Hts by done.
  assert (items_ tmp = replicate (N.to_nat (2 * cap_ v)) T_default) as Hti by done.
  assert (length (items_ tmp) = N.to_nat (2 * cap_ v)) as Htl
    by (rewrite Hti; apply length_replicate).
  clearbody tmp.
  rewrite (wf_begin tmp) by first [exact Htmp|lia].
  destruct (copy_range_into move_assign (slot 0) (slot d) tmp (slot 0) v
              0%nat (N.to_nat d) 0%nat)
    as (src1 & dst1 & -> & Hls1 & Hld1 & Hsrc1 & Hdst1);
    [apply move_assign_transfers| |done|lia|lia|].
  { unfold iter_range. simpl. destruct (N.leb_spec 0 d); [|lia].
    simpl. by rewrite N.sub_0_r. }
  rewrite operator_index_ok by (simpl; lia).
  assert (dst1 !! N.to_nat d = Some T_default) as Hx.
  { rewrite Hdst1, Hti. lookups. cases. }
  erewrite move_at_ok by exact Hx.
  destruct (N.leb_spec PTRDIFF_MAX d); [unfold PTRDIFF_MAX in *; lia|].
  rewrite operator_index_ok by (simpl; lia).
  rewrite slot_addr_block by (simpl; rewrite length_insert; lia).
  destruct (copy_range_into move_assign (slot d) (slot (size_ v))
              (with_items (<[N.to_nat d:=value]> (items_ (with_items dst1 tmp)))
                 (with_items dst1 tmp))
              (slot (d + 1)) (with_items src1 v)
              (N.to_nat d) (N.to_nat (size_ v - d)) (N.to_nat (d + 1)))
    as (src2 & dst2 & -> & Hls2 & Hld2 & Hsrc2 & Hdst2);
    [apply move_assign_transfers| |done|simpl; lia
    |simpl; rewrite length_insert; lia|].
  { unfold iter_range. simpl. destruct (N.leb_spec d (size_ v)); [|lia]. done. }
  simpl in *. rewrite length_insert in Hld2. rewrite Hw, wrap_small by lia.
  rewrite slot_addr_block by lia. f_equal.
  unfold with_size, with_cap, with_items. simpl. f_equal.
  apply list_eq. intros k. rewrite Hdst2.
  rewrite list_lookup_insert, Hld1, Hdst1, Hti.
  case_decide as Hk.
  - rewrite Hsrc1 by lia. lookups. cases.
  - lookups. cases.
Qed.

(** *** Every operation ends in well-formed containers *)

Lemma wf_invariant v : wf v → invariant v.
Proof. intros (Hl & Hs & Hc). unfold invariant. lia. Qed.

Lemma ends_wf_Ok {A} (a : A) v : wf v → ends_wf (Ok a v).
Proof. intros. by exists v. Qed.

Lemma ends_wf_Throw {A} e v : wf v → ends_wf (@Throw _ A e v).
Proof. intros. by exists v. Qed.

Lemma final_state_seq_ret {S A} (m : M S A) (s : S) :
  final_state ((m ;; mret tt) s) = final_state (m s).
Proof. unfold mbind, M_bind. by destruct (m s). Qed.

Lemma method_ends {A} this (m : M SimpleVector A) v
    (σ : gmap nat SimpleVector) :
  σ !! this = Some v → map_Forall (λ _, wf) σ → ends_wf (m v) →
  ∃ σ', final_state (method this m σ) = Some σ' ∧ map_Forall (λ _, wf) σ'.
Proof.
  intros Hv Hσ (v' & Hf & Hwf). unfold method. rewrite Hv.
  destruct (m v); simplify_eq/=; eexists; (split; [done|]);
    by apply map_Forall_insert_2.
Qed.

Lemma declare_ends {A} dst (c : M SimpleVector A)
    (σ : gmap nat SimpleVector) :
  σ !! dst = None → map_Forall (λ _, wf) σ →
  (∃ r v', c init = Ok r v' ∧ wf v') ∨ (∃ e v', c init = Throw e v') →
  ∃ σ', final_state (declare dst c σ) = Some σ' ∧ map_Forall (λ _, wf) σ'.
Proof.
  intros Hd Hσ [(r & v' & Hc & Hwf)|(e & v' & Hc)];
    unfold declare; rewrite Hd, Hc; simpl; eexists; (split; [done|]).
  - by apply map_Forall_insert_2.
  - done.
Qed.

Ltac wf_tac :=
  repeat match goal with H : wf _ |- _ => destruct H as (? & ? & ?) end;
  unfold wf; simpl; split_and?; lookups; try lia.

(** *** References to slots of the receiver *)

Lemma keeps_ends_wf {A} v (r : outcome SimpleVector A) :
  wf v → keeps v r → ends_wf r.
Proof using Type. clear max_alloc_range.
  intros Hwf Hk. destruct r as [a v'|e v'| |]; try done.
  - destruct Hk. by exists v'.
  - destruct Hk as [-> _]. by exists v.
Qed.

(** [std::copy] and [std::copy_backward] leave their source as it is. *)
Lemma copy_across_copy_source n : ∀ src i dst j src' dst',
  copy_across copy_assign n src i dst j = Some (src', dst') → src' = src.
Proof using Type. clear max_alloc_range.
  induction n as [|n IH]; intros src i dst j src' dst' H;
    cbn [copy_across] in H.
  - by injection H as <- _.
  - unfold assign_across, copy_assign in H.
    destruct (src !! i) as [s|] eqn:Hs; [|done]. simpl in H.
    destruct (dst !! j) as [d|] eqn:Hd; [|done]. simpl in H.
    apply IH in H. rewrite H. by apply list_insert_id.
Qed.

Lemma copy_into_copy_source first last tmp d_first v tmp' v' :
  copy_into copy_assign first last tmp d_first v = Ok tmp' v' → v' = v.
Proof using Type. clear max_alloc_range.
  unfold copy_into, std_copy. mrun. intros H.
  destruct (iter_range first last) as [[i n]|]; [|done]. simpl in H.
  destruct (access_start n d_first); [|done]. simpl in H.
  destruct (copy_across _ _ _ _ _ _) as [[src' dst']|] eqn:Hc; [|done].
  simpl in H. injection H as _ <-.
  apply copy_across_copy_source in Hc as ->. by destruct v.
Qed.

Lemma copy_backward_within_source n : ∀ buf d buf',
  copy_backward_within copy_assign n buf (d + n) (S (d + n)) = Some buf' →
  buf' !! d = buf !! d.
Proof using Type. clear max_alloc_range.
  induction n as [|n IH]; intros buf d buf' H.
  - rewrite Nat.add_0_r in H. cbn [copy_backward_within] in H.
    by injection H as <-.
  - rewrite Nat.add_succ_r in H. cbn [copy_backward_within] in H.
    unfold assign_within, copy_assign in H.
    destruct (buf !! (d + n)%nat) as [s|] eqn:Hs; [|done]. simpl in H.
    destruct (buf !! S (d + n)) as [x|] eqn:Hx; [|done]. simpl in H.
    apply IH in H. rewrite H. rewrite (list_insert_id _ _ _ Hs).
    lookups. cases.
Qed.

Lemma copy_backward_here_copy v d :
  wf v → d ≤ size_ v → size_ v < cap_ v →
  ∃ buf',
    copy_backward_here copy_assign (slot d) (slot (size_ v))
      (slot (size_ v + 1)) v
    = Ok tt (with_items buf' v)
    ∧ length buf' = length (items_ v)
    ∧ (∀ k, buf' !! k =
            if decide (N.to_nat d < k ≤ N.to_nat (size_ v))%nat
            then items_ v !! (k - 1)%nat else items_ v !! k).
Proof.
  intros (Hl & Hs & Hc) Hd Hlt.
  destruct (copy_backward_within_up copy_assign (N.to_nat (size_ v - d))
              copy_assign_transfers (items_ v) (N.to_nat d))
    as (buf' & Hcb & Hlen & Hb); [lia|].
  exists buf'. split_and!; [|done|].
  - unfold copy_backward_here, std_copy_backward_within, iter_range. mrun.
    simpl. destruct (N.leb_spec d (size_ v)); [|lia]. simpl.
    replace (N.to_nat (size_ v + 1))
      with (S (N.to_nat d + N.to_nat (size_ v - d))) by lia.
    by rewrite Hcb.
  - intros k. destruct (decide (k = N.to_nat d)) as [->|Hk].
    + rewrite (copy_backward_within_source _ _ _ _ Hcb). cases.
    + rewrite Hb by done. cases.
Qed.

Lemma Insert_elem pos i v :
  wf v → iter_le (begin v) pos && iter_le pos (end_ v) = true → i < cap_ v →
  ∃ x, items_ v !! N.to_nat (slot_read pos i v) = Some x
    ∧ Insert pos (elem i) v = Insert pos (ext x) v.
Proof.
  intros Hwf Hpos Hi. pose proof Hwf as (Hl & Hs & Hc).
  destruct (valid_insert_position v pos Hwf Hpos)
    as [[Hcap _]|(Hcap & d & -> & Hd)]; [lia|].
  unfold slot_read. simpl.
  set (j := if decide _ then _ else _).
  destruct (lookup_lt_is_Some_2 (items_ v) (N.to_nat j)) as [x Hx].
  { subst j. case_decide; lia. }
  exists x. split; [done|].
  unfold Insert. mrun. rewrite Hpos.
  destruct (N.eqb_spec (cap_ v) 0); [done|].
  unfold cbegin, cend. fold (begin v) (end_ v).
  rewrite wf_begin, wf_end by done. simpl.
  destruct (N.leb_spec 0 d); [|lia]. simpl. rewrite N.sub_0_r.
  destruct (N.ltb_spec (size_ v) (cap_ v)) as [Hlt|Hge].
  - destruct (copy_backward_here_copy v d) as (buf' & -> & Hlen & Hb);
      [done..|].
    cbn [items_ with_items].
    assert (buf' !! N.to_nat i = Some x) as ->; [|done].
    rewrite Hb, <- Hx. subst j. repeat case_decide; try lia; f_equal; lia.
  - assert (j = i) as Hj by (subst j; case_decide; [lia|done]).
    rewrite Hj in Hx.
    destruct (SimpleVector_sized _ init) as [[] tmp| | |]; try done.
    destruct (copy_into _ _ _ _ _ _) as [tmp' v'| | |] eqn:Hci; try done.
    apply copy_into_copy_source in Hci as ->.
    destruct (operator_index d tmp') as [r tmp''| | |]; try done.
    by rewrite Hx.
Qed.

Lemma keeps_Ok {A} (a : A) v v' : wf v' → cap_ v ≤ cap_ v' → keeps v (Ok a v').
Proof using Type. clear max_alloc_range. by split. Qed.

Lemma assign_across_Some asg src i dst j s d :
  src !! i = Some s → dst !! j = Some d →
  assign_across asg src i dst j
  = Some (<[i := (asg d s).2]> src, <[j := (asg d s).1]> dst).
Proof using Type. clear max_alloc_range.
  intros Hi Hj. unfold assign_across. rewrite Hi, Hj. simpl.
  by destruct (asg d s).
Qed.

(** The next assignment between two slots reads and writes slots that
    exist. *)
Ltac slots_step :=
  lazymatch goal with
  | |- context [assign_across ?asg ?a ?i ?b ?j] =>
      let s := fresh "s" in let Hs := fresh "Hs" in
      let d := fresh "d" in let Hd := fresh "Hd" in
      destruct (lookup_lt_is_Some_2 a i) as [s Hs];
        [simpl; lookups; lia|];
      destruct (lookup_lt_is_Some_2 b j) as [d Hd];
        [simpl; lookups; lia|];
      rewrite (assign_across_Some asg a i b j s d Hs Hd)
  | |- context [assign_within ?asg ?a ?i ?j] =>
      let s := fresh "s" in let Hs := fresh "Hs" in
      let d := fresh "d" in let Hd := fresh "Hd" in
      destruct (lookup_lt_is_Some_2 a i) as [s Hs];
        [simpl; lookups; lia|];
      destruct (lookup_lt_is_Some_2 a j) as [d Hd];
        [simpl; lookups; lia|];
      rewrite (assign_within_Some asg a i j s d Hs Hd)
  end.

Lemma PushBack_move_elem_keeps i v :
  wf v → i < cap_ v → keeps v (PushBack_move (elem i) v).
Proof.
  intros Hwf Hi. pose proof Hwf as (Hl & Hs & Hc).
  destruct (N.lt_ge_cases (size_ v) (cap_ v)) as [Hlt|Hge].
  - unfold PushBack_move, incr_size. mrun.
    destruct (N.ltb_spec (size_ v) (cap_ v)); [|lia].
    destruct (N.eqb_spec i (size_ v)) as [->|Hne].
    + destruct (lookup_lt_is_Some_2 (items_ v) (N.to_nat (size_ v)))
        as [x ->]; [lia|].
      simpl. rewrite wrap_small by lia. first [apply keeps_Ok|split]; [wf_tac|simpl; lia].
    + slots_step. simpl. rewrite wrap_small by lia.
      first [apply keeps_Ok|split]; [wf_tac|simpl; lia].
  - assert (size_ v = cap_ v) as Hfull by lia.
    destruct (N.le_gt_cases (2 * cap_ v) max_alloc) as [Hmax|Hmax];
      [|rewrite PushBack_move_throw by first [done|lia]; done].
    assert (wrap (cap_ v * 2) = 2 * cap_ v) as Hw by (rewrite wrap_small; lia).
    unfold PushBack_move, incr_size, swap_items. mrun.
    destruct (N.ltb_spec (size_ v) (cap_ v)); [lia|].
    destruct (N.eqb_spec (cap_ v) 0); [lia|].
    rewrite Hw, SimpleVector_sized_ok by lia.
    set (tmp := {| items_ := replicate _ _ |}).
    destruct (copy_all_into move_assign tmp v) as (src' & -> & Hsrc);
      [apply move_assign_transfers|done|by apply wf_sized|simpl; lia|].
    rewrite operator_index_ok by (simpl; lia).
    unfold elems. cbn [items_ with_items]. slots_step. simpl.
    rewrite Hw, wrap_small by lia. first [apply keeps_Ok|split]; [wf_tac|simpl; lia].
Qed.

Lemma Insert_move_elem_keeps pos i v :
  wf v → iter_le (begin v) pos && iter_le pos (end_ v) = true → i < cap_ v →
  keeps v (Insert_move pos (elem i) v).
Proof.
  intros Hwf Hpos Hi. pose proof Hwf as (Hl & Hs & Hc).
  destruct (valid_insert_position v pos Hwf Hpos)
    as [[Hcap _]|(Hcap & d & -> & Hd)]; [lia|].
  destruct (N.lt_ge_cases (size_ v) (cap_ v)) as [Hlt|Hge].
  - destruct (copy_backward_here_up move_assign v d)
      as (buf' & Hcb & Hlen & Hb); [apply move_assign_transfers|done..|].
    unfold Insert_move, incr_size. mrun. rewrite Hpos.
    destruct (N.eqb_spec (cap_ v) 0); [done|].
    rewrite wf_begin, wf_end by done. simpl.
    destruct (N.leb_spec 0 d); [|lia]. simpl. rewrite N.sub_0_r.
    destruct (N.ltb_spec (size_ v) (cap_ v)); [|lia].
    rewrite Hcb. cbn [items_ with_items].
    destruct (N.eqb_spec i d) as [->|Hne].
    + destruct (lookup_lt_is_Some_2 buf' (N.to_nat d)) as [x ->]; [lia|].
      simpl. rewrite wrap_small by lia. first [apply keeps_Ok|split]; [wf_tac|simpl; lia].
    + slots_step. simpl. rewrite wrap_small by lia.
      first [apply keeps_Ok|split]; [wf_tac|simpl; lia].
  - assert (size_ v = cap_ v) as Hfull by lia.
    destruct (N.le_gt_cases (2 * cap_ v) max_alloc) as [Hmax|Hmax];
      [|rewrite Insert_move_throw by first [done|lia]; done].
    assert (wrap (cap_ v * 2) = 2 * cap_ v) as Hw by (rewrite wrap_small; lia).
    unfold Insert_move, incr_size, swap_items, ptrdiff_succ. mrun.
    rewrite Hpos.
    destruct (N.eqb_spec (cap_ v) 0); [done|].
    rewrite wf_begin, wf_end by done. simpl.
    destruct (N.leb_spec 0 d); [|lia]. simpl. rewrite N.sub_0_r.
    destruct (N.ltb_spec (size_ v) (cap_ v)); [lia|].
    rewrite Hw, SimpleVector_sized_ok by lia.
    set (tmp := {| items_ := replicate _ _ |}).
    assert (wf tmp) as Htmp by (apply wf_sized; lia).
    assert (cap_ tmp = 2 * cap_ v) as Htc by done.
    assert (size_ tmp = 2 * cap_ v) as Hts by done.
    assert (length (items_ tmp) = N.to_nat (2 * cap_ v)) as Htl
      by apply length_replicate.
    clearbody tmp.
    rewrite (wf_begin tmp) by first [exact Htmp|lia].
    destruct (copy_range_into move_assign (slot 0) (slot d) tmp (slot 0) v
                0%nat (N.to_nat d) 0%nat)
      as (src1 & dst1 & -> & Hls1 & Hld1 & _);
      [apply move_assign_transfers| |done|lia|lia|].
    { unfold iter_range. simpl. destruct (N.leb_spec 0 d); [|lia].
      simpl. by rewrite N.sub_0_r. }
    rewrite operator_index_ok by (simpl; lia).
    cbn [items_ with_items]. slots_step.
    destruct (N.leb_spec PTRDIFF_MAX d); [unfold PTRDIFF_MAX in *; lia|].
    rewrite operator_index_ok by (simpl; lia).
    rewrite slot_addr_block by (simpl; rewrite length_insert; lia).
    match goal with |- context [copy_into _ _ _ ?t _ ?w] =>
      destruct (copy_range_into move_assign (slot d) (slot (size_ v)) t
                  (slot (d + 1)) w
                  (N.to_nat d) (N.to_nat (size_ v - d)) (N.to_nat (d + 1)))
        as (src2 & dst2 & -> & Hls2 & Hld2 & _);
        [apply move_assign_transfers| |done|simpl; lookups; lia
        |simpl; lookups; lia|]
    end.
    { unfold iter_range. simpl. destruct (N.leb_spec d (size_ v)); [|lia].
      done. }
    simpl in *. rewrite length_insert in Hld2. rewrite Hw, wrap_small by lia.
    first [apply keeps_Ok|split]; [wf_tac|simpl; lia].
Qed.

Lemma Reserve_wf n v : wf v → ends_wf (Reserve n v).
Proof.
  intros Hwf. destruct (N.le_gt_cases n (cap_ v)).
  - rewrite Reserve_noop by done. by apply ends_wf_Ok.
  - destruct (N.le_gt_cases n max_alloc).
    + rewrite Reserve_grow by done. apply ends_wf_Ok.
      unfold elems. wf_tac.
    + rewrite Reserve_throw by done. by apply ends_wf_Throw.
Qed.

Lemma Resize_wf n v : wf v → ends_wf (Resize n v).
Proof.
  intros Hwf. destruct (N.lt_ge_cases n (size_ v)).
  - rewrite Resize_shrink by done. apply ends_wf_Ok. wf_tac.
  - destruct (N.le_gt_cases n (cap_ v)).
    + destruct (Resize_within n v) as (items' & -> & Hl & _); [done..|].
      apply ends_wf_Ok. wf_tac.
    + destruct (N.le_gt_cases (N.max n (2 * cap_ v)) max_alloc).
      * rewrite Resize_grow by done. apply ends_wf_Ok.
        unfold elems. wf_tac.
      * rewrite Resize_throw by done. by apply ends_wf_Throw.
Qed.

Lemma PushBack_wf item v : wf v → ends_wf (PushBack item v).
Proof.
  intros Hwf. destruct (N.lt_ge_cases (size_ v) (cap_ v)).
  - rewrite PushBack_room by done. apply ends_wf_Ok. wf_tac.
  - destruct (N.eq_dec (cap_ v) 0).
    + rewrite PushBack_empty by done. apply ends_wf_Ok. wf_tac.
    + assert (size_ v = cap_ v) by (destruct Hwf as (_ & ? & _); lia).
      destruct (N.le_gt_cases (2 * cap_ v) max_alloc).
      * rewrite PushBack_grow by done. apply ends_wf_Ok. wf_tac.
      * rewrite PushBack_throw by done. by apply ends_wf_Throw.
Qed.

Lemma PushBack_move_wf item v :
  wf v → ref_valid item v → ends_wf (PushBack_move item v).
Proof.
  intros Hwf Hr. destruct item as [item|i];
    [|by apply (keeps_ends_wf v), PushBack_move_elem_keeps].
  destruct (N.lt_ge_cases (size_ v) (cap_ v)).
  - destruct (PushBack_move_room item v) as (item' & ->); [done..|].
    apply ends_wf_Ok. wf_tac.
  - destruct (N.eq_dec (cap_ v) 0).
    + rewrite PushBack_move_empty by done. apply ends_wf_Ok. wf_tac.
    + assert (size_ v = cap_ v) by (destruct Hwf as (_ & ? & _); lia).
      destruct (N.le_gt_cases (2 * cap_ v) max_alloc).
      * rewrite PushBack_move_grow by done. apply ends_wf_Ok. wf_tac.
      * rewrite PushBack_move_throw by done. by apply ends_wf_Throw.
Qed.

Lemma Insert_wf pos value v :
  wf v → iter_le (begin v) pos && iter_le pos (end_ v) = true →
  ref_valid value v → ends_wf (Insert pos value v).
Proof.
  intros Hwf Hpos Hr.
  assert (∃ x, Insert pos value v = Insert pos (ext x) v) as [value' ->].
  { destruct value as [x|i]; [by exists x|].
    destruct (Insert_elem pos i v Hwf Hpos Hr) as (x & _ & ->). by exists x. }
  clear value Hr. rename value' into value.
  destruct (N.lt_ge_cases (size_ v) (cap_ v)).
  - destruct (Insert_room pos value v) as (items' & -> & Hl & _); [done..|].
    apply ends_wf_Ok. wf_tac.
  - destruct (N.eq_dec (cap_ v) 0).
    + rewrite Insert_empty by done. apply ends_wf_Ok. wf_tac.
    + assert (size_ v = cap_ v) by (destruct Hwf as (_ & ? & _); lia).
      destruct (N.le_gt_cases (2 * cap_ v) max_alloc).
      * rewrite Insert_grow by done. apply ends_wf_Ok. wf_tac.
      * rewrite Insert_throw by done. by apply ends_wf_Throw.
Qed.

Lemma Insert_move_wf pos value v :
  wf v → iter_le (begin v) pos && iter_le pos (end_ v) = true →
  ref_valid value v → ends_wf (Insert_move pos value v).
Proof.
  intros Hwf Hpos Hr. destruct value as [value|i];
    [|by apply (keeps_ends_wf v), Insert_move_elem_keeps].
  destruct (N.lt_ge_cases (size_ v) (cap_ v)).
  - destruct (Insert_move_room pos value v) as (items' & value' & -> & Hl & _);
      [done..|].
    apply ends_wf_Ok. wf_tac.
  - destruct (N.eq_dec (cap_ v) 0).
    + rewrite Insert_move_empty by done. apply ends_wf_Ok. wf_tac.
    + assert (size_ v = cap_ v) by (destruct Hwf as (_ & ? & _); lia).
      destruct (N.le_gt_cases (2 * cap_ v) max_alloc).
      * rewrite Insert_move_grow by done. apply ends_wf_Ok. wf_tac.
      * rewrite Insert_move_throw by done. by apply ends_wf_Throw.
Qed.

Lemma Erase_wf pos v :
  wf v → iter_le (begin v) pos && iter_lt pos (end_ v) = true →
  ends_wf (Erase pos v).
Proof.
  intros Hwf Hpos.
  destruct (Erase_ok pos v) as (items' & -> & Hl & _); [done..|].
  apply ends_wf_Ok. wf_tac.
Qed.

Lemma PopBack_wf v : wf v → IsEmpty v = false → ends_wf (PopBack v).
Proof.
  intros Hwf He. unfold IsEmpty in He.
  destruct (N.eqb_spec (size_ v) 0); [done|].
  rewrite PopBack_ok by done. apply ends_wf_Ok. wf_tac.
Qed.

Lemma operator_assign_wf rhs this :
  wf this → wf rhs → size_ rhs ≤ INT_MAX →
  ends_wf (operator_assign rhs this).
Proof.
  intros Hwf Hr Hint.
  destruct (operator_eq_spec this rhs Hwf Hr) as ([] & He & _).
  - rewrite operator_assign_same by done. by apply ends_wf_Ok.
  - rewrite operator_assign_copy by done. apply ends_wf_Ok. by apply wf_copy.
Qed.

Lemma bind_deref {A} a v (f : SimpleVector → M (gmap nat SimpleVector) A)
    (σ : gmap nat SimpleVector) :
  σ !! a = Some v → (deref a ≫= f) σ = f v σ.
Proof. intros Hv. unfold mbind, M_bind, deref. by rewrite Hv. Qed.

Lemma ends_wf_gets {A} (f : SimpleVector → A) v : wf v → ends_wf (gets f v).
Proof. apply ends_wf_Ok. Qed.

Lemma operator_index_wf index v : wf v → index < size_ v →
  ends_wf (operator_index index v).
Proof.
  intros Hwf Hlt. rewrite operator_index_ok by lia. by apply ends_wf_Ok.
Qed.

Lemma At_wf index v : wf v → ends_wf (At index v).
Proof.
  intros Hwf. unfold At. mrun.
  destruct (size_ v <=? index); [by apply ends_wf_Throw|by apply ends_wf_Ok].
Qed.

Lemma Clear_wf v : wf v → ends_wf (Clear v).
Proof. intros Hwf. apply ends_wf_Ok. wf_tac. Qed.

Lemma exec_ends_wf (c : call) (σ : gmap nat SimpleVector) :
  map_Forall (λ _, wf) σ → pre c σ → int_counted c σ →
  ∃ σ', final_state (exec c σ) = Some σ' ∧ map_Forall (λ _, wf) σ'.
Proof.
  intros Hσ Hpre Hint.
  assert (∀ a v, σ !! a = Some v → wf v) as Hwf
    by (intros a v; apply (map_Forall_lookup_1 _ _ _ _ Hσ)).
  destruct c; simpl in Hpre, Hint; cbn [exec];
    rewrite ?final_state_seq_ret;
    try (match type of Hpre with is_Some _ => destruct Hpre as [v0 Hv0] end;
         eapply method_ends; [done..|];
         solve [ eapply Reserve_wf; eauto | eapply Clear_wf; eauto
               | eapply At_wf; eauto | eapply Resize_wf; eauto
               | eapply PushBack_wf; eauto
               | eapply ends_wf_gets; eauto ]).
  - apply declare_ends; [done..|]. left. exists tt, init.
    split; [done|apply wf_init].
  - apply declare_ends; [done..|]. destruct (N.le_gt_cases size max_alloc).
    + left. destruct (N.eq_dec size 0) as [->|].
      * exists tt, init. split; [apply SimpleVector_sized_0|apply wf_init].
      * eexists tt, _. split; [by apply SimpleVector_sized_ok|by apply wf_sized].
    + right. eexists _, _. by apply SimpleVector_sized_throw.
  - apply declare_ends; [done..|]. destruct (N.le_gt_cases size max_alloc).
    + left. eexists tt, _. split; [by apply SimpleVector_fill_ok|]. wf_tac.
    + right. eexists _, _. by apply SimpleVector_fill_throw.
  - apply declare_ends; [done..|].
    destruct (N.le_gt_cases (N.of_nat (length il)) max_alloc).
    + left. eexists tt, _. split; [by apply SimpleVector_list_ok|]. wf_tac.
    + right. eexists _, _. by apply SimpleVector_list_throw.
  - destruct Hpre as (Hd & o & Ho). unfold declare_copy.
    rewrite (bind_deref _ _ _ _ Ho). apply declare_ends; [done..|].
    left. eexists tt, _.
    split; [apply SimpleVector_copy_ok; eauto|apply wf_copy; eauto].
  - apply declare_ends; [done..|]. destruct (N.le_gt_cases res max_alloc).
    + left. eexists tt, _. split; [by apply SimpleVector_reserve_ok|]. wf_tac.
    + right. eexists _, _. by apply SimpleVector_reserve_throw.
  - destruct Hpre as (Hd & o & Ho). rewrite (declare_move_ok _ _ _ _ Hd Ho).
    eexists. split; [done|].
    apply map_Forall_insert_2; [apply wf_init|].
    apply map_Forall_insert_2; eauto.
  - destruct Hpre as ([a Ha] & r & Hr). unfold assign_ref.
    rewrite (bind_deref _ _ _ _ Hr). eapply method_ends; [done..|].
    apply operator_assign_wf; eauto.
  - destruct Hpre as ([a Ha] & [r Hr]). destruct (decide (this = rhs)) as [->|].
    + rewrite (move_assign_ref_self _ _ _ Ha). by eexists.
    + rewrite (move_assign_ref_other _ _ _ _ _ n Ha Hr).
      eexists. split; [done|].
      apply map_Forall_insert_2; [eauto|].
      apply map_Forall_insert_2; [apply wf_init|done].
  - destruct Hpre as (v & Hv & Hlt). eapply method_ends; [done..|].
    apply operator_index_wf; eauto.
  - destruct Hpre as (v & Hv & Hr). eapply method_ends; [done..|].
    apply PushBack_move_wf; eauto.
  - destruct Hpre as (v & Hv & Hpos & Hr). eapply method_ends; [done..|].
    apply Insert_wf; eauto.
  - destruct Hpre as (v & Hv & Hpos & Hr). eapply method_ends; [done..|].
    apply Insert_move_wf; eauto.
  - destruct Hpre as (v & Hv & He). eapply method_ends; [done..|].
    apply PopBack_wf; eauto.
  - destruct Hpre as (v & Hv & Hpos). eapply method_ends; [done..|].
    apply Erase_wf; eauto.
  - destruct Hpre as ([a Ha] & [b Hb]).
    destruct (swap_ref_ok _ _ _ _ _ Ha Hb) as (σ' & -> & Ht & Ho & Hrest).
    exists σ'. split; [done|]. apply map_Forall_lookup_2. intros c v Hc.
    destruct (decide (c = this)) as [->|]; [rewrite Ht in Hc; simplify_eq; eauto|].
    destruct (decide (c = other)) as [->|]; [rewrite Ho in Hc; simplify_eq; eauto|].
    rewrite Hrest in Hc by done. eauto.
Qed.

(** ** The properties of the specification *)

(** C2, [Insert] then [Erase].  Inserting a value at a valid position of a
    container (the doubled block being delivered when the container is
    full) and erasing at the position [Insert] returns, which is the slot
    of the inserted value and has the offset of the position given, leaves
    the elements the container had; the result compares equal to the
    container with [operator==] when [==] on elements is reflexive.  The
    value is any valid reference: an object outside the container or a
    slot of its own block. *)
Theorem Erase_Insert (pos : Iterator) (value : ref) (v : SimpleVector) :
  wf v →
  iter_le (begin v) pos && iter_le pos (end_ v) = true →
  ref_valid value v →
  (size_ v = cap_ v → 2 * cap_ v ≤ max_alloc) →
  ∃ q v1 r v2,
    Insert pos value v = Ok q v1
    ∧ q = slot (iter_offset pos)
    ∧ Erase q v1 = Ok r v2
    ∧ size_ v2 = size_ v
    ∧ elems v2 = elems v
    ∧ ((∀ x, T_eqb x x = true) → operator_eq v2 v = Some true).
Proof.
  intros Hwf Hpos Hr Hmax. pose proof Hwf as (Hl & Hs & Hc).
  assert (∃ x, Insert pos value v = Insert pos (ext x) v) as [value' ->].
  { destruct value as [x|i]; [by exists x|].
    destruct (Insert_elem pos i v Hwf Hpos Hr) as (x & _ & ->). by exists x. }
  clear value Hr. rename value' into value.
  assert (∃ v1, Insert pos (ext value) v = Ok (slot (iter_offset pos)) v1
            ∧ wf v1 ∧ size_ v1 = size_ v + 1
            ∧ (∀ k, (k ≤ N.to_nat (size_ v))%nat → items_ v1 !! k =
                 if decide (k < N.to_nat (iter_offset pos))%nat
                 then items_ v !! k
                 else if decide (k = N.to_nat (iter_offset pos))
                      then Some value else items_ v !! (k - 1)%nat))
    as (v1 & HI & Hwf1 & Hs1 & Hv1).
  { destruct (valid_insert_position v pos Hwf Hpos)
      as [[Hcap ->]|(Hcap & d & -> & Hd)].
    - eexists. split; [by apply Insert_empty|]. simpl.
      split_and!; [split_and!; simpl; lia|lia|].
      intros k Hk. replace k with 0%nat by lia. done.
    - destruct (N.lt_ge_cases (size_ v) (cap_ v)) as [Hlt|Hge].
      + destruct (Insert_room (slot d) value v) as (items' & -> & Hlen & Hk);
          [done..|].
        eexists. split; [done|].
        split; [split_and!; simpl; lia|]. by split.
      + specialize (Hmax ltac:(lia)).
        eexists. split; [apply Insert_grow; try done; lia|].
        split; [split_and!; simpl; lookups; lia|]. split; [done|].
        intros k Hk. simpl. lookups. cases. }
  assert (iter_le (begin v1) (slot (iter_offset pos))
          && iter_lt (slot (iter_offset pos)) (end_ v1) = true) as Hpos1.
  { assert (cap_ v1 ≠ 0) by (destruct Hwf1 as (_ & ? & _); lia).
    rewrite wf_begin, wf_end by done. simpl.
    apply andb_true_iff. split; [apply N.leb_le; lia|apply N.ltb_lt].
    destruct (valid_insert_position v pos Hwf Hpos)
      as [[Hcap ->]|(Hcap & d & -> & Hd)]; simpl; lia. }
  destruct (Erase_ok _ v1 Hwf1 Hpos1) as (items2 & HE & Hlen2 & Hv2).
  assert (elems {| items_ := items2; size_ := size_ v1 - 1; cap_ := cap_ v1 |}
          = elems v) as Helems.
  { unfold elems. simpl. apply list_eq. intros k.
    replace (size_ v1 - 1) with (size_ v) by lia.
    rewrite !lookup_take. case_decide; [|done].
    rewrite Hv2 by lia. simpl. case_decide; rewrite Hv1 by lia; cases. }
  eexists _, v1, _, _. split_and!; [done..|simpl; lia|done|].
  intros Hrefl. apply operator_eq_same_elems; [|done..|simpl; lia|done].
  destruct Hwf1 as (? & ? & ?). split_and!; simpl; lia.
Qed.

(** C4 as amended, copy assignment.  When the two containers compare
    equal with [operator==] (same size, and equal elements position by
    position), the assignment changes nothing, whether or not they are
    the same object.  Otherwise, for a right-hand side of at most
    [INT_MAX] elements, the receiver becomes a copy of the right-hand
    side with a block of its own: the elements of the right-hand side,
    its size, and that size as capacity.  A right-hand side that is
    another object is unchanged, and so is every other object; a
    right-hand side that is the receiver itself (it does not compare
    equal to itself when [==] on elements is not reflexive) keeps its
    elements and its size, and its capacity becomes its size. *)
Theorem copy_assign_spec (this rhs : nat) (a b : SimpleVector)
    (σ : gmap nat SimpleVector) :
  σ !! this = Some a → σ !! rhs = Some b → wf a → wf b →
  ∃ e, operator_eq a b = Some e
    ∧ (e = true ↔
       size_ a = size_ b
       ∧ ∀ k x y, elems a !! k = Some x → elems b !! k = Some y →
                  T_eqb x y = true)
    ∧ (e = true → assign_ref this rhs σ = Ok tt σ)
    ∧ (e = false → size_ b ≤ INT_MAX →
       ∃ σ' a' b',
         assign_ref this rhs σ = Ok tt σ'
         ∧ σ' !! this = Some a' ∧ σ' !! rhs = Some b'
         ∧ a' = {| items_ := elems b; size_ := size_ b; cap_ := size_ b |}
         ∧ elems a' = elems b
         ∧ elems b' = elems b
         ∧ (rhs ≠ this → b' = b)
         ∧ (rhs = this → b' = a')
         ∧ (∀ c, c ≠ this → σ' !! c = σ !! c)).
Proof.
  intros Ha Hb Hwa Hwb.
  destruct (operator_eq_spec a b Hwa Hwb) as (e & He & Hiff).
  exists e. split_and!; try done.
  - intros ->. unfold assign_ref. store_run.
    rewrite (operator_assign_same _ _ He). by rewrite insert_id.
  - intros -> Hint. unfold assign_ref. store_run.
    rewrite (operator_assign_copy _ _ He Hwb Hint).
    destruct (decide (rhs = this)) as [->|Hne].
    + eexists _, _, _. split; [done|].
      split_and!; try by simplify_map_eq.
      * by apply elems_copy.
      * by apply elems_copy.
      * intros c ?. by simplify_map_eq.
    + eexists _, _, b. split; [done|].
      split_and!; try by simplify_map_eq.
      * by apply elems_copy.
      * intros c ?. by simplify_map_eq.
Qed.

(** C5, the assertion of [operator[]].  The assertion fails exactly for
    the indices above the size: it passes for every index up to and
    including the size, so for every container it passes at the index one
    past the last element in use. *)
Theorem operator_index_guard (index : N) (v : SimpleVector) :
  (operator_index index v = AssertFail ↔ size_ v < index)
  ∧ (operator_index index v = Ok index v ↔ index ≤ size_ v)
  ∧ operator_index (size_ v) v = Ok (size_ v) v.
Proof using Type. clear max_alloc_range.
  unfold operator_index. mrun. split_and!.
  - destruct (N.leb_spec index (size_ v)); split; (done || lia).
  - destruct (N.leb_spec index (size_ v)); split; (done || lia).
  - by rewrite N.leb_refl.
Qed.

(** C6, [At].  The call throws [out_of_range] exactly when the index is
    at least the size, and returns a reference to slot [index] exactly
    when the index is below the size; that slot holds the element at
    logical position [index].  Whichever way the call ends, the container
    is as it was. *)
Theorem At_spec (index : N) (v : SimpleVector) :
  (At index v = Throw out_of_range v ↔ size_ v ≤ index)
  ∧ (At index v = Ok index v ↔ index < size_ v)
  ∧ final_state (At index v) = Some v
  ∧ (wf v → index < size_ v →
     ∃ x, elems v !! N.to_nat index = Some x
          ∧ items_ v !! N.to_nat index = Some x).
Proof using Type. clear max_alloc_range.
  unfold At. mrun. split_and!.
  - destruct (N.leb_spec (size_ v) index); split; (done || lia).
  - destruct (N.leb_spec (size_ v) index); split; (done || lia).
  - by destruct (size_ v <=? index).
  - intros Hwf Hlt. destruct (wf_lookup v index) as [x Hx];
      [done|destruct Hwf as (_ & ? & _); lia|].
    exists x. split; [|done]. unfold elems. rewrite lookup_take_lt by lia. done.
Qed.

(** C7 as amended, move construction and move assignment.  Constructing
    a container from [s] by move, or move-assigning [s] to a different
    object, leaves [s] with no block, size [0] and capacity [0], and
    gives the destination the state [s] had: its elements, size and
    capacity.  Move-assigning a container to itself changes nothing. *)
Theorem move_spec (dst this rhs : nat) (a s : SimpleVector)
    (σ : gmap nat SimpleVector) :
  σ !! this = Some a → σ !! rhs = Some s →
  (σ !! dst = None →
   ∃ σ', declare_move dst rhs σ = Ok tt σ'
     ∧ σ' !! rhs = Some init ∧ σ' !! dst = Some s)
  ∧ (this ≠ rhs →
     ∃ σ', move_assign_ref this rhs σ = Ok tt σ'
       ∧ σ' !! rhs = Some init ∧ σ' !! this = Some s)
  ∧ (this = rhs → move_assign_ref this rhs σ = Ok tt σ).
Proof using Type. clear max_alloc_range.
  intros Ha Hs. split_and!.
  - intros Hd. eexists. split; [by apply declare_move_ok|].
    assert (dst ≠ rhs) by congruence. split; by simplify_map_eq.
  - intros Hne. eexists. split; [by eapply move_assign_ref_other|].
    split; by simplify_map_eq.
  - intros ->. by eapply move_assign_ref_self.
Qed.

(** C9, [swap].  Swapping two containers exchanges their whole states:
    elements (the block), size and capacity.  No other object changes. *)
Theorem swap_spec (this other : nat) (a b : SimpleVector)
    (σ : gmap nat SimpleVector) :
  σ !! this = Some a → σ !! other = Some b →
  ∃ σ', swap_ref this other σ = Ok tt σ'
    ∧ σ' !! this = Some b ∧ σ' !! other = Some a
    ∧ (∀ c, c ≠ this → c ≠ other → σ' !! c = σ !! c).
Proof using Type. clear max_alloc_range. apply swap_ref_ok. Qed.

(** C10, [begin] and [end] (all overloads, and [cbegin], [cend]).  They
    are equal exactly when the container is empty; both are the null
    pointer when the capacity is [0], and neither is when it is not. *)
Theorem begin_end_spec (v : SimpleVector) :
  wf v →
  (begin v = end_ v ↔ size_ v = 0)
  ∧ (cap_ v = 0 → begin v = nullptr ∧ end_ v = nullptr)
  ∧ (0 < cap_ v → begin v ≠ nullptr ∧ end_ v ≠ nullptr)
  ∧ begin_const v = begin v ∧ end_const v = end_ v
  ∧ cbegin v = begin v ∧ cend v = end_ v.
Proof using Type. clear max_alloc_range.
  intros Hwf. split_and!; try done.
  - destruct (N.eq_dec (cap_ v) 0) as [Hcap|Hcap].
    + destruct (begin_end_null v Hcap) as [-> ->].
      destruct Hwf as (_ & ? & _). split; [lia|done].
    + rewrite wf_begin, wf_end by done. split; [by intros [= <-]|by intros ->].
  - apply begin_end_null.
  - intros Hcap. rewrite wf_begin, wf_end by first [done|lia]. done.
Qed.

(** ** Further properties of the code *)

(** *** Constructors *)

(** X1, [SimpleVector(size_t size)].  The container gets [size] slots
    that all hold the value-initialised value, with size and capacity
    [size]; for [size = 0] it owns no block.  When [new] cannot deliver
    the block, the constructor throws [bad_alloc]. *)
Theorem SimpleVector_sized_spec (size : N) :
  (size ≤ max_alloc →
   ∃ v, SimpleVector_sized size init = Ok tt v
     ∧ size_ v = size ∧ cap_ v = size
     ∧ elems v = replicate (N.to_nat size) T_default
     ∧ (size = 0 → items_ v = [])
     ∧ wf v)
  ∧ (max_alloc < size → SimpleVector_sized size init = Throw bad_alloc init).
Proof.
  split; [|apply SimpleVector_sized_throw].
  intros Hmax. destruct (N.eq_dec size 0) as [->|Hne].
  - exists init. split_and!; try done.
  - eexists. split; [by apply SimpleVector_sized_ok|].
    split_and!; simpl; try done.
    + unfold elems. simpl. apply take_ge. lookups. lia.
    + by apply wf_sized.
Qed.

(** X2, [SimpleVector(size_t size, const Type& value)].  Every one of the
    [size] elements is [value]; size and capacity are [size].  When [new]
    cannot deliver the block, the constructor throws [bad_alloc]. *)
Theorem SimpleVector_fill_spec (size : N) (value : T) :
  (size ≤ max_alloc →
   ∃ v, SimpleVector_fill size value init = Ok tt v
     ∧ size_ v = size ∧ cap_ v = size
     ∧ elems v = replicate (N.to_nat size) value
     ∧ wf v)
  ∧ (max_alloc < size →
     SimpleVector_fill size value init = Throw bad_alloc init).
Proof.
  split; [|apply SimpleVector_fill_throw].
  intros Hmax. eexists. split; [by apply SimpleVector_fill_ok|].
  split_and!; simpl; try done.
  - unfold elems. simpl. apply take_ge. lookups. lia.
  - wf_tac.
Qed.

(** X3, [SimpleVector(std::initializer_list<Type>)].  For a list of at
    most [INT_MAX] elements the container holds the elements of the list
    in order, and its size and capacity are the length of the list; when
    [new] cannot deliver the block, the constructor throws [bad_alloc]. *)
Theorem SimpleVector_list_spec (il : list T) :
  N.of_nat (length il) ≤ INT_MAX →
  (N.of_nat (length il) ≤ max_alloc →
   ∃ v, SimpleVector_list il init = Ok tt v
     ∧ elems v = il
     ∧ size_ v = N.of_nat (length il) ∧ cap_ v = N.of_nat (length il)
     ∧ wf v)
  ∧ (max_alloc < N.of_nat (length il) →
     SimpleVector_list il init = Throw bad_alloc init).
Proof.
  intros Hint. split; [|by apply SimpleVector_list_throw].
  intros Hmax. eexists. split; [by apply SimpleVector_list_ok|].
  split_and!; simpl; try done.
  - unfold elems. simpl. apply take_ge. lia.
  - wf_tac.
Qed.

(** *** The [int] counter of [Create] *)

Lemma Create_loop_overflow src : ∀ i tmp,
  i ≤ INT_MAX → INT_MAX < i + N.of_nat (length src) →
  i + N.of_nat (length src) ≤ size_ tmp →
  (N.to_nat (size_ tmp) ≤ length (items_ tmp))%nat →
  Create_loop src i tmp = UB.
Proof using Type. clear max_alloc_range.
  induction src as [|x src IH]; intros i tmp Hi Hov Hsz Hlen;
    cbn [length] in *; [lia|].
  cbn [Create_loop]. unfold mbind, M_bind.
  rewrite operator_index_ok by lia.
  destruct (lookup_lt_is_Some_2 (items_ tmp) (N.to_nat i)) as [d Hd]; [lia|].
  rewrite (assign_at_ok _ _ _ _ Hd).
  destruct (N.leb_spec INT_MAX i); [done|].
  apply IH; simpl; lookups; lia.
Qed.

Lemma Create_overflow src size this :
  INT_MAX < size → size ≤ max_alloc → N.of_nat (length src) = size →
  Create src size this = UB.
Proof.
  intros Hov Hmax Hlen. unfold Create. mrun.
  rewrite SimpleVector_sized_ok by (unfold INT_MAX in Hov; lia).
  rewrite Create_loop_overflow; [done|unfold INT_MAX; lia|lia|simpl; lia|].
  simpl. lookups. lia.
Qed.

Lemma SimpleVector_copy_overflow other this :
  wf other → INT_MAX < size_ other → SimpleVector_copy other this = UB.
Proof.
  intros Hwf Hov. pose proof Hwf as (Hl & Hs & Hc).
  unfold SimpleVector_copy, GetSize. mrun.
  rewrite read_range_elems by done. simpl.
  apply Create_overflow; [done|lia|]. unfold elems. lookups. lia.
Qed.

Lemma declare_copy_overflow dst other o (σ : gmap nat SimpleVector) :
  σ !! dst = None → σ !! other = Some o → wf o → INT_MAX < size_ o →
  declare_copy dst other σ = UB.
Proof.
  intros Hd Ho Hwf Hov. unfold declare_copy.
  rewrite (bind_deref _ _ _ _ Ho). unfold declare.
  by rewrite Hd, SimpleVector_copy_overflow.
Qed.

(** X4, [SimpleVector(const SimpleVector& other)].  For [other] of at
    most [INT_MAX] elements the new container has the elements and the
    size of [other] and that size as capacity, whatever the capacity of
    [other]; it compares equal to [other] when [==] on elements is
    reflexive; [other] and every other object are as they were.  For
    [other] of more than [INT_MAX] elements the [int] counter of
    [Create] overflows and the construction is undefined. *)
Theorem declare_copy_spec (dst other : nat) (o : SimpleVector)
    (σ : gmap nat SimpleVector) :
  σ !! dst = None → σ !! other = Some o → wf o →
  (size_ o ≤ INT_MAX →
   ∃ c, declare_copy dst other σ = Ok tt (<[dst := c]> σ)
     ∧ elems c = elems o ∧ size_ c = size_ o ∧ cap_ c = size_ o
     ∧ wf c
     ∧ <[dst := c]> σ !! other = Some o
     ∧ ((∀ x, T_eqb x x = true) → operator_eq c o = Some true))
  ∧ (INT_MAX < size_ o → declare_copy dst other σ = UB).
Proof.
  intros Hd Ho Hwf. split; [|by apply declare_copy_overflow].
  intros Hint. eexists.
  split.
  { unfold declare_copy. rewrite (bind_deref _ _ _ _ Ho). unfold declare.
    by rewrite Hd, SimpleVector_copy_ok. }
  assert (dst ≠ other) by congruence.
  split_and!; simpl; try done.
  - by apply elems_copy.
  - by apply wf_copy.
  - by simplify_map_eq.
  - intros Hrefl. apply operator_eq_same_elems; try done.
    + by apply wf_copy.
    + by apply elems_copy.
Qed.

(** *** Reserve and repeated PushBack *)

(** X26, [PushBack] of an item that is not a slot of the receiver (both
    overloads; the overload taking [const Type&] reads its item before
    it changes the block, so the value stands for any item).  With
    [size < capacity] the item is stored at index [size], the size grows
    by one and the capacity is unchanged.  With capacity [0] the
    container gets size [1], capacity [1] and the item as its only
    element.  Otherwise ([size = capacity > 0], and [new] delivers the
    doubled block) the capacity doubles, the elements are kept in order
    and the item follows them, at the old size position, the size
    growing by one. *)
Theorem PushBack_spec (item : T) (v : SimpleVector) :
  wf v →
  (size_ v < cap_ v →
     PushBack item v
     = Ok tt {| items_ := <[N.to_nat (size_ v) := item]> (items_ v);
                size_ := size_ v + 1; cap_ := cap_ v |}
     ∧ ∃ item', PushBack_move (ext item) v
     = Ok (ext item') {| items_ := <[N.to_nat (size_ v) := item]> (items_ v);
                   size_ := size_ v + 1; cap_ := cap_ v |})
  ∧ (cap_ v = 0 →
     PushBack item v = Ok tt {| items_ := [item]; size_ := 1; cap_ := 1 |}
     ∧ ∃ item', PushBack_move (ext item) v
     = Ok (ext item') {| items_ := [item]; size_ := 1; cap_ := 1 |})
  ∧ (size_ v = cap_ v → 0 < cap_ v → 2 * cap_ v ≤ max_alloc →
     ∃ v' item',
       PushBack item v = Ok tt v' ∧ PushBack_move (ext item) v = Ok (ext item') v'
       ∧ cap_ v' = 2 * cap_ v
       ∧ (∀ i x, elems v !! i = Some x → items_ v' !! i = Some x)
       ∧ items_ v' !! N.to_nat (size_ v) = Some item
       ∧ size_ v' = size_ v + 1
       ∧ elems v' = elems v ++ [item]).
Proof.
  intros Hwf. split_and!.
  - intros Hlt. split; [by apply PushBack_room|by apply PushBack_move_room].
  - intros Hcap. split; [by apply PushBack_empty|].
    eexists. by apply PushBack_move_empty.
  - intros Hfull Hcap Hmax. eexists _, _.
    split; [apply PushBack_grow; [done..|lia|done]|].
    split; [apply PushBack_move_grow; [done..|lia|done]|].
    pose proof Hwf as (Hl & Hs & Hc). simpl.
    rewrite wf_elems_full by done. split_and!; try done.
    + intros i x Hi. by apply lookup_app_l_Some.
    + lookups. cases.
    + unfold elems. simpl. apply list_eq. intros k. lookups. cases.
Qed.

Lemma push_each_room l : ∀ v,
  wf v → size_ v + N.of_nat (length l) ≤ cap_ v →
  push_each l v
  = Ok tt {| items_ := take (N.to_nat (size_ v)) (items_ v) ++ l
                       ++ drop (N.to_nat (size_ v) + length l) (items_ v);
             size_ := size_ v + N.of_nat (length l); cap_ := cap_ v |}.
Proof.
  induction l as [|x l IH]; intros v Hwf Hle.
  - simpl. rewrite Nat.add_0_r, take_drop, N.add_0_r. by destruct v.
  - simpl in Hle. cbn [push_each]. unfold mbind, M_bind.
    rewrite PushBack_room by first [done|lia].
    pose proof Hwf as (Hl & Hs & Hc).
    rewrite IH; simpl; [|wf_tac|lia].
    f_equal. f_equal; [|lia].
    apply list_eq. intros k. lookups. cases.
Qed.

Lemma push_each_doubled l : ∀ v,
  wf v → doubled v → 2 * (size_ v + N.of_nat (length l)) ≤ max_alloc →
  ∃ v', push_each l v = Ok tt v'
    ∧ wf v' ∧ doubled v'
    ∧ elems v' = elems v ++ l
    ∧ size_ v' = size_ v + N.of_nat (length l).
Proof.
  induction l as [|x l IH]; intros v Hwf Hdb Hmax.
  - exists v. split_and!; try done; simpl; [by rewrite app_nil_r|lia].
  - simpl in Hmax. cbn [push_each]. unfold mbind, M_bind.
    pose proof Hwf as (Hl & Hs & Hc).
    assert (∃ v1, PushBack x v = Ok tt v1 ∧ wf v1 ∧ doubled v1
                  ∧ elems v1 = elems v ++ [x] ∧ size_ v1 = size_ v + 1)
      as (v1 & -> & Hwf1 & Hdb1 & He1 & Hs1).
    { destruct (N.lt_ge_cases (size_ v) (cap_ v)) as [Hlt|Hge].
      - eexists. split; [by apply PushBack_room|].
        split_and!; simpl; [wf_tac| |unfold elems; simpl|done].
        + destruct Hdb as [?|[Hk ?]]; [lia|]. right. split; [done|simpl; lia].
        + apply list_eq. intros k. lookups. cases.
      - destruct (N.eq_dec (cap_ v) 0) as [Hcap|Hcap].
        + eexists. split; [by apply PushBack_empty|].
          split_and!; simpl; [wf_tac| | |lia].
          * right. split; [by exists 0|simpl; lia].
          * unfold elems. assert (size_ v = 0) as -> by lia. done.
        + eexists. split; [apply PushBack_grow; try done; lia|].
          split_and!; simpl; [wf_tac| |unfold elems; simpl|done].
          * destruct Hdb as [?|[[k Hk] ?]]; [lia|]. right. split; [|simpl; lia].
            exists (k + 1). simpl. rewrite Hk, N.pow_add_r. lia.
          * apply list_eq. intros k. lookups. cases. }
    destruct (IH v1 Hwf1 Hdb1) as (v' & -> & Hwf' & Hdb' & He' & Hs'); [lia|].
    exists v'. split_and!; try done.
    + by rewrite He', He1, <- app_assoc.
    + cbn [length]. lia.
Qed.

(** X5, pushing the elements of a list onto an empty container.  The
    container then holds exactly the list, in order, and its capacity is
    [0] for the empty list and otherwise a power of two that is at least
    the length of the list and less than twice it. *)
Theorem push_each_from_empty (l : list T) :
  2 * N.of_nat (length l) ≤ max_alloc →
  ∃ v, push_each l init = Ok tt v
    ∧ elems v = l ∧ size_ v = N.of_nat (length l) ∧ wf v
    ∧ (l = [] → cap_ v = 0)
    ∧ (l ≠ [] → ∃ k, cap_ v = 2 ^ k
                     ∧ N.of_nat (length l) ≤ cap_ v < 2 * N.of_nat (length l)).
Proof.
  intros Hmax.
  destruct (push_each_doubled l init wf_init) as (v & Hp & Hwf & Hdb & He & Hs);
    [by left|simpl; lia|].
  exists v. simpl in *. split_and!; try done.
  - intros ->. simpl in Hp. by injection Hp as <-.
  - intros Hne. destruct Hwf as (_ & Hsc & _).
    destruct Hdb as [Hc|[[k Hk] Hlt]].
    + destruct l; [done|]. simpl in *. lia.
    + exists k. lia.
Qed.

Lemma Reserve_result new_capacity v :
  wf v → cap_ v < new_capacity → new_capacity ≤ max_alloc →
  ∃ v', Reserve new_capacity v = Ok tt v'
    ∧ cap_ v' = new_capacity ∧ size_ v' = size_ v
    ∧ elems v' = elems v ∧ wf v'.
Proof.
  intros Hwf Hlt Hmax. eexists. split; [by apply Reserve_grow|].
  pose proof Hwf as (Hl & Hs & Hc). split_and!; simpl; try done.
  - unfold elems. simpl. rewrite take_app_le by (lookups; lia).
    rewrite take_take. f_equal. lia.
  - unfold elems. wf_tac.
Qed.

(** X6, the member function [Reserve].  A request not above the capacity
    changes nothing.  A larger request that [new] can deliver makes the
    capacity exactly the request and keeps size and elements; one it
    cannot deliver throws [bad_alloc] and changes nothing. *)
Theorem Reserve_spec (new_capacity : N) (v : SimpleVector) :
  wf v →
  (new_capacity ≤ cap_ v → Reserve new_capacity v = Ok tt v)
  ∧ (cap_ v < new_capacity → new_capacity ≤ max_alloc →
     ∃ v', Reserve new_capacity v = Ok tt v'
       ∧ cap_ v' = new_capacity ∧ size_ v' = size_ v
       ∧ elems v' = elems v ∧ wf v')
  ∧ (cap_ v < new_capacity → max_alloc < new_capacity →
     Reserve new_capacity v = Throw bad_alloc v).
Proof.
  intros Hwf. split_and!.
  - apply Reserve_noop.
  - by apply Reserve_result.
  - apply Reserve_throw.
Qed.

(** X7, [Reserve] then [PushBack].  After [Reserve(n)], pushing elements
    while the size stays within the capacity reserved appends them in
    order and never changes the capacity again. *)
Theorem Reserve_push_each (n : N) (l : list T) (v : SimpleVector) :
  wf v → n ≤ max_alloc →
  size_ v + N.of_nat (length l) ≤ N.max n (cap_ v) →
  ∃ v', (Reserve n;; push_each l) v = Ok tt v'
    ∧ cap_ v' = N.max n (cap_ v)
    ∧ size_ v' = size_ v + N.of_nat (length l)
    ∧ elems v' = elems v ++ l.
Proof.
  intros Hwf Hmax Hle. pose proof Hwf as (Hl & Hs & Hc).
  unfold mbind, M_bind.
  assert (∃ v1, Reserve n v = Ok tt v1 ∧ wf v1 ∧ cap_ v1 = N.max n (cap_ v)
                ∧ size_ v1 = size_ v ∧ elems v1 = elems v)
    as (v1 & -> & Hwf1 & Hc1 & Hs1 & He1).
  { destruct (N.le_gt_cases n (cap_ v)) as [Hn|Hn].
    - exists v. split; [by apply Reserve_noop|]. split_and!; try done. lia.
    - destruct (Reserve_result n v Hwf Hn Hmax) as (v1 & -> & ? & ? & ? & ?).
      exists v1. split_and!; try done. lia. }
  rewrite push_each_room by first [done|lia]. eexists. split; [done|].
  simpl. split_and!; try done; [lia|].
  unfold elems in *. simpl. rewrite <- He1, Hs1.
  destruct Hwf1 as (Hl1 & ? & ?).
  apply list_eq. intros k. lookups. cases.
Qed.

(** *** What [Create] throws *)

(** [Create] throws nothing but the [bad_alloc] of its block, before it
    has changed anything. *)
Lemma Create_loop_no_throw src : ∀ i tmp e tmp',
  Create_loop src i tmp ≠ Throw e tmp'.
Proof using Type. clear max_alloc_range.
  induction src as [|x src IH]; intros i tmp e tmp'; cbn [Create_loop];
    [done|].
  unfold operator_index, assign_at. mrun.
  destruct (i <=? size_ tmp); [|done].
  destruct (assign_slot _ _ _ _) as [[p ?]|]; [|done]. simpl.
  destruct (INT_MAX <=? i); [done|]. apply IH.
Qed.

Lemma SimpleVector_sized_throws n this e this' :
  SimpleVector_sized n this = Throw e this' → e = bad_alloc ∧ this' = this.
Proof using Type. clear max_alloc_range.
  unfold SimpleVector_sized, ArrayPtr_new. mrun.
  destruct (n =? 0); simpl; [done|].
  destruct (max_alloc <? n); [|done]. by intros [= <- <-].
Qed.

Lemma Create_throws src size this e this' :
  Create src size this = Throw e this' → e = bad_alloc ∧ this' = this.
Proof using Type. clear max_alloc_range.
  unfold Create, swap. mrun.
  destruct (SimpleVector_sized size init) as [[] tmp|e0 tmp| |] eqn:Hs;
    try done.
  - pose proof (Create_loop_no_throw src 0 tmp) as Hl.
    destruct (Create_loop src 0 tmp) as [[] tmp'|e1 tmp'| |]; try done.
    by destruct (Hl e1 tmp').
  - apply SimpleVector_sized_throws in Hs as [-> _]. by intros [= <- <-].
Qed.

Lemma operator_assign_throws rhs this e this' :
  operator_assign rhs this = Throw e this' → e = bad_alloc ∧ this' = this.
Proof using Type. clear max_alloc_range.
  unfold operator_assign, SimpleVector_copy, swap. mrun.
  destruct (operator_eq this rhs) as [[]|]; try done. simpl.
  destruct (read_range _ _ _) as [src|]; try done. simpl.
  destruct (Create src (GetSize rhs) init) as [[] c|e0 c| |] eqn:Hc; try done.
  apply Create_throws in Hc as [-> _]. by intros [= <- <-].
Qed.

(** *** Capacity and exceptions *)

Lemma Reserve_keeps n v : wf v → keeps v (Reserve n v).
Proof.
  intros Hwf. destruct (N.le_gt_cases n (cap_ v)).
  - rewrite Reserve_noop by done. by apply keeps_Ok.
  - destruct (N.le_gt_cases n max_alloc).
    + rewrite Reserve_grow by done. apply keeps_Ok; [|simpl; lia].
      unfold elems. wf_tac.
    + by rewrite Reserve_throw.
Qed.

Lemma Resize_keeps n v : wf v → keeps v (Resize n v).
Proof.
  intros Hwf. destruct (N.lt_ge_cases n (size_ v)).
  - rewrite Resize_shrink by done. apply keeps_Ok; [wf_tac|done].
  - destruct (N.le_gt_cases n (cap_ v)).
    + destruct (Resize_within n v) as (items' & -> & Hl & _); [done..|].
      apply keeps_Ok; [wf_tac|done].
    + destruct (N.le_gt_cases (N.max n (2 * cap_ v)) max_alloc).
      * rewrite Resize_grow by done. apply keeps_Ok; [|simpl; lia].
        unfold elems. wf_tac.
      * by rewrite Resize_throw.
Qed.

Lemma PushBack_keeps item v : wf v → keeps v (PushBack item v).
Proof.
  intros Hwf. destruct (N.lt_ge_cases (size_ v) (cap_ v)).
  - rewrite PushBack_room by done. apply keeps_Ok; [wf_tac|done].
  - destruct (N.eq_dec (cap_ v) 0).
    + rewrite PushBack_empty by done. apply keeps_Ok; [wf_tac|simpl; lia].
    + assert (size_ v = cap_ v) by (destruct Hwf as (_ & ? & _); lia).
      destruct (N.le_gt_cases (2 * cap_ v) max_alloc).
      * rewrite PushBack_grow by done. apply keeps_Ok; [wf_tac|simpl; lia].
      * by rewrite PushBack_throw.
Qed.

Lemma PushBack_move_keeps item v :
  wf v → ref_valid item v → keeps v (PushBack_move item v).
Proof.
  intros Hwf Hr. destruct item as [item|i];
    [|by apply PushBack_move_elem_keeps].
  destruct (N.lt_ge_cases (size_ v) (cap_ v)).
  - destruct (PushBack_move_room item v) as (item' & ->); [done..|].
    apply keeps_Ok; [wf_tac|done].
  - destruct (N.eq_dec (cap_ v) 0).
    + rewrite PushBack_move_empty by done. apply keeps_Ok; [wf_tac|simpl; lia].
    + assert (size_ v = cap_ v) by (destruct Hwf as (_ & ? & _); lia).
      destruct (N.le_gt_cases (2 * cap_ v) max_alloc).
      * rewrite PushBack_move_grow by done. apply keeps_Ok; [wf_tac|simpl; lia].
      * by rewrite PushBack_move_throw.
Qed.

Lemma Insert_keeps pos value v :
  wf v → iter_le (begin v) pos && iter_le pos (end_ v) = true →
  ref_valid value v → keeps v (Insert pos value v).
Proof.
  intros Hwf Hpos Hr.
  assert (∃ x, Insert pos value v = Insert pos (ext x) v) as [value' ->].
  { destruct value as [x|i]; [by exists x|].
    destruct (Insert_elem pos i v Hwf Hpos Hr) as (x & _ & ->). by exists x. }
  clear value Hr. rename value' into value.
  destruct (N.lt_ge_cases (size_ v) (cap_ v)).
  - destruct (Insert_room pos value v) as (items' & -> & Hl & _); [done..|].
    apply keeps_Ok; [wf_tac|done].
  - destruct (N.eq_dec (cap_ v) 0).
    + rewrite Insert_empty by done. apply keeps_Ok; [wf_tac|simpl; lia].
    + assert (size_ v = cap_ v) by (destruct Hwf as (_ & ? & _); lia).
      destruct (N.le_gt_cases (2 * cap_ v) max_alloc).
      * rewrite Insert_grow by done. apply keeps_Ok; [wf_tac|simpl; lia].
      * by rewrite Insert_throw.
Qed.

Lemma Insert_move_keeps pos value v :
  wf v → iter_le (begin v) pos && iter_le pos (end_ v) = true →
  ref_valid value v → keeps v (Insert_move pos value v).
Proof.
  intros Hwf Hpos Hr. destruct value as [value|i];
    [|by apply Insert_move_elem_keeps].
  destruct (N.lt_ge_cases (size_ v) (cap_ v)).
  - destruct (Insert_move_room pos value v) as (items' & value' & -> & Hl & _);
      [done..|].
    apply keeps_Ok; [wf_tac|done].
  - destruct (N.eq_dec (cap_ v) 0).
    + rewrite Insert_move_empty by done. apply keeps_Ok; [wf_tac|simpl; lia].
    + assert (size_ v = cap_ v) by (destruct Hwf as (_ & ? & _); lia).
      destruct (N.le_gt_cases (2 * cap_ v) max_alloc).
      * rewrite Insert_move_grow by done. apply keeps_Ok; [wf_tac|simpl; lia].
      * by rewrite Insert_move_throw.
Qed.

Lemma Erase_keeps pos v :
  wf v → iter_le (begin v) pos && iter_lt pos (end_ v) = true →
  keeps v (Erase pos v).
Proof.
  intros Hwf Hpos.
  destruct (Erase_ok pos v) as (items' & -> & Hl & _); [done..|].
  apply keeps_Ok; [wf_tac|done].
Qed.

Lemma PopBack_keeps v : wf v → IsEmpty v = false → keeps v (PopBack v).
Proof.
  intros Hwf He. unfold IsEmpty in He.
  destruct (N.eqb_spec (size_ v) 0); [done|].
  rewrite PopBack_ok by done. apply keeps_Ok; [wf_tac|done].
Qed.

(** The outcome of a member function called on the object at [this],
    from what it leaves of the receiver. *)
Lemma method_keeps {A} this (m : M SimpleVector A) v
    (σ : gmap nat SimpleVector) :
  σ !! this = Some v → keeps v (m v) →
  match method this m σ with
  | Ok _ σ' => ∃ v', σ' = <[this := v']> σ ∧ wf v' ∧ cap_ v ≤ cap_ v'
  | Throw e σ' => σ' = σ ∧ e = bad_alloc
  | AssertFail | UB => False
  end.
Proof using Type. clear max_alloc_range.
  intros Hv Hk. unfold method. rewrite Hv.
  destruct (m v) as [a v'|e v'| |]; simpl in *; try done.
  - by exists v'.
  - destruct Hk as [-> ->]. by rewrite insert_id.
Qed.

Lemma seq_ret_outcome {S A} (m : M S A) (s : S) :
  (m ;; mret tt) s
  = match m s with
    | Ok _ s' => Ok tt s'
    | Throw e s' => Throw e s'
    | AssertFail => AssertFail
    | UB => UB
    end.
Proof. unfold mbind, M_bind. by destruct (m s). Qed.

Lemma member_call_outcome (c : call) (this : nat) (v : SimpleVector)
    (σ : gmap nat SimpleVector) :
  pre c σ → member_call c = Some this → σ !! this = Some v → wf v →
  match exec c σ with
  | Ok _ σ' => ∃ v', σ' = <[this := v']> σ ∧ wf v' ∧ cap_ v ≤ cap_ v'
  | Throw e σ' =>
      σ' = σ ∧ (e = bad_alloc ∨ ∃ index, c = Call_At this index)
  | AssertFail | UB => False
  end.
Proof.
  intros Hpre Hc Hv Hwf.
  assert (∀ A (f : SimpleVector → A),
            match (method this (gets f);; mret tt) σ with
            | Ok _ σ' => ∃ v', σ' = <[this := v']> σ ∧ wf v' ∧ cap_ v ≤ cap_ v'
            | Throw e σ' =>
                σ' = σ ∧ (e = bad_alloc ∨ ∃ index, c = Call_At this index)
            | AssertFail | UB => False
            end) as Hgets.
  { intros A f. rewrite seq_ret_outcome. unfold method, gets. rewrite Hv.
    by exists v. }
  assert (∀ A (m : M SimpleVector A), keeps v (m v) →
            match method this m σ with
            | Ok _ σ' => ∃ v', σ' = <[this := v']> σ ∧ wf v' ∧ cap_ v ≤ cap_ v'
            | Throw e σ' =>
                σ' = σ ∧ (e = bad_alloc ∨ ∃ index, c = Call_At this index)
            | AssertFail | UB => False
            end) as Hm.
  { intros A m Hk. pose proof (method_keeps this m v σ Hv Hk) as H.
    destruct (method this m σ); try done. destruct H as [-> ->]. by split; [|left]. }
  destruct c; simpl in Hc; simplify_eq; simpl in Hpre; cbn [exec];
    try apply Hgets.
  - apply Hm. by apply Reserve_keeps.
  - destruct Hpre as (v0 & Hv0 & Hlt). rewrite Hv in Hv0.
    injection Hv0 as <-.
    rewrite seq_ret_outcome. unfold method. rewrite Hv.
    rewrite operator_index_ok by lia. by exists v.
  - rewrite seq_ret_outcome. unfold method, At. rewrite Hv. mrun.
    destruct (size_ v <=? index).
    + split; [by rewrite insert_id|]. right. by exists index.
    + by exists v.
  - apply Hm. apply keeps_Ok; [wf_tac|done].
  - apply Hm. by apply Resize_keeps.
  - apply Hm. by apply PushBack_keeps.
  - destruct Hpre as (v0 & Hv0 & Hr). rewrite Hv in Hv0.
    injection Hv0 as <-.
    rewrite seq_ret_outcome.
    pose proof (Hm _ _ (PushBack_move_keeps item v Hwf Hr)) as H.
    by destruct (method this (PushBack_move item) σ).
  - destruct Hpre as (v0 & Hv0 & Hpos & Hr). rewrite Hv in Hv0.
    injection Hv0 as <-.
    rewrite seq_ret_outcome.
    pose proof (Hm _ _ (Insert_keeps pos value v Hwf Hpos Hr)) as H.
    by destruct (method this (Insert pos value) σ).
  - destruct Hpre as (v0 & Hv0 & Hpos & Hr). rewrite Hv in Hv0.
    injection Hv0 as <-.
    rewrite seq_ret_outcome.
    pose proof (Hm _ _ (Insert_move_keeps pos value v Hwf Hpos Hr)) as H.
    by destruct (method this (Insert_move pos value) σ).
  - destruct Hpre as (v0 & Hv0 & He). rewrite Hv in Hv0.
    injection Hv0 as <-.
    apply Hm. by apply PopBack_keeps.
  - destruct Hpre as (v0 & Hv0 & Hpos). rewrite Hv in Hv0.
    injection Hv0 as <-.
    rewrite seq_ret_outcome.
    pose proof (Hm _ _ (Erase_keeps pos v Hwf Hpos)) as H.
    by destruct (method this (Erase pos) σ).
Qed.

(** X27, the invariant within the reach of the [int] counter.  In a store
    of well-formed containers (the block has [capacity] slots,
    [0 <= size <= capacity], and so [size = 0] when [capacity = 0]),
    every public operation called with its preconditions, on ranges of
    at most [INT_MAX] elements where [Create] copies one, runs to its
    return or to an exception, and every container of the store is then
    well-formed still, so it satisfies [0 <= size <= capacity] and
    [capacity = 0] implies [size = 0]. *)
Theorem exec_preserves_invariant (c : call) (σ : gmap nat SimpleVector) :
  map_Forall (λ _, wf) σ → pre c σ → int_counted c σ →
  ∃ σ', final_state (exec c σ) = Some σ'
    ∧ map_Forall (λ _ v, wf v ∧ invariant v) σ'.
Proof.
  intros Hσ Hpre Hint.
  destruct (exec_ends_wf c σ Hσ Hpre Hint) as (σ' & Hf & Hwf).
  exists σ'. split; [done|].
  eapply map_Forall_impl; [exact Hwf|]. intros a v Hv.
  split; [done|by apply wf_invariant].
Qed.


(** X9, exceptions, for an element type whose operations do not throw
    (the element operations of this development are functions: see the
    head of the file).  Whatever public operation throws, called with
    its preconditions on a store of well-formed containers, every
    container is afterwards exactly as it was before the call, and a
    declaration that throws declares nothing; the exception is the
    [bad_alloc] of a block that [new] does not deliver, unless the
    operation is [At]. *)
Theorem exec_throw_unchanged (c : call) (σ σ' : gmap nat SimpleVector)
    (e : exn) :
  map_Forall (λ _, wf) σ → pre c σ → exec c σ = Throw e σ' →
  σ' = σ ∧ (e = bad_alloc ∨ ∃ this index, c = Call_At this index).
Proof.
  intros Hσ Hpre Hthrow.
  assert (∀ a v, σ !! a = Some v → wf v) as Hwf
    by (intros a v; apply (map_Forall_lookup_1 _ _ _ _ Hσ)).
  destruct (member_call c) as [this|] eqn:Hc.
  - assert (∃ v, σ !! this = Some v) as [v Hv].
    { destruct c; simpl in Hc; simplify_eq; simpl in Hpre;
        try (destruct Hpre as [v Hv]; by exists v);
        destruct Hpre as (v & Hv & _); by exists v. }
    pose proof (member_call_outcome c this v σ Hpre Hc Hv (Hwf _ _ Hv)) as H.
    rewrite Hthrow in H. destruct H as [-> [->|[index ->]]]; eauto.
  - destruct c; simpl in Hc; simplify_eq; simpl in Hpre; cbn [exec] in Hthrow.
    + unfold declare in Hthrow. by rewrite Hpre in Hthrow.
    + unfold declare in Hthrow. rewrite Hpre in Hthrow.
      destruct (N.le_gt_cases size max_alloc).
      * destruct (N.eq_dec size 0) as [->|].
        -- by rewrite SimpleVector_sized_0 in Hthrow.
        -- by rewrite SimpleVector_sized_ok in Hthrow.
      * rewrite SimpleVector_sized_throw in Hthrow by done.
        simplify_eq. eauto.
    + unfold declare in Hthrow. rewrite Hpre in Hthrow.
      destruct (N.le_gt_cases size max_alloc).
      * by rewrite SimpleVector_fill_ok in Hthrow.
      * rewrite SimpleVector_fill_throw in Hthrow by done. simplify_eq. eauto.
    + unfold declare in Hthrow. rewrite Hpre in Hthrow.
      unfold SimpleVector_list in Hthrow.
      destruct (Create il _ init) as [? ?|e0 v0| |] eqn:Hc; try done.
      apply Create_throws in Hc as [-> _]. simplify_eq. eauto.
    + destruct Hpre as (Hd & o & Ho). unfold declare_copy in Hthrow.
      rewrite (bind_deref _ _ _ _ Ho) in Hthrow. unfold declare in Hthrow.
      rewrite Hd in Hthrow. unfold SimpleVector_copy in Hthrow.
      revert Hthrow. mrun.
      destruct (read_range _ _ _) as [src|]; try done. simpl.
      destruct (Create src _ init) as [? ?|e0 v0| |] eqn:Hc; try done.
      apply Create_throws in Hc as [-> _]. intros Hthrow. simplify_eq. eauto.
    + unfold declare in Hthrow. rewrite Hpre in Hthrow.
      destruct (N.le_gt_cases res max_alloc).
      * by rewrite SimpleVector_reserve_ok in Hthrow.
      * rewrite SimpleVector_reserve_throw in Hthrow by done.
        simplify_eq. eauto.
    + destruct Hpre as (Hd & o & Ho).
      by rewrite (declare_move_ok _ _ _ _ Hd Ho) in Hthrow.
    + destruct Hpre as ([a Ha] & r & Hr). unfold assign_ref in Hthrow.
      rewrite (bind_deref _ _ _ _ Hr) in Hthrow. unfold method in Hthrow.
      rewrite Ha in Hthrow.
      destruct (operator_assign r a) as [? ?|e0 v0| |] eqn:Hc; try done.
      apply operator_assign_throws in Hc as [-> ->]. simplify_eq.
      rewrite insert_id by done. eauto.
    + destruct Hpre as ([a Ha] & [r Hr]). destruct (decide (this = rhs)) as [->|].
      * by rewrite (move_assign_ref_self _ _ _ Ha) in Hthrow.
      * by rewrite (move_assign_ref_other _ _ _ _ _ n Ha Hr) in Hthrow.
    + destruct Hpre as ([a Ha] & [b Hb]).
      destruct (swap_ref_ok _ _ _ _ _ Ha Hb) as (σ1 & Hs & _).
      by rewrite Hs in Hthrow.
Qed.

(** *** Insert, Erase and PopBack *)

Lemma inserted_pointwise d value v v' :
  wf v → d ≤ size_ v → wf v' → size_ v' = size_ v + 1 →
  (∀ k, (k ≤ N.to_nat (size_ v))%nat → items_ v' !! k =
        if decide (k < N.to_nat d)%nat then items_ v !! k
        else if decide (k = N.to_nat d) then Some value
        else items_ v !! (k - 1)%nat) →
  inserted d value v v'.
Proof using Type. clear max_alloc_range.
  intros (Hl & Hs & Hc) Hd Hwf' Hs' Hk. split_and!; try done.
  unfold elems. rewrite Hs'. apply list_eq. intros k. lookups.
  case_decide; [rewrite Hk by lia|]; cases.
Qed.

Lemma Insert_inserted pos value v :
  wf v → iter_le (begin v) pos && iter_le pos (end_ v) = true →
  (size_ v = cap_ v → 2 * cap_ v ≤ max_alloc) →
  iter_offset pos ≤ size_ v
  ∧ ∃ v', Insert pos (ext value) v = Ok (slot (iter_offset pos)) v'
      ∧ inserted (iter_offset pos) value v v'.
Proof.
  intros Hwf Hpos Hmax. pose proof Hwf as (Hl & Hs & Hc).
  destruct (valid_insert_position v pos Hwf Hpos)
    as [[Hcap ->]|(Hcap & d & -> & Hd)]; simpl.
  - split; [lia|]. eexists. split; [by apply Insert_empty|].
    apply inserted_pointwise; simpl; try done; try lia; [wf_tac|].
    intros k Hk. replace k with 0%nat by lia. done.
  - split; [done|]. destruct (N.lt_ge_cases (size_ v) (cap_ v)) as [Hlt|Hge].
    + destruct (Insert_room (slot d) value v) as (items' & -> & Hlen & Hk);
        [done..|].
      eexists. split; [done|].
      apply inserted_pointwise; simpl; try done. wf_tac.
    + specialize (Hmax ltac:(lia)).
      eexists. split; [apply Insert_grow; try done; lia|].
      apply inserted_pointwise; simpl; try done; [wf_tac|].
      intros k Hk. lookups. cases.
Qed.

Lemma Insert_move_inserted pos value v :
  wf v → iter_le (begin v) pos && iter_le pos (end_ v) = true →
  (size_ v = cap_ v → 2 * cap_ v ≤ max_alloc) →
  ∃ v' value',
    Insert_move pos (ext value) v = Ok (slot (iter_offset pos), ext value') v'
    ∧ inserted (iter_offset pos) value v v'.
Proof.
  intros Hwf Hpos Hmax. pose proof Hwf as (Hl & Hs & Hc).
  destruct (valid_insert_position v pos Hwf Hpos)
    as [[Hcap ->]|(Hcap & d & -> & Hd)]; simpl.
  - eexists _, _. split; [by apply Insert_move_empty|].
    apply inserted_pointwise; simpl; try done; try lia; [wf_tac|].
    intros k Hk. replace k with 0%nat by lia. done.
  - destruct (N.lt_ge_cases (size_ v) (cap_ v)) as [Hlt|Hge].
    + destruct (Insert_move_room (slot d) value v)
        as (items' & value' & -> & Hlen & Hk); [done..|].
      eexists _, _. split; [done|].
      apply inserted_pointwise; simpl; try done. wf_tac.
    + specialize (Hmax ltac:(lia)).
      eexists _, _. split; [apply Insert_move_grow; try done; lia|].
      apply inserted_pointwise; simpl; try done; [wf_tac|].
      intros k Hk. lookups. cases.
Qed.

(** X10, [Insert] (both overloads).  At a valid position of offset [d]
    (the doubled block being delivered when the container is full), the
    elements become those before index [d], the value stored, and those
    from index [d] on, in order; the size grows by one, and the iterator
    returned is the slot of the value stored.  For an argument that is
    not a slot of the container the value stored is the argument's.  For
    the overload taking [const Type&] and an argument that names slot
    [i] of the container, the value stored is the one slot [i] held at
    the call, except when the container has room and [d < i <= size]:
    the reference is read after the elements were shifted, and the
    value stored is the one slot [i - 1] held. *)
Theorem Insert_spec (pos : Iterator) (value : T) (i : N) (v : SimpleVector) :
  wf v → iter_le (begin v) pos && iter_le pos (end_ v) = true →
  (size_ v = cap_ v → 2 * cap_ v ≤ max_alloc) →
  (∃ v', Insert pos (ext value) v = Ok (slot (iter_offset pos)) v'
     ∧ inserted (iter_offset pos) value v v'
     ∧ elems v' !! N.to_nat (iter_offset pos) = Some value)
  ∧ (∃ v' value',
       Insert_move pos (ext value) v
       = Ok (slot (iter_offset pos), ext value') v'
       ∧ inserted (iter_offset pos) value v v'
       ∧ elems v' !! N.to_nat (iter_offset pos) = Some value)
  ∧ (i < cap_ v →
     ∃ v' x, Insert pos (elem i) v = Ok (slot (iter_offset pos)) v'
       ∧ inserted (iter_offset pos) x v v'
       ∧ elems v' !! N.to_nat (iter_offset pos) = Some x
       ∧ items_ v !! N.to_nat
           (if decide (size_ v < cap_ v ∧ iter_offset pos < i ≤ size_ v)
            then i - 1 else i) = Some x).
Proof.
  intros Hwf Hpos Hmax.
  destruct (Insert_inserted pos value v Hwf Hpos Hmax) as (Hd & v1 & H1 & Hi1).
  destruct (Insert_move_inserted pos value v Hwf Hpos Hmax)
    as (v2 & value' & H2 & Hi2).
  assert (∀ x v', inserted (iter_offset pos) x v v' →
                  elems v' !! N.to_nat (iter_offset pos) = Some x) as Hat.
  { intros x v' (_ & _ & ->). destruct Hwf as (Hl & Hs & Hc).
    unfold elems. lookups. cases. }
  split_and!; [exists v1|exists v2, value'|]; [split_and!; auto..|].
  intros Hi. destruct (Insert_elem pos i v Hwf Hpos Hi) as (x & Hx & ->).
  destruct (Insert_inserted pos x v Hwf Hpos Hmax) as (_ & v3 & H3 & Hi3).
  exists v3, x. split_and!; auto.
Qed.

Lemma Erase_erased pos v :
  wf v → iter_le (begin v) pos && iter_lt pos (end_ v) = true →
  iter_offset pos < size_ v
  ∧ ∃ v', Erase pos v = Ok (slot (iter_offset pos)) v'
      ∧ erased (iter_offset pos) v v'.
Proof.
  intros Hwf Hpos. pose proof Hwf as (Hl & Hs & Hc).
  destruct (valid_erase_position v pos Hwf Hpos) as (Hcap & d & -> & Hd).
  destruct (Erase_ok (slot d) v Hwf Hpos) as (items' & HE & Hlen & Hk).
  simpl in *. split; [done|]. eexists. split; [done|].
  split_and!; simpl; try done; [wf_tac|].
  unfold elems. simpl. apply list_eq. intros k. lookups.
  case_decide; [rewrite Hk by lia|]; cases.
Qed.

(** X11, [Erase].  At a position of offset [d] in [[begin, end)] the
    element of index [d] is removed and the elements after it move one
    slot down, in order; the size drops by one and the capacity stays.
    The iterator returned is the position given: it holds the element
    that followed the erased one, or is [end] when the last element was
    erased. *)
Theorem Erase_spec (pos : Iterator) (v : SimpleVector) :
  wf v → iter_le (begin v) pos && iter_lt pos (end_ v) = true →
  ∃ v', Erase pos v = Ok pos v'
    ∧ erased (iter_offset pos) v v'
    ∧ (iter_offset pos + 1 < size_ v →
       elems v' !! N.to_nat (iter_offset pos)
       = elems v !! S (N.to_nat (iter_offset pos)))
    ∧ (iter_offset pos + 1 = size_ v → pos = end_ v').
Proof.
  intros Hwf Hpos.
  destruct (Erase_erased pos v Hwf Hpos) as (Hd & v' & HE & Her).
  destruct (valid_erase_position v pos Hwf Hpos) as (Hcap & d & -> & _).
  simpl in *. exists v'. split_and!; try done.
  - intros Hlt. destruct Her as (_ & _ & _ & ->).
    destruct Hwf as (Hl & Hs & Hc). unfold elems. lookups. cases.
  - intros Heq. destruct Her as (Hwf' & Hs' & Hc' & _).
    rewrite wf_end by first [done|lia]. f_equal. lia.
Qed.

(** X12, [Insert] at [end].  Inserting a value at [end()] is [PushBack]
    of that value: the two leave the same container, or both throw
    [bad_alloc], and the iterator returned is the slot of the old
    size. *)
Theorem Insert_end_PushBack (value : T) (v : SimpleVector) :
  wf v →
  match PushBack value v with
  | Ok _ v' => Insert (end_ v) (ext value) v = Ok (slot (size_ v)) v'
  | Throw e v' => Insert (end_ v) (ext value) v = Throw e v'
  | AssertFail | UB => False
  end.
Proof.
  intros Hwf. pose proof Hwf as (Hl & Hs & Hc).
  assert (iter_le (begin v) (end_ v) && iter_le (end_ v) (end_ v) = true)
    as Hpos.
  { destruct (N.eq_dec (cap_ v) 0) as [Hcap|Hcap].
    - by destruct (begin_end_null v Hcap) as [-> ->].
    - rewrite wf_begin, wf_end by done. simpl.
      apply andb_true_iff. split; apply N.leb_le; lia. }
  destruct (N.lt_ge_cases (size_ v) (cap_ v)) as [Hlt|Hge].
  - rewrite PushBack_room by done.
    destruct (copy_backward_here_up copy_assign v (size_ v))
      as (buf' & Hcb & Hlen & Hb); [apply copy_assign_transfers|done|lia|done|].
    unfold Insert, incr_size. mrun. rewrite Hpos.
    destruct (N.eqb_spec (cap_ v) 0); [lia|].
    unfold cbegin, cend. fold (begin v) (end_ v).
    rewrite wf_begin, wf_end by done. simpl.
    destruct (N.leb_spec 0 (size_ v)); [|lia]. simpl. rewrite N.sub_0_r.
    destruct (N.ltb_spec (size_ v) (cap_ v)); [|lia].
    rewrite Hcb.
    destruct (lookup_lt_is_Some_2 buf' (N.to_nat (size_ v))) as [x Hx]; [lia|].
    erewrite assign_at_ok by exact Hx. simpl.
    rewrite wrap_small by lia.
    rewrite slot_addr_block by (rewrite length_insert; lia).
    f_equal. unfold with_size, with_items. simpl. f_equal.
    apply list_eq. intros k. rewrite !list_lookup_insert, Hlen.
    case_decide; [done|]. rewrite Hb by lia. cases.
  - destruct (N.eq_dec (cap_ v) 0) as [Hcap|Hcap].
    + rewrite PushBack_empty by done. rewrite Insert_empty by done.
      by replace (size_ v) with 0 by lia.
    + assert (size_ v = cap_ v) as Hfull by lia.
      destruct (N.le_gt_cases (2 * cap_ v) max_alloc).
      * rewrite PushBack_grow by done. rewrite Insert_grow by done.
        rewrite wf_end by done. simpl. f_equal. f_equal.
        rewrite take_ge, drop_ge by lia. done.
      * rewrite PushBack_throw by done. by rewrite Insert_throw.
Qed.

(** X13, [Erase] then [Insert].  Erasing the element at a position and
    inserting the erased value at the iterator [Erase] returns gives the
    elements back, in the block the container had: nothing is
    reallocated. *)
Theorem Insert_Erase (pos : Iterator) (x : T) (v : SimpleVector) :
  wf v → iter_le (begin v) pos && iter_lt pos (end_ v) = true →
  elems v !! N.to_nat (iter_offset pos) = Some x →
  ∃ q v1 r v2,
    Erase pos v = Ok q v1 ∧ Insert q (ext x) v1 = Ok r v2
    ∧ q = pos ∧ r = pos
    ∧ elems v2 = elems v ∧ size_ v2 = size_ v ∧ cap_ v2 = cap_ v.
Proof.
  intros Hwf Hpos Hx.
  destruct (Erase_erased pos v Hwf Hpos) as (Hd & v1 & HE & Her).
  destruct (valid_erase_position v pos Hwf Hpos) as (Hcap & d & -> & _).
  simpl in *. destruct Her as (Hwf1 & Hs1 & Hc1 & He1).
  pose proof Hwf as (Hl & Hs & Hc).
  assert (iter_le (begin v1) (slot d) && iter_le (slot d) (end_ v1) = true)
    as Hpos1.
  { rewrite wf_begin, wf_end by first [done|lia]. simpl.
    apply andb_true_iff. split; apply N.leb_le; lia. }
  destruct (Insert_room (slot d) x v1) as (items2 & HI & Hlen2 & Hk);
    [done|done|lia|].
  destruct (Insert_inserted (slot d) x v1 Hwf1 Hpos1) as (_ & v2 & HI2 & Hin);
    [lia|].
  rewrite HI in HI2. injection HI2 as <-.
  destruct Hin as (Hwf2 & Hs2 & He2). simpl in *.
  eexists _, v1, _, _. split_and!; try done; simpl; try lia.
  rewrite He2, He1.
  assert (length (take (N.to_nat d) (elems v)) = N.to_nat d) as Hlt.
  { unfold elems. lookups. lia. }
  rewrite take_app_length', drop_app_length' by done.
  by apply take_drop_middle.
Qed.

Lemma PushBack_appends x v :
  wf v → (size_ v = cap_ v → 2 * cap_ v ≤ max_alloc) →
  ∃ v1, PushBack x v = Ok tt v1 ∧ wf v1
    ∧ elems v1 = elems v ++ [x] ∧ size_ v1 = size_ v + 1.
Proof.
  intros Hwf Hmax. pose proof Hwf as (Hl & Hs & Hc).
  destruct (N.lt_ge_cases (size_ v) (cap_ v)) as [Hlt|Hge].
  - eexists. split; [by apply PushBack_room|].
    split_and!; simpl; [wf_tac|unfold elems; simpl|done].
    apply list_eq. intros k. lookups. cases.
  - specialize (Hmax ltac:(lia)). destruct (N.eq_dec (cap_ v) 0) as [Hcap|Hcap].
    + eexists. split; [by apply PushBack_empty|].
      split_and!; simpl; [wf_tac| |lia].
      unfold elems. assert (size_ v = 0) as -> by lia. done.
    + eexists. split; [apply PushBack_grow; try done; lia|].
      split_and!; simpl; [wf_tac|unfold elems; simpl|done].
      apply list_eq. intros k. lookups. cases.
Qed.

(** X14, [PushBack] then [PopBack].  Popping after a push (the doubled
    block being delivered when the container is full) leaves the elements
    and the size the container had before the push; [PopBack] on an empty
    container fails its assertion. *)
Theorem PopBack_PushBack (x : T) (v : SimpleVector) :
  wf v → (size_ v = cap_ v → 2 * cap_ v ≤ max_alloc) →
  (∃ v', (PushBack x;; PopBack) v = Ok tt v'
     ∧ elems v' = elems v ∧ size_ v' = size_ v ∧ wf v')
  ∧ (size_ v = 0 → PopBack v = AssertFail).
Proof.
  intros Hwf Hmax. split.
  - destruct (PushBack_appends x v Hwf Hmax) as (v1 & HP & Hwf1 & He1 & Hs1).
    unfold mbind, M_bind. rewrite HP, PopBack_ok by first [done|lia].
    eexists. split; [done|]. pose proof Hwf1 as (Hl1 & Hsc1 & Hc1).
    split_and!; simpl; [|lia|wf_tac].
    unfold elems in *. simpl.
    replace (size_ v1 - 1) with (size_ v) by lia.
    apply (f_equal (take (N.to_nat (size_ v)))) in He1.
    rewrite take_take in He1.
    replace (N.to_nat (size_ v) `min` N.to_nat (size_ v1))%nat
      with (N.to_nat (size_ v)) in He1 by lia.
    rewrite He1. destruct Hwf as (Hl & Hs & Hc).
    rewrite take_app_le by (lookups; lia). by rewrite take_take, Nat.min_id.
  - intros H0. unfold PopBack, IsEmpty. mrun. by rewrite H0.
Qed.

(** *** Resize and Clear *)

(** X15, [Resize].  When the new size exceeds the capacity (the block of
    [max(new_size, 2 * capacity)] slots being delivered), when it exceeds
    the size by at most one, or when a moved-from default value of the
    element type is still the default value, [Resize] keeps the first
    [new_size] elements and sets every new one to the default value; the
    capacity changes only when the new size exceeds it. *)
Theorem Resize_spec (new_size : N) (v : SimpleVector) :
  wf v →
  (∀ d, T_moved d T_default = T_default) ∨ new_size ≤ size_ v + 1
    ∨ cap_ v < new_size →
  (cap_ v < new_size → N.max new_size (2 * cap_ v) ≤ max_alloc) →
  ∃ v', Resize new_size v = Ok tt v' ∧ wf v' ∧ size_ v' = new_size
    ∧ cap_ v' = (if decide (new_size ≤ cap_ v) then cap_ v
                 else N.max new_size (2 * cap_ v))
    ∧ elems v' = take (N.to_nat new_size) (elems v)
                 ++ replicate (N.to_nat (new_size - size_ v)) T_default.
Proof.
  intros Hwf Hcase Hmax. pose proof Hwf as (Hl & Hs & Hc).
  destruct (N.lt_ge_cases new_size (size_ v)) as [Hlt|Hge];
    [|destruct (N.le_gt_cases new_size (cap_ v)) as [Hle|Hgt]].
  - eexists. split; [by apply Resize_shrink|].
    split_and!; simpl; [wf_tac|done|by rewrite decide_True by lia|].
    unfold elems. simpl. apply list_eq. intros k. lookups. cases.
  - destruct (Resize_within new_size v Hwf) as
      (items' & -> & Hlen & Hout & Hfst & Hin); [lia|].
    eexists. split; [done|].
    split_and!; simpl; [wf_tac|done|by rewrite decide_True by lia|].
    unfold elems. simpl. apply list_eq. intros k. lookups.
    destruct (decide (k < N.to_nat (size_ v))%nat) as [Hk|Hk].
    + case_decide; [rewrite Hout by lia|]; cases.
    + case_decide; [|cases].
      destruct Hcase as [Hmv|[Hone|Hcap]]; [| |lia].
      * rewrite (Hin Hmv) by lia. cases.
      * replace k with (N.to_nat (size_ v)) by lia.
        rewrite Hfst by lia. cases.
  - specialize (Hmax Hgt). eexists. split; [by apply Resize_grow|].
    split_and!; simpl;
      [unfold elems; wf_tac|done|by rewrite decide_False by lia|].
    unfold elems. simpl. apply list_eq. intros k. lookups. cases.
Qed.

(** X16, [Clear].  [Clear] is [Resize(0)]; it keeps the block, so that a
    [PushBack] after it writes slot 0 of the same block and the capacity
    stays. *)
Theorem Clear_reuses_block (x : T) (v : SimpleVector) :
  wf v → 0 < cap_ v →
  Resize 0 v = Clear v
  ∧ (Clear;; PushBack x) v
    = Ok tt {| items_ := <[0%nat := x]> (items_ v); size_ := 1;
               cap_ := cap_ v |}.
Proof.
  intros Hwf Hcap. pose proof Hwf as (Hl & Hs & Hc). split.
  - unfold Resize, Clear. mrun. destruct (N.ltb_spec 0 (size_ v)); [done|].
    destruct (N.leb_spec 0 (cap_ v)); [|lia].
    replace (0 - size_ v) with 0 by lia. done.
  - unfold Clear, mbind, M_bind, modify. simpl.
    rewrite PushBack_room; simpl; [done|wf_tac|lia].
Qed.

(** *** The comparison operators *)

Lemma length_elems v : wf v → length (elems v) = N.to_nat (size_ v).
Proof using Type. clear max_alloc_range.
  intros (Hl & Hs & _). unfold elems. lookups. lia.
Qed.

Lemma all_eqb_spec l1 : ∀ l2,
  all_eqb l1 l2 = true ↔
  length l1 = length l2
  ∧ ∀ k x y, l1 !! k = Some x → l2 !! k = Some y → T_eqb x y = true.
Proof using Type. clear max_alloc_range.
  induction l1 as [|x l1 IH]; intros [|y l2]; simpl; try (split; [done|]).
  - done.
  - by intros [? _].
  - by intros [? _].
  - rewrite andb_true_iff, IH. split.
    + intros (Hxy & Hlen & Hk). split; [by f_equal|].
      intros [|k] x' y' Hx' Hy'; simpl in *; [by simplify_eq|by eapply Hk].
    + intros (Hlen & Hk). split_and!.
      * by apply (Hk 0%nat).
      * by injection Hlen.
      * intros k x' y' Hx' Hy'. by apply (Hk (S k)).
Qed.

Lemma operator_eq_all_eqb a b :
  wf a → wf b → operator_eq a b = Some (all_eqb (elems a) (elems b)).
Proof.
  intros Ha Hb. destruct (operator_eq_spec a b Ha Hb) as (e & -> & He).
  f_equal. apply eq_true_iff_eq. rewrite He, all_eqb_spec.
  rewrite !length_elems by done. split; intros [Hs Hk]; (split; [lia|done]).
Qed.

Lemma lexicographical_loop_lex_lt n1 : ∀ a i n2 b j,
  (i + n1 ≤ length a)%nat → (j + n2 ≤ length b)%nat →
  lexicographical_loop n1 a i n2 b j
  = Some (lex_lt (take n1 (drop i a)) (take n2 (drop j b))).
Proof using Type. clear max_alloc_range.
  induction n1 as [|n1 IH]; intros a i [|n2] b j Ha Hb.
  - done.
  - destruct (lookup_lt_is_Some_2 b j) as [y Hy]; [lia|].
    by rewrite (drop_S _ _ _ Hy).
  - destruct (lookup_lt_is_Some_2 a i) as [x Hx]; [lia|].
    by rewrite (drop_S _ _ _ Hx).
  - destruct (lookup_lt_is_Some_2 a i) as [x Hx]; [lia|].
    destruct (lookup_lt_is_Some_2 b j) as [y Hy]; [lia|].
    rewrite (drop_S _ _ _ Hx), (drop_S _ _ _ Hy).
    cbn [lexicographical_loop take lex_lt]. rewrite Hx, Hy. simpl.
    destruct (T_ltb x y); [done|]. destruct (T_ltb y x); [done|].
    apply IH; lia.
Qed.

Lemma operator_lt_lex_lt a b :
  wf a → wf b → operator_lt a b = Some (lex_lt (elems a) (elems b)).
Proof using Type. clear max_alloc_range.
  intros Ha Hb. unfold operator_lt, begin_const, end_const.
  fold (begin a) (end_ a) (begin b) (end_ b).
  rewrite !wf_range by done. simpl.
  pose proof Ha as (Hla & Hsa & _). pose proof Hb as (Hlb & Hsb & _).
  rewrite lexicographical_loop_lex_lt by lia. by rewrite !drop_0.
Qed.

Lemma lex_lt_first_difference l1 : ∀ l2,
  lex_lt l1 l2 = true ↔
  ∃ k, (∀ j x y, (j < k)%nat → l1 !! j = Some x → l2 !! j = Some y →
                 T_ltb x y = false ∧ T_ltb y x = false)
    ∧ (k = length l1 ∧ (k < length l2)%nat
       ∨ ∃ x y, l1 !! k = Some x ∧ l2 !! k = Some y ∧ T_ltb x y = true).
Proof using Type. clear max_alloc_range.
  induction l1 as [|x l1 IH]; intros [|y l2]; simpl.
  - split; [done|]. intros (k & _ & [[_ ?]|(? & ? & ? & _)]); [lia|done].
  - split; [|done]. intros _. exists 0%nat.
    split; [lia|]. left. simpl. lia.
  - split; [done|]. intros (k & _ & [[_ ?]|(? & ? & _ & ? & _)]); [lia|done].
  - destruct (T_ltb x y) eqn:Hxy.
    { split; [|done]. intros _. exists 0%nat. split; [lia|].
      right. by exists x, y. }
    destruct (T_ltb y x) eqn:Hyx.
    { split; [done|]. intros ([|k] & Hall & Hd).
      - destruct Hd as [[? _]|(x' & y' & ? & ? & ?)]; [done|].
        simpl in *. congruence.
      - destruct (Hall 0%nat x y) as [_ ?]; [lia|done..|congruence]. }
    rewrite IH. split.
    + intros (k & Hall & Hd). exists (S k). split.
      * intros [|j] x' y' Hj Hx' Hy'; simpl in *;
          [by simplify_eq|eapply Hall; [|done..]; lia].
      * destruct Hd as [[-> ?]|Hd]; [left; simpl; lia|by right].
    + intros ([|k] & Hall & Hd).
      * destruct Hd as [[? _]|(x' & y' & ? & ? & ?)]; [done|].
        simpl in *. congruence.
      * exists k. split.
        -- intros j x' y' Hj Hx' Hy'. apply (Hall (S j)); [lia|done..].
        -- destruct Hd as [[Hk ?]|Hd]; [left; simpl in *; lia|by right].
Qed.

Section order.
Hypothesis T_ltb_asym : ∀ x y, T_ltb x y = true → T_ltb y x = false.

Lemma lex_lt_irrefl l : lex_lt l l = false.
Proof using T_ltb_asym. clear max_alloc_range.
  induction l as [|x l IH]; [done|]. simpl.
  pose proof (T_ltb_asym x x). by destruct (T_ltb x x); [auto|].
Qed.

Lemma lex_lt_asym l1 : ∀ l2, lex_lt l1 l2 = true → lex_lt l2 l1 = false.
Proof using T_ltb_asym. clear max_alloc_range.
  induction l1 as [|x l1 IH]; intros [|y l2]; simpl; try done.
  pose proof (T_ltb_asym x y). pose proof (T_ltb_asym y x).
  destruct (T_ltb x y), (T_ltb y x); auto.
Qed.

Lemma lex_lt_trans l1 : ∀ l2 l3,
  (∀ x y z, T_ltb x z = true → T_ltb x y = true ∨ T_ltb y z = true) →
  lex_lt l1 l2 = true → lex_lt l2 l3 = true → lex_lt l1 l3 = true.
Proof using T_ltb_asym.
  clear max_alloc_range T_default T_eqb T_moved T_self_moved.
  intros l2 l3 Hnt. revert l2 l3.
  induction l1 as [|x l1 IH]; intros [|y l2] [|z l3]; simpl; try done.
  pose proof (T_ltb_asym x y). pose proof (T_ltb_asym y x).
  pose proof (T_ltb_asym y z). pose proof (T_ltb_asym z y).
  pose proof (T_ltb_asym x z). pose proof (T_ltb_asym z x).
  pose proof (Hnt x z y). pose proof (Hnt z y x). pose proof (Hnt y x z).
  pose proof (Hnt x y z). pose proof (Hnt y z x). pose proof (Hnt z x y).
  destruct (T_ltb x y), (T_ltb y x), (T_ltb y z), (T_ltb z y),
    (T_ltb x z), (T_ltb z x);
    try done; try (exfalso; intuition congruence); apply IH.
Qed.

Lemma lex_lt_trichotomy l1 : ∀ l2,
  (∀ x y, T_eqb x y = true ↔ T_ltb x y = false ∧ T_ltb y x = false) →
  (lex_lt l1 l2 = true ∧ lex_lt l2 l1 = false ∧ all_eqb l1 l2 = false)
  ∨ (lex_lt l1 l2 = false ∧ lex_lt l2 l1 = true ∧ all_eqb l1 l2 = false)
  ∨ (lex_lt l1 l2 = false ∧ lex_lt l2 l1 = false ∧ all_eqb l1 l2 = true).
Proof using T_ltb_asym.
  clear max_alloc_range T_default T_moved T_self_moved.
  intros l2 Heq. revert l2.
  induction l1 as [|x l1 IH]; intros [|y l2]; simpl; auto.
  pose proof (T_ltb_asym x y). pose proof (T_ltb_asym y x).
  pose proof (Heq x y) as Hxy.
  destruct (T_ltb x y), (T_ltb y x), (T_eqb x y); simpl;
    try (exfalso; intuition congruence); auto.
Qed.
End order.

(** X17, [operator==] and [operator!=].  When [==] on elements decides
    their equality, two containers compare equal exactly when they hold
    the same elements in the same order: the capacity and the slots
    beyond the size play no part.  [!=] is the opposite. *)
Theorem operator_eq_iff (a b : SimpleVector) :
  (∀ x y, T_eqb x y = true ↔ x = y) → wf a → wf b →
  ∃ e, operator_eq a b = Some e ∧ operator_ne a b = Some (negb e)
    ∧ (e = true ↔ elems a = elems b).
Proof.
  intros Heq Ha Hb. unfold operator_ne.
  rewrite operator_eq_all_eqb by done. eexists. split_and!; try done.
  rewrite all_eqb_spec. split.
  - intros [Hlen Hk]. apply list_eq. intros k.
    destruct (elems a !! k) as [x|] eqn:Hx, (elems b !! k) as [y|] eqn:Hy;
      try done.
    + f_equal. apply Heq. by eapply Hk.
    + apply lookup_lt_Some in Hx. apply lookup_ge_None in Hy. lia.
    + apply lookup_ge_None in Hx. apply lookup_lt_Some in Hy. lia.
  - intros ->. split; [done|]. intros k x y Hx Hy. apply Heq. congruence.
Qed.

(** X18, [operator<].  [lhs < rhs] holds exactly when there is an index
    [k] up to which the elements of the two are equivalent (neither is
    less than the other) and at which either [lhs] ends while [rhs] goes
    on, or the element of [lhs] is less than the element of [rhs]. *)
Theorem operator_lt_spec (a b : SimpleVector) :
  wf a → wf b →
  ∃ r, operator_lt a b = Some r
    ∧ (r = true ↔
       ∃ k, (∀ j x y, (j < k)%nat →
               elems a !! j = Some x → elems b !! j = Some y →
               T_ltb x y = false ∧ T_ltb y x = false)
         ∧ (N.of_nat k = size_ a ∧ N.of_nat k < size_ b
            ∨ ∃ x y, elems a !! k = Some x ∧ elems b !! k = Some y
                     ∧ T_ltb x y = true)).
Proof using Type. clear max_alloc_range.
  intros Ha Hb. rewrite operator_lt_lex_lt by done. eexists. split; [done|].
  rewrite lex_lt_first_difference. rewrite !length_elems by done.
  split; intros (k & Hall & Hd); exists k; (split; [done|]);
    (destruct Hd as [[? ?]|Hd]; [left; lia|by right]).
Qed.

(** X19, [operator<] is a strict order.  When [<] on elements is
    asymmetric and negatively transitive (a strict weak order), [<] on
    containers is irreflexive, asymmetric and transitive. *)
Theorem operator_lt_strict_order (a b c : SimpleVector) :
  (∀ x y, T_ltb x y = true → T_ltb y x = false) →
  (∀ x y z, T_ltb x z = true → T_ltb x y = true ∨ T_ltb y z = true) →
  wf a → wf b → wf c →
  operator_lt a a = Some false
  ∧ (operator_lt a b = Some true → operator_lt b a = Some false)
  ∧ (operator_lt a b = Some true → operator_lt b c = Some true →
     operator_lt a c = Some true).
Proof using Type. clear max_alloc_range.
  intros Hasym Hnt Ha Hb Hc. rewrite !operator_lt_lex_lt by done.
  split_and!.
  - by rewrite lex_lt_irrefl.
  - intros [= H]. by rewrite lex_lt_asym.
  - intros [= H1] [= H2]. by rewrite (lex_lt_trans Hasym _ _ _ Hnt H1 H2).
Qed.

(** X20, the six comparisons agree.  When [<] on elements is asymmetric
    and [==] on elements holds exactly for equivalent elements, exactly
    one of [lhs < rhs], [lhs == rhs] and [lhs > rhs] holds; [<=] is
    [<] or [==], [>=] is [>] or [==], and [!=] is the opposite of
    [==]. *)
Theorem comparisons_consistent (a b : SimpleVector) :
  (∀ x y, T_ltb x y = true → T_ltb y x = false) →
  (∀ x y, T_eqb x y = true ↔ T_ltb x y = false ∧ T_ltb y x = false) →
  wf a → wf b →
  ∃ lt eq gt,
    operator_lt a b = Some lt ∧ operator_eq a b = Some eq
    ∧ operator_gt a b = Some gt
    ∧ operator_le a b = Some (lt || eq) ∧ operator_ge a b = Some (gt || eq)
    ∧ operator_ne a b = Some (negb eq)
    ∧ ((lt = true ∧ eq = false ∧ gt = false)
       ∨ (lt = false ∧ eq = true ∧ gt = false)
       ∨ (lt = false ∧ eq = false ∧ gt = true)).
Proof.
  intros Hasym Heq Ha Hb.
  unfold operator_ge, operator_le, operator_gt, operator_ne.
  rewrite !operator_lt_lex_lt, operator_eq_all_eqb by done.
  destruct (lex_lt_trichotomy Hasym (elems a) (elems b) Heq)
    as [(-> & -> & ->)|[(-> & -> & ->)|(-> & -> & ->)]];
    eexists _, _, _; split_and!; try done; auto.
Qed.

(** *** Assertions, element access and iteration *)

(** X21, the assertions of [PopBack], [Erase] and [Insert].  On a
    well-formed container the assertion of [PopBack] fails exactly on an
    empty container, that of [Erase] exactly for a position outside
    [[begin, end)], and that of [Insert] (both overloads, for a valid
    reference, which may name a slot of the container) exactly for a
    position outside [[begin, end]]. *)
Theorem assertions_guard (pos : Iterator) (value : ref) (v : SimpleVector) :
  wf v →
  (PopBack v = AssertFail ↔ size_ v = 0)
  ∧ (Erase pos v = AssertFail
     ↔ iter_le (begin v) pos && iter_lt pos (end_ v) = false)
  ∧ (ref_valid value v →
     (Insert pos value v = AssertFail
      ↔ iter_le (begin v) pos && iter_le pos (end_ v) = false))
  ∧ (ref_valid value v →
     (Insert_move pos value v = AssertFail
      ↔ iter_le (begin v) pos && iter_le pos (end_ v) = false)).
Proof.
  intros Hwf. split_and!.
  - destruct (N.eq_dec (size_ v) 0) as [H0|Hne].
    + split; [done|]. intros _. unfold PopBack, IsEmpty. mrun. by rewrite H0.
    + rewrite PopBack_ok by done. done.
  - destruct (iter_le (begin v) pos && iter_lt pos (end_ v)) eqn:Hpos.
    + pose proof (Erase_keeps pos v Hwf Hpos) as Hk.
      split; [|done]. intros HE. by rewrite HE in Hk.
    + split; [done|]. intros _. unfold Erase. mrun. by rewrite Hpos.
  - intros Hr. destruct (iter_le (begin v) pos && iter_le pos (end_ v)) eqn:Hpos.
    + pose proof (Insert_keeps pos value v Hwf Hpos Hr) as Hk.
      split; [|done]. intros HE. by rewrite HE in Hk.
    + split; [done|]. intros _. unfold Insert. mrun. by rewrite Hpos.
  - intros Hr. destruct (iter_le (begin v) pos && iter_le pos (end_ v)) eqn:Hpos.
    + pose proof (Insert_move_keeps pos value v Hwf Hpos Hr) as Hk.
      split; [|done]. intros HE. by rewrite HE in Hk.
    + split; [done|]. intros _. unfold Insert_move. mrun. by rewrite Hpos.
Qed.

(** X22, writing through [operator[]] and [At].  For an index below the
    size the two designate the same slot, and a write through the
    reference replaces exactly that element.  At the index equal to the
    size [operator[]] still returns a reference: a write through it
    changes no element when the size is below the capacity, and is
    undefined when the container is full. *)
Theorem operator_index_write (index : N) (x : T) (v : SimpleVector) :
  wf v →
  (index < size_ v →
   ∃ v', (r ← operator_index index; assign_at r x) v = Ok tt v'
     ∧ (r ← At index; assign_at r x) v = Ok tt v'
     ∧ elems v' = <[N.to_nat index := x]> (elems v)
     ∧ size_ v' = size_ v ∧ cap_ v' = cap_ v)
  ∧ (index = size_ v → size_ v < cap_ v →
     ∃ v', (r ← operator_index index; assign_at r x) v = Ok tt v'
       ∧ elems v' = elems v ∧ size_ v' = size_ v ∧ cap_ v' = cap_ v)
  ∧ (index = size_ v → size_ v = cap_ v →
     (r ← operator_index index; assign_at r x) v = UB).
Proof using Type. clear max_alloc_range.
  intros (Hl & Hs & Hc). split_and!.
  - intros Hlt.
    destruct (lookup_lt_is_Some_2 (items_ v) (N.to_nat index)) as [d Hd];
      [lia|].
    eexists. split_and!.
    + unfold operator_index. mrun. destruct (N.leb_spec index (size_ v)); [|lia].
      by erewrite assign_at_ok.
    + unfold At. mrun. destruct (N.leb_spec (size_ v) index); [lia|].
      by erewrite assign_at_ok.
    + unfold elems. simpl. apply list_eq. intros k. lookups. cases.
    + done.
    + done.
  - intros -> Hlt.
    destruct (lookup_lt_is_Some_2 (items_ v) (N.to_nat (size_ v))) as [d Hd];
      [lia|].
    eexists. split_and!.
    + unfold operator_index. mrun.
      destruct (N.leb_spec (size_ v) (size_ v)); [|lia].
      by erewrite assign_at_ok.
    + unfold elems. simpl. apply list_eq. intros k. lookups. cases.
    + done.
    + done.
  - intros -> Hfull. unfold operator_index, assign_at, assign_slot. mrun.
    destruct (N.leb_spec (size_ v) (size_ v)); [|lia].
    by rewrite lookup_ge_None_2 by lia.
Qed.

(** X23, the range [[begin, end)].  On a well-formed container [begin]
    is not after [end], the distance between them is the size, and the
    range read from [begin] to [end] is the elements in order; the const
    overloads give the same range. *)
Theorem begin_end_range (v : SimpleVector) :
  wf v →
  iter_le (begin v) (end_ v) = true
  ∧ distance (begin v) (end_ v) = Some (size_ v)
  ∧ read_range (items_ v) (begin v) (end_ v) = Some (elems v)
  ∧ read_range (items_ v) (cbegin v) (cend v) = Some (elems v)
  ∧ length (elems v) = N.to_nat (size_ v).
Proof using Type. clear max_alloc_range.
  intros Hwf. pose proof Hwf as (Hl & Hs & Hc).
  assert (read_range (items_ v) (begin v) (end_ v) = Some (elems v)) as Hr.
  { unfold read_range. rewrite wf_range by done. simpl.
    by rewrite bool_decide_true by lia. }
  split_and!; try done.
  - destruct (N.eq_dec (cap_ v) 0) as [Hcap|Hcap].
    + by destruct (begin_end_null v Hcap) as [-> ->].
    + rewrite wf_begin, wf_end by done. simpl. apply N.leb_le. lia.
  - destruct (N.eq_dec (cap_ v) 0) as [Hcap|Hcap].
    + destruct (begin_end_null v Hcap) as [-> ->]. simpl. f_equal. lia.
    + rewrite wf_begin, wf_end by done. simpl.
      destruct (N.leb_spec 0 (size_ v)); [|lia]. by rewrite N.sub_0_r.
  - by apply length_elems.
Qed.

(** *** swap and the reserving constructor *)

(** X24, [swap] twice.  Swapping two containers and swapping them again
    leaves every object as it was, and [a.swap(b)] leaves the same
    objects as [b.swap(a)]. *)
Theorem swap_involutive (this other : nat) (a b : SimpleVector)
    (σ : gmap nat SimpleVector) :
  σ !! this = Some a → σ !! other = Some b →
  (swap_ref this other;; swap_ref this other) σ = Ok tt σ
  ∧ swap_ref other this σ = swap_ref this other σ.
Proof using Type. clear max_alloc_range.
  intros Ha Hb.
  destruct (swap_ref_ok this other a b σ Ha Hb) as (σ1 & H1 & Ht1 & Ho1 & Hc1).
  destruct (swap_ref_ok other this b a σ Hb Ha) as (σ2 & H2 & Ho2 & Ht2 & Hc2).
  destruct (swap_ref_ok this other b a σ1 Ht1 Ho1)
    as (σ3 & H3 & Ht3 & Ho3 & Hc3).
  split.
  - unfold mbind, M_bind. rewrite H1, H3. f_equal. apply map_eq. intros c.
    destruct (decide (c = this)) as [->|?]; [congruence|].
    destruct (decide (c = other)) as [->|?]; [congruence|].
    by rewrite Hc3, Hc1.
  - rewrite H1, H2. f_equal. apply map_eq. intros c.
    destruct (decide (c = this)) as [->|?]; [congruence|].
    destruct (decide (c = other)) as [->|?]; [congruence|].
    by rewrite Hc2, Hc1.
Qed.

(** X25, the reserving constructor.  [SimpleVector(Reserve(n))] builds an
    empty container of capacity [n], into which up to [n] elements are
    pushed without the capacity changing; when a block of [n] elements
    is not delivered it throws [bad_alloc]. *)
Theorem SimpleVector_proxy_spec (n : N) (l : list T) :
  (n ≤ max_alloc → N.of_nat (length l) ≤ n →
   ∃ v v', SimpleVector_proxy (Reserve_proxy n) init = Ok tt v
     ∧ size_ v = 0 ∧ cap_ v = n
     ∧ push_each l v = Ok tt v'
     ∧ size_ v' = N.of_nat (length l) ∧ cap_ v' = n ∧ elems v' = l)
  ∧ (max_alloc < n →
     SimpleVector_proxy (Reserve_proxy n) init = Throw bad_alloc init).
Proof.
  unfold SimpleVector_proxy, Reserve_proxy, ReserveProxyObj_of, Res. simpl.
  split.
  - intros Hn Hl. rewrite SimpleVector_reserve_ok by done.
    eexists _, _. split_and!; try done.
    + rewrite push_each_room; simpl; [done|wf_tac|lia].
    + done.
    + done.
    + unfold elems. simpl. rewrite take_app_length'; [done|lia].
  - apply SimpleVector_reserve_throw.
Qed.

End SimpleVector.

(** ** The properties at concrete containers

    The element type is [N].  Where the moved-from state matters, a move
    leaves the source holding [0] and value-initialisation gives [5], in
    the manner of a class whose move assignment is
    [x_ = std::exchange(other.x_, 0)] and whose default constructor sets
    [x_] to [5]. *)

(** C3, at a container of size [1] and capacity [3] resized to [3].
    [Resize] moves from the one value-initialised local [n] in every
    round of its loop: slot [1] receives the value-initialised value [5],
    and slot [2] receives what the first move left in [n], which is [0]
    and not the value-initialised value. *)
Theorem Resize_reuses_moved_from_value :
  Resize N 5 (λ _ _, 0) 100 3 {| items_ := [9; 7; 7]; size_ := 1; cap_ := 3 |}
  = Ok tt {| items_ := [9; 5; 0]; size_ := 3; cap_ := 3 |}
  ∧ [9; 5; 0] !! 2%nat ≠ Some 5.
Proof. split; [reflexivity|discriminate]. Qed.


(** C8, at the copy of a container of [2 ^ 31] elements.  [Create]
    counts the elements it copies with [int i]: after the element of
    index [INT_MAX] the increment overflows, which is undefined, so the
    copy constructor neither returns nor throws and no container is
    left for the invariant to hold of.  The container copied is
    well-formed and the call is within its preconditions. *)
Theorem Create_counter_overflows :
  wf N (2 ^ 62)
    {| items_ := replicate (N.to_nat (2 ^ 31)) 0;
       size_ := 2 ^ 31; cap_ := 2 ^ 31 |}
  ∧ pre N (Declare_copy N 1 0)
      {[ 0%nat := {| items_ := replicate (N.to_nat (2 ^ 31)) 0;
                     size_ := 2 ^ 31; cap_ := 2 ^ 31 |} ]}
  ∧ exec N 0 N.eqb (λ _ _, 0) (λ x, x) (2 ^ 62) (Declare_copy N 1 0)
      {[ 0%nat := {| items_ := replicate (N.to_nat (2 ^ 31)) 0;
                     size_ := 2 ^ 31; cap_ := 2 ^ 31 |} ]}
    = UB.
Proof.
  assert (1 ≤ 2 ^ 62 < 2 ^ 63) as Hmax by lia.
  assert (wf N (2 ^ 62)
            {| items_ := replicate (N.to_nat (2 ^ 31)) 0;
               size_ := 2 ^ 31; cap_ := 2 ^ 31 |}) as Hwf.
  { split; [apply length_replicate|]. split; cbn [size_ cap_]; lia. }
  split; [exact Hwf|]. split.
  - split; [apply lookup_singleton_ne; lia|].
    eexists. apply lookup_singleton_eq.
  - cbn [exec].
    assert (0 ≠ 1)%nat as Hne by lia.
    apply (declare_copy_overflow N 0 (2 ^ 62) Hmax 1 0 _ _
             (lookup_singleton_ne _ _ _ Hne) (lookup_singleton_eq _ _) Hwf).
    cbn [size_]. unfold INT_MAX. lia.
Qed.

(** C4 as stated fails when a container that holds a value which does
    not compare equal to itself (as a NaN does; here [0]) is assigned to
    itself: [operator==] gives false, the copy is made and swapped in,
    and the container, which is the right-hand side, has its capacity
    changed from [3] to [2]. *)
Lemma copy_assign_self_counterexample :
  operator_eq N (λ x y, negb (x =? 0) && (x =? y))
    {| items_ := [0; 1; 2]; size_ := 2; cap_ := 3 |}
    {| items_ := [0; 1; 2]; size_ := 2; cap_ := 3 |} = Some false
  ∧ ¬ ∃ σ',
      assign_ref N 0 (λ x y, negb (x =? 0) && (x =? y)) 100 0 0
        {[ 0%nat := {| items_ := [0; 1; 2]; size_ := 2; cap_ := 3 |} ]}
      = Ok tt σ'
      ∧ σ' !! 0%nat = Some {| items_ := [0; 1; 2]; size_ := 2; cap_ := 3 |}.
Proof.
  split; [reflexivity|]. intros (σ' & Hrun & Hb).
  assert (assign_ref N 0 (λ x y, negb (x =? 0) && (x =? y)) 100 0 0
            {[ 0%nat := {| items_ := [0; 1; 2]; size_ := 2; cap_ := 3 |} ]}
          = Ok tt {[ 0%nat := {| items_ := [0; 1]; size_ := 2; cap_ := 2 |} ]})
    as Heq by (vm_compute; reflexivity).
  rewrite Heq in Hrun. injection Hrun as <-.
  rewrite lookup_singleton_eq in Hb. discriminate Hb.
Qed.

(** C7 as stated fails when a container is move-assigned to itself: the
    call returns at once, and the source does not end with size [0] and
    capacity [0]. *)
Lemma move_assign_self_counterexample :
  ¬ ∃ σ' s',
      move_assign_ref N 0 0
        {[ 0%nat := {| items_ := [1; 2]; size_ := 2; cap_ := 2 |} ]}
      = Ok tt σ'
      ∧ σ' !! 0%nat = Some s' ∧ size_ N s' = 0 ∧ cap_ N s' = 0.
Proof.
  intros (σ' & s' & Hrun & Hs' & Hsize & _).
  erewrite move_assign_ref_self in Hrun by apply lookup_singleton_eq.
  injection Hrun as <-. rewrite lookup_singleton_eq in Hs'.
  injection Hs' as <-. discriminate Hsize.
Qed.

Lemma PushBack_spec_witness :
  1 ≤ 100 < 2 ^ 63
  ∧ wf N 100 {| items_ := [1; 2]; size_ := 2; cap_ := 2 |}
  ∧ ∃ v' item',
      PushBack N 0 100 7 {| items_ := [1; 2]; size_ := 2; cap_ := 2 |}
      = Ok tt v'
      ∧ PushBack_move N 0 (λ _ _, 0) (λ x, x) 100 (ext N 7)
          {| items_ := [1; 2]; size_ := 2; cap_ := 2 |} = Ok (ext N item') v'
      ∧ cap_ N v' = 4 ∧ size_ N v' = 3 ∧ elems N v' = [1; 2; 7].
Proof.
  assert (1 ≤ 100 < 2 ^ 63) as Hmax by lia.
  assert (wf N 100 {| items_ := [1; 2]; size_ := 2; cap_ := 2 |}) as Hwf
    by (repeat split; simpl; lia).
  split; [exact Hmax|]. split; [exact Hwf|].
  destruct (PushBack_spec N 0 (λ _ _, 0) (λ x, x) 100 Hmax 7 _ Hwf)
    as (_ & _ & Hgrow).
  destruct Hgrow as (v' & item' & H1 & H2 & Hc & _ & _ & Hs & He);
    [reflexivity|simpl; lia|simpl; lia|].
  exists v', item'. repeat split; assumption.
Defined.

Lemma Erase_Insert_witness :
  1 ≤ 100 < 2 ^ 63
  ∧ wf N 100 {| items_ := [1; 2; 3; 9]; size_ := 3; cap_ := 4 |}
  ∧ ∃ q v1 r v2,
      Insert N 0 100 (slot 1) (elem N 2)
        {| items_ := [1; 2; 3; 9]; size_ := 3; cap_ := 4 |} = Ok q v1
      ∧ q = slot 1
      ∧ Erase N (λ _ _, 0) q v1 = Ok r v2
      ∧ size_ N v2 = 3 ∧ elems N v2 = [1; 2; 3]
      ∧ operator_eq N N.eqb v2
          {| items_ := [1; 2; 3; 9]; size_ := 3; cap_ := 4 |} = Some true.
Proof.
  assert (1 ≤ 100 < 2 ^ 63) as Hmax by lia.
  assert (wf N 100 {| items_ := [1; 2; 3; 9]; size_ := 3; cap_ := 4 |}) as Hwf
    by (repeat split; simpl; lia).
  split; [exact Hmax|]. split; [exact Hwf|].
  destruct (Erase_Insert N 0 N.eqb (λ _ _, 0) 100 Hmax (slot 1) (elem N 2)
              _ Hwf)
    as (q & v1 & r & v2 & HI & Hq & HE & Hs & He & Heq);
    [reflexivity|simpl; lia|simpl; lia|].
  exists q, v1, r, v2. repeat split; try assumption.
  apply Heq. exact N.eqb_refl.
Defined.

Lemma copy_assign_spec_witness :
  1 ≤ 100 < 2 ^ 63
  ∧ wf N 100 {| items_ := [9; 7]; size_ := 2; cap_ := 2 |}
  ∧ wf N 100 {| items_ := [9; 8; 7]; size_ := 2; cap_ := 3 |}
  ∧ wf N 100 {| items_ := [9; 8; 5; 5]; size_ := 2; cap_ := 4 |}
  ∧ (∃ σ' a' b',
       assign_ref N 0 N.eqb 100 0 1
         (<[0%nat := {| items_ := [9; 7]; size_ := 2; cap_ := 2 |}]>
            {[ 1%nat := {| items_ := [9; 8; 7]; size_ := 2; cap_ := 3 |} ]})
       = Ok tt σ'
       ∧ σ' !! 0%nat = Some a' ∧ σ' !! 1%nat = Some b'
       ∧ a' = {| items_ := [9; 8]; size_ := 2; cap_ := 2 |}
       ∧ b' = {| items_ := [9; 8; 7]; size_ := 2; cap_ := 3 |})
  ∧ assign_ref N 0 N.eqb 100 0 1
      (<[0%nat := {| items_ := [9; 8; 5; 5]; size_ := 2; cap_ := 4 |}]>
         {[ 1%nat := {| items_ := [9; 8; 7]; size_ := 2; cap_ := 3 |} ]})
    = Ok tt (<[0%nat := {| items_ := [9; 8; 5; 5]; size_ := 2; cap_ := 4 |}]>
               {[ 1%nat := {| items_ := [9; 8; 7]; size_ := 2; cap_ := 3 |} ]}).
Proof.
  assert (1 ≤ 100 < 2 ^ 63) as Hmax by lia.
  assert (wf N 100 {| items_ := [9; 7]; size_ := 2; cap_ := 2 |}) as Ha
    by (repeat split; simpl; lia).
  assert (wf N 100 {| items_ := [9; 8; 7]; size_ := 2; cap_ := 3 |}) as Hb
    by (repeat split; simpl; lia).
  assert (wf N 100 {| items_ := [9; 8; 5; 5]; size_ := 2; cap_ := 4 |}) as Hc
    by (repeat split; simpl; lia).
  split; [exact Hmax|]. split; [exact Ha|]. split; [exact Hb|].
  split; [exact Hc|]. split.
  - destruct (copy_assign_spec N 0 N.eqb 100 Hmax 0 1
                {| items_ := [9; 7]; size_ := 2; cap_ := 2 |}
                {| items_ := [9; 8; 7]; size_ := 2; cap_ := 3 |}
                (<[0%nat := {| items_ := [9; 7]; size_ := 2; cap_ := 2 |}]>
                   {[ 1%nat := {| items_ := [9; 8; 7]; size_ := 2; cap_ := 3 |} ]}))
      as (e & He & _ & _ & Hcopy);
      [vm_compute; reflexivity|vm_compute; reflexivity|exact Ha|exact Hb|].
    assert (e = false) as Hf by (vm_compute in He; congruence).
    destruct (Hcopy Hf) as (σ' & a' & b' & H1 & H2 & H3 & H4 & _ & _ & H5 & _);
      [unfold INT_MAX; simpl; lia|].
    exists σ', a', b'. split; [exact H1|]. split; [exact H2|].
    split; [exact H3|]. split; [exact H4|]. apply H5. lia.
  - destruct (copy_assign_spec N 0 N.eqb 100 Hmax 0 1
                {| items_ := [9; 8; 5; 5]; size_ := 2; cap_ := 4 |}
                {| items_ := [9; 8; 7]; size_ := 2; cap_ := 3 |}
                (<[0%nat := {| items_ := [9; 8; 5; 5]; size_ := 2; cap_ := 4 |}]>
                   {[ 1%nat := {| items_ := [9; 8; 7]; size_ := 2; cap_ := 3 |} ]}))
      as (e & He & _ & Hsame & _);
      [vm_compute; reflexivity|vm_compute; reflexivity|exact Hc|exact Hb|].
    apply Hsame. vm_compute in He. congruence.
Defined.

Lemma At_spec_witness :
  wf N 100 {| items_ := [0; 0; 0]; size_ := 3; cap_ := 3 |}
  ∧ At N 5 {| items_ := [0; 0; 0]; size_ := 3; cap_ := 3 |}
    = Throw out_of_range {| items_ := [0; 0; 0]; size_ := 3; cap_ := 3 |}
  ∧ At N 2 {| items_ := [0; 0; 0]; size_ := 3; cap_ := 3 |}
    = Ok 2 {| items_ := [0; 0; 0]; size_ := 3; cap_ := 3 |}
  ∧ ∃ x, elems N {| items_ := [0; 0; 0]; size_ := 3; cap_ := 3 |} !! 2%nat
         = Some x.
Proof.
  assert (wf N 100 {| items_ := [0; 0; 0]; size_ := 3; cap_ := 3 |}) as Hwf
    by (repeat split; simpl; lia).
  split; [exact Hwf|].
  split; [apply (At_spec N 100 5 {| items_ := [0; 0; 0]; size_ := 3; cap_ := 3 |});
          simpl; lia|].
  split; [apply (At_spec N 100 2 {| items_ := [0; 0; 0]; size_ := 3; cap_ := 3 |});
          simpl; lia|].
  destruct (At_spec N 100 2 {| items_ := [0; 0; 0]; size_ := 3; cap_ := 3 |})
    as (_ & _ & _ & Hget).
  destruct (Hget Hwf) as (x & Hx & _); [simpl; lia|].
  exists x. exact Hx.
Defined.

Lemma move_spec_witness :
  ∃ σ1 σ2,
    declare_move N 2 1
      (<[0%nat := {| items_ := [1]; size_ := 1; cap_ := 1 |}]>
         {[ 1%nat := {| items_ := [2; 3]; size_ := 1; cap_ := 2 |} ]})
    = Ok tt σ1
    ∧ σ1 !! 1%nat = Some (init N)
    ∧ σ1 !! 2%nat = Some {| items_ := [2; 3]; size_ := 1; cap_ := 2 |}
    ∧ move_assign_ref N 0 1
        (<[0%nat := {| items_ := [1]; size_ := 1; cap_ := 1 |}]>
           {[ 1%nat := {| items_ := [2; 3]; size_ := 1; cap_ := 2 |} ]})
      = Ok tt σ2
    ∧ σ2 !! 1%nat = Some (init N)
    ∧ σ2 !! 0%nat = Some {| items_ := [2; 3]; size_ := 1; cap_ := 2 |}.
Proof.
  destruct (move_spec N 2 0 1
              {| items_ := [1]; size_ := 1; cap_ := 1 |}
              {| items_ := [2; 3]; size_ := 1; cap_ := 2 |}
              (<[0%nat := {| items_ := [1]; size_ := 1; cap_ := 1 |}]>
                 {[ 1%nat := {| items_ := [2; 3]; size_ := 1; cap_ := 2 |} ]}))
    as (Hctor & Hassign & _);
    [vm_compute; reflexivity|vm_compute; reflexivity|].
  destruct Hctor as (σ1 & H1 & H2 & H3); [vm_compute; reflexivity|].
  destruct Hassign as (σ2 & H4 & H5 & H6); [discriminate|].
  exists σ1, σ2. repeat split; assumption.
Defined.

Lemma exec_preserves_invariant_witness :
  1 ≤ 100 < 2 ^ 63
  ∧ map_Forall (λ _, wf N 100)
      ({[ 0%nat := {| items_ := [1; 2]; size_ := 2; cap_ := 2 |} ]}
       : gmap nat (SimpleVector N))
  ∧ pre N (Call_PushBack_move N 0 (elem N 0))
      {[ 0%nat := {| items_ := [1; 2]; size_ := 2; cap_ := 2 |} ]}
  ∧ int_counted N (Call_PushBack_move N 0 (elem N 0))
      {[ 0%nat := {| items_ := [1; 2]; size_ := 2; cap_ := 2 |} ]}
  ∧ ∃ σ',
      final_state
        (exec N 0 N.eqb (λ _ _, 0) (λ x, x) 100
           (Call_PushBack_move N 0 (elem N 0))
           {[ 0%nat := {| items_ := [1; 2]; size_ := 2; cap_ := 2 |} ]})
      = Some σ'
      ∧ map_Forall (λ _ v, wf N 100 v ∧ invariant N v) σ'.
Proof.
  assert (1 ≤ 100 < 2 ^ 63) as Hmax by lia.
  assert (map_Forall (λ _, wf N 100)
            ({[ 0%nat := {| items_ := [1; 2]; size_ := 2; cap_ := 2 |} ]}
             : gmap nat (SimpleVector N))) as Hσ
    by (apply map_Forall_singleton; repeat split; simpl; lia).
  assert (pre N (Call_PushBack_move N 0 (elem N 0))
            {[ 0%nat := {| items_ := [1; 2]; size_ := 2; cap_ := 2 |} ]}) as Hpre
    by (simpl; eexists; split; [vm_compute; reflexivity|simpl; lia]).
  assert (int_counted N (Call_PushBack_move N 0 (elem N 0))
            {[ 0%nat := {| items_ := [1; 2]; size_ := 2; cap_ := 2 |} ]}) as Hint
    by exact I.
  split; [exact Hmax|]. split; [exact Hσ|]. split; [exact Hpre|].
  split; [exact Hint|].
  exact (exec_preserves_invariant N 0 N.eqb (λ _ _, 0) (λ x, x) 100 Hmax _ _
           Hσ Hpre Hint).
Defined.

Lemma swap_spec_witness :
  ∃ σ',
    swap_ref N 0 1
      (<[0%nat := {| items_ := [1]; size_ := 1; cap_ := 1 |}]>
         {[ 1%nat := {| items_ := [2; 3]; size_ := 1; cap_ := 2 |} ]})
    = Ok tt σ'
    ∧ σ' !! 0%nat = Some {| items_ := [2; 3]; size_ := 1; cap_ := 2 |}
    ∧ σ' !! 1%nat = Some {| items_ := [1]; size_ := 1; cap_ := 1 |}.
Proof.
  destruct (swap_spec N 0 1
              {| items_ := [1]; size_ := 1; cap_ := 1 |}
              {| items_ := [2; 3]; size_ := 1; cap_ := 2 |}
              (<[0%nat := {| items_ := [1]; size_ := 1; cap_ := 1 |}]>
                 {[ 1%nat := {| items_ := [2; 3]; size_ := 1; cap_ := 2 |} ]}))
    as (σ' & H1 & H2 & H3 & _);
    [vm_compute; reflexivity|vm_compute; reflexivity|].
  exists σ'. repeat split; assumption.
Defined.

Lemma begin_end_spec_witness :
  wf N 100 {| items_ := [5; 5; 5; 5]; size_ := 0; cap_ := 4 |}
  ∧ begin N {| items_ := [5; 5; 5; 5]; size_ := 0; cap_ := 4 |}
    = end_ N {| items_ := [5; 5; 5; 5]; size_ := 0; cap_ := 4 |}
  ∧ begin N {| items_ := [5; 5; 5; 5]; size_ := 0; cap_ := 4 |} ≠ nullptr.
Proof.
  assert (wf N 100 {| items_ := [5; 5; 5; 5]; size_ := 0; cap_ := 4 |}) as Hwf
    by (repeat split; simpl; lia).
  split; [exact Hwf|].
  destruct (begin_end_spec N 100 _ Hwf) as (Heq & _ & Hnn & _).
  split; [apply Heq; reflexivity|apply Hnn; simpl; lia].
Defined.

(** ** The further properties at concrete containers *)

Lemma SimpleVector_sized_spec_witness :
  1 ≤ 100 < 2 ^ 63
  ∧ ∃ v, SimpleVector_sized N 0 100 3 (init N) = Ok tt v
      ∧ size_ N v = 3 ∧ cap_ N v = 3 ∧ elems N v = [0; 0; 0].
Proof.
  assert (1 ≤ 100 < 2 ^ 63) as Hmax by lia.
  split; [exact Hmax|].
  destruct (SimpleVector_sized_spec N 0 100 Hmax 3) as [Hok _].
  destruct Hok as (v & H1 & H2 & H3 & H4 & _); [lia|].
  exists v. repeat split; assumption.
Defined.

Lemma SimpleVector_fill_spec_witness :
  1 ≤ 100 < 2 ^ 63
  ∧ ∃ v, SimpleVector_fill N 0 100 2 7 (init N) = Ok tt v
      ∧ size_ N v = 2 ∧ cap_ N v = 2 ∧ elems N v = [7; 7].
Proof.
  assert (1 ≤ 100 < 2 ^ 63) as Hmax by lia.
  split; [exact Hmax|].
  destruct (SimpleVector_fill_spec N 0 100 Hmax 2 7) as [Hok _].
  destruct Hok as (v & H1 & H2 & H3 & H4 & _); [lia|].
  exists v. repeat split; assumption.
Defined.

Lemma SimpleVector_list_spec_witness :
  1 ≤ 100 < 2 ^ 63
  ∧ N.of_nat (length [4; 5; 6]) ≤ INT_MAX
  ∧ ∃ v, SimpleVector_list N 0 100 [4; 5; 6] (init N) = Ok tt v
      ∧ elems N v = [4; 5; 6] ∧ size_ N v = 3 ∧ cap_ N v = 3.
Proof.
  assert (1 ≤ 100 < 2 ^ 63) as Hmax by lia.
  assert (N.of_nat (length [4; 5; 6]) ≤ INT_MAX) as Hint
    by (unfold INT_MAX; simpl; lia).
  split; [exact Hmax|]. split; [exact Hint|].
  destruct (SimpleVector_list_spec N 0 100 Hmax [4; 5; 6] Hint) as [Hok _].
  destruct Hok as (v & H1 & H2 & H3 & H4 & _); [simpl; lia|].
  exists v. repeat split; assumption.
Defined.

Lemma declare_copy_spec_witness :
  1 ≤ 100 < 2 ^ 63
  ∧ wf N 100 {| items_ := [1; 2; 3; 9]; size_ := 3; cap_ := 4 |}
  ∧ ∃ c, declare_copy N 0 100 0 1
           {[ 1%nat := {| items_ := [1; 2; 3; 9]; size_ := 3; cap_ := 4 |} ]}
         = Ok tt (<[0%nat := c]>
                    {[ 1%nat := {| items_ := [1; 2; 3; 9]; size_ := 3; cap_ := 4 |} ]})
      ∧ elems N c = [1; 2; 3] ∧ size_ N c = 3 ∧ cap_ N c = 3.
Proof.
  assert (1 ≤ 100 < 2 ^ 63) as Hmax by lia.
  assert (wf N 100 {| items_ := [1; 2; 3; 9]; size_ := 3; cap_ := 4 |}) as Hwf
    by (repeat split; simpl; lia).
  split; [exact Hmax|]. split; [exact Hwf|].
  destruct (declare_copy_spec N 0 N.eqb 100 Hmax 0 1
              {| items_ := [1; 2; 3; 9]; size_ := 3; cap_ := 4 |}
              {[ 1%nat := {| items_ := [1; 2; 3; 9]; size_ := 3; cap_ := 4 |} ]})
    as [Hcopy _];
    [vm_compute; reflexivity|vm_compute; reflexivity|exact Hwf|].
  destruct Hcopy as (c & H1 & H2 & H3 & H4 & _);
    [unfold INT_MAX; simpl; lia|].
  exists c. repeat split; assumption.
Defined.

Lemma push_each_from_empty_witness :
  1 ≤ 100 < 2 ^ 63
  ∧ ∃ v, push_each N 0 100 [1; 2; 3] (init N) = Ok tt v
      ∧ elems N v = [1; 2; 3] ∧ size_ N v = 3
      ∧ ∃ k, cap_ N v = 2 ^ k ∧ 3 ≤ cap_ N v < 6.
Proof.
  assert (1 ≤ 100 < 2 ^ 63) as Hmax by lia.
  split; [exact Hmax|].
  destruct (push_each_from_empty N 0 100 Hmax [1; 2; 3])
    as (v & H1 & H2 & H3 & _ & _ & Hcap); [simpl; lia|].
  exists v. split; [exact H1|]. split; [exact H2|]. split; [exact H3|].
  apply Hcap. discriminate.
Defined.

Lemma Reserve_spec_witness :
  1 ≤ 100 < 2 ^ 63
  ∧ wf N 100 {| items_ := [1; 2]; size_ := 2; cap_ := 2 |}
  ∧ ∃ v', Reserve N 0 (λ _ _, 0) 100 5 {| items_ := [1; 2]; size_ := 2; cap_ := 2 |}
          = Ok tt v'
      ∧ cap_ N v' = 5 ∧ size_ N v' = 2 ∧ elems N v' = [1; 2].
Proof.
  assert (1 ≤ 100 < 2 ^ 63) as Hmax by lia.
  assert (wf N 100 {| items_ := [1; 2]; size_ := 2; cap_ := 2 |}) as Hwf
    by (repeat split; simpl; lia).
  split; [exact Hmax|]. split; [exact Hwf|].
  destruct (Reserve_spec N 0 (λ _ _, 0) 100 Hmax 5 _ Hwf) as (_ & Hgrow & _).
  destruct Hgrow as (v' & H1 & H2 & H3 & H4 & _); [simpl; lia|lia|].
  exists v'. repeat split; assumption.
Defined.

Lemma Reserve_push_each_witness :
  1 ≤ 100 < 2 ^ 63
  ∧ wf N 100 {| items_ := [1; 2]; size_ := 2; cap_ := 2 |}
  ∧ ∃ v', (Reserve N 0 (λ _ _, 0) 100 4;; push_each N 0 100 [7; 8])
            {| items_ := [1; 2]; size_ := 2; cap_ := 2 |} = Ok tt v'
      ∧ cap_ N v' = 4 ∧ size_ N v' = 4 ∧ elems N v' = [1; 2; 7; 8].
Proof.
  assert (1 ≤ 100 < 2 ^ 63) as Hmax by lia.
  assert (wf N 100 {| items_ := [1; 2]; size_ := 2; cap_ := 2 |}) as Hwf
    by (repeat split; simpl; lia).
  split; [exact Hmax|]. split; [exact Hwf|].
  destruct (Reserve_push_each N 0 (λ _ _, 0) 100 Hmax 4 [7; 8] _ Hwf)
    as (v' & H1 & H2 & H3 & H4); [lia|simpl; lia|].
  exists v'. repeat split; assumption.
Defined.


Lemma exec_throw_unchanged_witness :
  1 ≤ 3 < 2 ^ 63
  ∧ map_Forall (λ _, wf N 3)
      ({[ 0%nat := {| items_ := [1; 2]; size_ := 2; cap_ := 2 |} ]} : gmap nat (SimpleVector N))
  ∧ exec N 0 N.eqb (λ _ _, 0) (λ x, x) 3 (Call_PushBack N 0 7)
      {[ 0%nat := {| items_ := [1; 2]; size_ := 2; cap_ := 2 |} ]}
    = Throw bad_alloc {[ 0%nat := {| items_ := [1; 2]; size_ := 2; cap_ := 2 |} ]}
  ∧ (bad_alloc = bad_alloc
     ∨ ∃ this index, Call_PushBack N 0 7 = Call_At N this index).
Proof.
  assert (1 ≤ 3 < 2 ^ 63) as Hmax by lia.
  assert (map_Forall (λ _, wf N 3)
            ({[ 0%nat := {| items_ := [1; 2]; size_ := 2; cap_ := 2 |} ]} : gmap nat (SimpleVector N))) as Hσ
    by (apply map_Forall_singleton; repeat split; simpl; lia).
  assert (exec N 0 N.eqb (λ _ _, 0) (λ x, x) 3 (Call_PushBack N 0 7)
            {[ 0%nat := {| items_ := [1; 2]; size_ := 2; cap_ := 2 |} ]}
          = Throw bad_alloc {[ 0%nat := {| items_ := [1; 2]; size_ := 2; cap_ := 2 |} ]}) as Hrun
    by (vm_compute; reflexivity).
  split; [exact Hmax|]. split; [exact Hσ|]. split; [exact Hrun|].
  assert (pre N (Call_PushBack N 0 7)
            {[ 0%nat := {| items_ := [1; 2]; size_ := 2; cap_ := 2 |} ]}) as Hpre
    by (simpl; eexists; vm_compute; reflexivity).
  destruct (exec_throw_unchanged N 0 N.eqb (λ _ _, 0) (λ x, x) 3 Hmax _ _ _ _
              Hσ Hpre Hrun) as [_ He].
  exact He.
Defined.

Lemma Insert_spec_witness :
  1 ≤ 100 < 2 ^ 63
  ∧ wf N 100 {| items_ := [1; 2; 3; 9]; size_ := 3; cap_ := 4 |}
  ∧ (∃ v', Insert N 0 100 (slot 0) (ext N 7)
             {| items_ := [1; 2; 3; 9]; size_ := 3; cap_ := 4 |}
           = Ok (slot 0) v'
       ∧ elems N v' = [7; 1; 2; 3] ∧ size_ N v' = 4)
  ∧ (∃ v', Insert N 0 100 (slot 0) (elem N 2)
             {| items_ := [1; 2; 3; 9]; size_ := 3; cap_ := 4 |}
           = Ok (slot 0) v'
       ∧ elems N v' = [2; 1; 2; 3] ∧ size_ N v' = 4).
Proof.
  assert (1 ≤ 100 < 2 ^ 63) as Hmax by lia.
  assert (wf N 100 {| items_ := [1; 2; 3; 9]; size_ := 3; cap_ := 4 |}) as Hwf
    by (repeat split; simpl; lia).
  split; [exact Hmax|]. split; [exact Hwf|].
  destruct (Insert_spec N 0 (λ _ _, 0) (λ x, x) 100 Hmax (slot 0) 7 2 _ Hwf)
    as ((v1 & H1 & (_ & H2 & H3) & _) & _ & Helem);
    [reflexivity|simpl; lia|].
  split.
  - exists v1. repeat split; assumption.
  - destruct Helem as (v2 & x & H4 & (_ & H5 & H6) & _ & Hx); [simpl; lia|].
    vm_compute in Hx. injection Hx as <-.
    exists v2. repeat split; assumption.
Defined.

Lemma Erase_spec_witness :
  1 ≤ 100 < 2 ^ 63
  ∧ wf N 100 {| items_ := [1; 2; 3; 9]; size_ := 3; cap_ := 4 |}
  ∧ ∃ v', Erase N (λ _ _, 0) (slot 1) {| items_ := [1; 2; 3; 9]; size_ := 3; cap_ := 4 |}
          = Ok (slot 1) v'
      ∧ elems N v' = [1; 3] ∧ size_ N v' = 2 ∧ cap_ N v' = 4.
Proof.
  assert (1 ≤ 100 < 2 ^ 63) as Hmax by lia.
  assert (wf N 100 {| items_ := [1; 2; 3; 9]; size_ := 3; cap_ := 4 |}) as Hwf
    by (repeat split; simpl; lia).
  split; [exact Hmax|]. split; [exact Hwf|].
  destruct (Erase_spec N (λ _ _, 0) 100 Hmax (slot 1) _ Hwf)
    as (v' & H1 & (_ & H2 & H3 & H4) & _); [reflexivity|].
  exists v'. repeat split; assumption.
Defined.

Lemma Insert_end_PushBack_witness :
  1 ≤ 100 < 2 ^ 63
  ∧ wf N 100 {| items_ := [1; 2; 3; 9]; size_ := 3; cap_ := 4 |}
  ∧ Insert N 0 100 (end_ N {| items_ := [1; 2; 3; 9]; size_ := 3; cap_ := 4 |})
      (ext N 7)
      {| items_ := [1; 2; 3; 9]; size_ := 3; cap_ := 4 |}
    = Ok (slot 3) {| items_ := [1; 2; 3; 7]; size_ := 4; cap_ := 4 |}.
Proof.
  assert (1 ≤ 100 < 2 ^ 63) as Hmax by lia.
  assert (wf N 100 {| items_ := [1; 2; 3; 9]; size_ := 3; cap_ := 4 |}) as Hwf
    by (repeat split; simpl; lia).
  split; [exact Hmax|]. split; [exact Hwf|].
  exact (Insert_end_PushBack N 0 100 Hmax 7 _ Hwf).
Defined.

Lemma Insert_Erase_witness :
  1 ≤ 100 < 2 ^ 63
  ∧ wf N 100 {| items_ := [1; 2; 3; 9]; size_ := 3; cap_ := 4 |}
  ∧ ∃ q v1 r v2,
      Erase N (λ _ _, 0) (slot 1) {| items_ := [1; 2; 3; 9]; size_ := 3; cap_ := 4 |} = Ok q v1
      ∧ Insert N 0 100 q (ext N 2) v1 = Ok r v2
      ∧ q = slot 1 ∧ r = slot 1
      ∧ elems N v2 = [1; 2; 3] ∧ size_ N v2 = 3 ∧ cap_ N v2 = 4.
Proof.
  assert (1 ≤ 100 < 2 ^ 63) as Hmax by lia.
  assert (wf N 100 {| items_ := [1; 2; 3; 9]; size_ := 3; cap_ := 4 |}) as Hwf
    by (repeat split; simpl; lia).
  split; [exact Hmax|]. split; [exact Hwf|].
  exact (Insert_Erase N 0 (λ _ _, 0) 100 Hmax (slot 1) 2 _ Hwf
           eq_refl eq_refl).
Defined.

Lemma PopBack_PushBack_witness :
  1 ≤ 100 < 2 ^ 63
  ∧ wf N 100 {| items_ := [1; 2]; size_ := 2; cap_ := 2 |}
  ∧ ∃ v', (PushBack N 0 100 7;; PopBack N) {| items_ := [1; 2]; size_ := 2; cap_ := 2 |}
          = Ok tt v'
      ∧ elems N v' = [1; 2] ∧ size_ N v' = 2.
Proof.
  assert (1 ≤ 100 < 2 ^ 63) as Hmax by lia.
  assert (wf N 100 {| items_ := [1; 2]; size_ := 2; cap_ := 2 |}) as Hwf
    by (repeat split; simpl; lia).
  split; [exact Hmax|]. split; [exact Hwf|].
  destruct (PopBack_PushBack N 0 100 Hmax 7 _ Hwf)
    as [(v' & H1 & H2 & H3 & _) _]; [simpl; lia|].
  exists v'. repeat split; assumption.
Defined.

Lemma Resize_spec_witness :
  1 ≤ 100 < 2 ^ 63
  ∧ wf N 100 {| items_ := [1; 2; 3; 9]; size_ := 3; cap_ := 4 |}
  ∧ ∃ v', Resize N 5 (λ _ _, 0) 100 5 {| items_ := [1; 2; 3; 9]; size_ := 3; cap_ := 4 |}
          = Ok tt v'
      ∧ size_ N v' = 5 ∧ cap_ N v' = 8 ∧ elems N v' = [1; 2; 3; 5; 5].
Proof.
  assert (1 ≤ 100 < 2 ^ 63) as Hmax by lia.
  assert (wf N 100 {| items_ := [1; 2; 3; 9]; size_ := 3; cap_ := 4 |}) as Hwf
    by (repeat split; simpl; lia).
  split; [exact Hmax|]. split; [exact Hwf|].
  destruct (Resize_spec N 5 (λ _ _, 0) 100 Hmax 5 _ Hwf)
    as (v' & H1 & _ & H2 & H3 & H4);
    [right; right; simpl; lia|simpl; lia|].
  exists v'. repeat split; assumption.
Defined.

Lemma Clear_reuses_block_witness :
  1 ≤ 100 < 2 ^ 63
  ∧ wf N 100 {| items_ := [1; 2; 3; 9]; size_ := 3; cap_ := 4 |}
  ∧ (Clear N;; PushBack N 0 100 7) {| items_ := [1; 2; 3; 9]; size_ := 3; cap_ := 4 |}
    = Ok tt {| items_ := [7; 2; 3; 9]; size_ := 1; cap_ := 4 |}.
Proof.
  assert (1 ≤ 100 < 2 ^ 63) as Hmax by lia.
  assert (wf N 100 {| items_ := [1; 2; 3; 9]; size_ := 3; cap_ := 4 |}) as Hwf
    by (repeat split; simpl; lia).
  split; [exact Hmax|]. split; [exact Hwf|].
  apply (Clear_reuses_block N 0 (λ _ _, 0) 100 Hmax 7 _ Hwf). simpl. lia.
Defined.

Lemma operator_eq_iff_witness :
  1 ≤ 100 < 2 ^ 63
  ∧ wf N 100 {| items_ := [1; 2; 3; 9]; size_ := 3; cap_ := 4 |}
  ∧ wf N 100 {| items_ := [1; 2; 3]; size_ := 3; cap_ := 3 |}
  ∧ ∃ e, operator_eq N N.eqb {| items_ := [1; 2; 3; 9]; size_ := 3; cap_ := 4 |}
           {| items_ := [1; 2; 3]; size_ := 3; cap_ := 3 |} = Some e
      ∧ operator_ne N N.eqb {| items_ := [1; 2; 3; 9]; size_ := 3; cap_ := 4 |}
          {| items_ := [1; 2; 3]; size_ := 3; cap_ := 3 |} = Some (negb e)
      ∧ e = true.
Proof.
  assert (1 ≤ 100 < 2 ^ 63) as Hmax by lia.
  assert (wf N 100 {| items_ := [1; 2; 3; 9]; size_ := 3; cap_ := 4 |}) as Ha
    by (repeat split; simpl; lia).
  assert (wf N 100 {| items_ := [1; 2; 3]; size_ := 3; cap_ := 3 |}) as Hb
    by (repeat split; simpl; lia).
  split; [exact Hmax|]. split; [exact Ha|]. split; [exact Hb|].
  destruct (operator_eq_iff N N.eqb 100 Hmax _ _ N.eqb_eq Ha Hb)
    as (e & H1 & H2 & H3).
  exists e. split; [exact H1|]. split; [exact H2|]. apply H3. reflexivity.
Defined.

Lemma operator_lt_spec_witness :
  wf N 100 {| items_ := [1; 2]; size_ := 2; cap_ := 2 |}
  ∧ wf N 100 {| items_ := [1; 3; 0]; size_ := 2; cap_ := 3 |}
  ∧ ∃ r, operator_lt N N.ltb {| items_ := [1; 2]; size_ := 2; cap_ := 2 |}
           {| items_ := [1; 3; 0]; size_ := 2; cap_ := 3 |} = Some r
      ∧ r = true.
Proof.
  assert (wf N 100 {| items_ := [1; 2]; size_ := 2; cap_ := 2 |}) as Ha
    by (repeat split; simpl; lia).
  assert (wf N 100 {| items_ := [1; 3; 0]; size_ := 2; cap_ := 3 |}) as Hb
    by (repeat split; simpl; lia).
  split; [exact Ha|]. split; [exact Hb|].
  destruct (operator_lt_spec N N.ltb 100 _ _ Ha Hb) as (r & H1 & H2).
  exists r. split; [exact H1|]. apply H2. exists 1%nat. split.
  - intros j x y Hj Hx Hy. destruct j as [|j]; [|lia].
    injection Hx as <-. injection Hy as <-. split; reflexivity.
  - right. exists 2, 3. repeat split; reflexivity.
Defined.

Lemma operator_lt_strict_order_witness :
  wf N 100 {| items_ := [1; 2]; size_ := 2; cap_ := 2 |}
  ∧ wf N 100 {| items_ := [1; 3; 0]; size_ := 2; cap_ := 3 |}
  ∧ wf N 100 {| items_ := [2]; size_ := 1; cap_ := 1 |}
  ∧ operator_lt N N.ltb {| items_ := [1; 2]; size_ := 2; cap_ := 2 |}
      {| items_ := [1; 2]; size_ := 2; cap_ := 2 |} = Some false
  ∧ operator_lt N N.ltb {| items_ := [1; 3; 0]; size_ := 2; cap_ := 3 |}
      {| items_ := [1; 2]; size_ := 2; cap_ := 2 |} = Some false
  ∧ operator_lt N N.ltb {| items_ := [1; 2]; size_ := 2; cap_ := 2 |}
      {| items_ := [2]; size_ := 1; cap_ := 1 |} = Some true.
Proof.
  assert (wf N 100 {| items_ := [1; 2]; size_ := 2; cap_ := 2 |}) as Ha
    by (repeat split; simpl; lia).
  assert (wf N 100 {| items_ := [1; 3; 0]; size_ := 2; cap_ := 3 |}) as Hb
    by (repeat split; simpl; lia).
  assert (wf N 100 {| items_ := [2]; size_ := 1; cap_ := 1 |}) as Hc
    by (repeat split; simpl; lia).
  assert (∀ x y, N.ltb x y = true → N.ltb y x = false) as Hasym.
  { intros x y H. apply N.ltb_lt in H. apply N.ltb_ge. lia. }
  assert (∀ x y z, N.ltb x z = true → N.ltb x y = true ∨ N.ltb y z = true)
    as Hnt.
  { intros x y z H. apply N.ltb_lt in H.
    destruct (N.ltb_spec x y); [left; reflexivity|].
    right. apply N.ltb_lt. lia. }
  split; [exact Ha|]. split; [exact Hb|]. split; [exact Hc|].
  destruct (operator_lt_strict_order N N.ltb 100 _ _ _ Hasym Hnt Ha Hb Hc)
    as (H1 & H2 & H3).
  split; [exact H1|]. split; [apply H2; reflexivity|].
  apply H3; reflexivity.
Defined.

Lemma comparisons_consistent_witness :
  1 ≤ 100 < 2 ^ 63
  ∧ wf N 100 {| items_ := [1; 2]; size_ := 2; cap_ := 2 |}
  ∧ wf N 100 {| items_ := [1; 3; 0]; size_ := 2; cap_ := 3 |}
  ∧ operator_lt N N.ltb {| items_ := [1; 2]; size_ := 2; cap_ := 2 |}
      {| items_ := [1; 3; 0]; size_ := 2; cap_ := 3 |} = Some true
  ∧ operator_le N N.ltb {| items_ := [1; 2]; size_ := 2; cap_ := 2 |}
      {| items_ := [1; 3; 0]; size_ := 2; cap_ := 3 |} = Some true
  ∧ operator_ge N N.ltb {| items_ := [1; 2]; size_ := 2; cap_ := 2 |}
      {| items_ := [1; 3; 0]; size_ := 2; cap_ := 3 |} = Some false
  ∧ operator_ne N N.eqb {| items_ := [1; 2]; size_ := 2; cap_ := 2 |}
      {| items_ := [1; 3; 0]; size_ := 2; cap_ := 3 |} = Some true.
Proof.
  assert (1 ≤ 100 < 2 ^ 63) as Hmax by lia.
  assert (wf N 100 {| items_ := [1; 2]; size_ := 2; cap_ := 2 |}) as Ha
    by (repeat split; simpl; lia).
  assert (wf N 100 {| items_ := [1; 3; 0]; size_ := 2; cap_ := 3 |}) as Hb
    by (repeat split; simpl; lia).
  assert (∀ x y, N.ltb x y = true → N.ltb y x = false) as Hasym.
  { intros x y H. apply N.ltb_lt in H. apply N.ltb_ge. lia. }
  assert (∀ x y, N.eqb x y = true ↔ N.ltb x y = false ∧ N.ltb y x = false)
    as Heq.
  { intros x y. rewrite N.eqb_eq, !N.ltb_ge. lia. }
  split; [exact Hmax|]. split; [exact Ha|]. split; [exact Hb|].
  destruct (comparisons_consistent N N.eqb N.ltb 100 Hmax _ _ Hasym Heq Ha Hb)
    as (lt & eq & gt & H1 & H2 & H3 & H4 & H5 & H6 & _).
  injection H1 as <-. injection H2 as <-. injection H3 as <-.
  split; [reflexivity|]. split; [exact H4|]. split; [exact H5|]. exact H6.
Defined.

Lemma assertions_guard_witness :
  1 ≤ 100 < 2 ^ 63
  ∧ wf N 100 {| items_ := [1; 2; 3; 9]; size_ := 3; cap_ := 4 |}
  ∧ Erase N (λ _ _, 0) (slot 3) {| items_ := [1; 2; 3; 9]; size_ := 3; cap_ := 4 |}
    = AssertFail
  ∧ Insert N 0 100 (slot 4) (elem N 1)
      {| items_ := [1; 2; 3; 9]; size_ := 3; cap_ := 4 |}
    = AssertFail
  ∧ Insert_move N 0 (λ _ _, 0) (λ x, x) 100 (slot 4) (elem N 1)
      {| items_ := [1; 2; 3; 9]; size_ := 3; cap_ := 4 |} = AssertFail.
Proof.
  assert (1 ≤ 100 < 2 ^ 63) as Hmax by lia.
  assert (wf N 100 {| items_ := [1; 2; 3; 9]; size_ := 3; cap_ := 4 |}) as Hwf
    by (repeat split; simpl; lia).
  split; [exact Hmax|]. split; [exact Hwf|].
  split; [|split].
  - apply (assertions_guard N 0 (λ _ _, 0) (λ x, x) 100 Hmax (slot 3)
             (elem N 1) _ Hwf).
    reflexivity.
  - apply (assertions_guard N 0 (λ _ _, 0) (λ x, x) 100 Hmax (slot 4)
             (elem N 1) _ Hwf); [simpl; lia|reflexivity].
  - apply (assertions_guard N 0 (λ _ _, 0) (λ x, x) 100 Hmax (slot 4)
             (elem N 1) _ Hwf); [simpl; lia|reflexivity].
Defined.

Lemma operator_index_write_witness :
  wf N 100 {| items_ := [1; 2; 3]; size_ := 3; cap_ := 3 |}
  ∧ (∃ v', (r ← operator_index N 1; assign_at N r 7)
             {| items_ := [1; 2; 3]; size_ := 3; cap_ := 3 |} = Ok tt v'
       ∧ (r ← At N 1; assign_at N r 7)
           {| items_ := [1; 2; 3]; size_ := 3; cap_ := 3 |} = Ok tt v'
       ∧ elems N v' = [1; 7; 3])
  ∧ (r ← operator_index N 3; assign_at N r 7)
      {| items_ := [1; 2; 3]; size_ := 3; cap_ := 3 |} = UB.
Proof.
  assert (wf N 100 {| items_ := [1; 2; 3]; size_ := 3; cap_ := 3 |}) as Hwf
    by (repeat split; simpl; lia).
  split; [exact Hwf|]. split.
  - destruct (operator_index_write N 100 1 7 _ Hwf) as (Hin & _ & _).
    destruct Hin as (v' & H1 & H2 & H3 & _); [simpl; lia|].
    exists v'. repeat split; assumption.
  - apply (operator_index_write N 100 3 7 _ Hwf); reflexivity.
Defined.

Lemma begin_end_range_witness :
  wf N 100 {| items_ := [1; 2; 3; 9]; size_ := 3; cap_ := 4 |}
  ∧ distance (begin N {| items_ := [1; 2; 3; 9]; size_ := 3; cap_ := 4 |})
      (end_ N {| items_ := [1; 2; 3; 9]; size_ := 3; cap_ := 4 |}) = Some 3
  ∧ read_range N [1; 2; 3; 9]
      (begin N {| items_ := [1; 2; 3; 9]; size_ := 3; cap_ := 4 |})
      (end_ N {| items_ := [1; 2; 3; 9]; size_ := 3; cap_ := 4 |}) = Some [1; 2; 3].
Proof.
  assert (wf N 100 {| items_ := [1; 2; 3; 9]; size_ := 3; cap_ := 4 |}) as Hwf
    by (repeat split; simpl; lia).
  split; [exact Hwf|].
  destruct (begin_end_range N 100 _ Hwf) as (_ & H1 & H2 & _).
  split; [exact H1|exact H2].
Defined.

Lemma swap_involutive_witness :
  (swap_ref N 0 1;; swap_ref N 0 1)
    (<[0%nat := {| items_ := [2]; size_ := 1; cap_ := 1 |}]>
       {[ 1%nat := {| items_ := [1; 3; 0]; size_ := 2; cap_ := 3 |} ]})
  = Ok tt (<[0%nat := {| items_ := [2]; size_ := 1; cap_ := 1 |}]>
             {[ 1%nat := {| items_ := [1; 3; 0]; size_ := 2; cap_ := 3 |} ]}).
Proof.
  apply (swap_involutive N 0 1 {| items_ := [2]; size_ := 1; cap_ := 1 |}
           {| items_ := [1; 3; 0]; size_ := 2; cap_ := 3 |}); vm_compute; reflexivity.
Defined.

Lemma SimpleVector_proxy_spec_witness :
  1 ≤ 100 < 2 ^ 63
  ∧ ∃ v v', SimpleVector_proxy N 0 100 (Reserve_proxy 3) (init N) = Ok tt v
      ∧ size_ N v = 0 ∧ cap_ N v = 3
      ∧ push_each N 0 100 [7; 8] v = Ok tt v'
      ∧ size_ N v' = 2 ∧ cap_ N v' = 3 ∧ elems N v' = [7; 8].
Proof.
  assert (1 ≤ 100 < 2 ^ 63) as Hmax by lia.
  split; [exact Hmax|].
  apply (SimpleVector_proxy_spec N 0 100 Hmax 3 [7; 8]); simpl; lia.
Defined.
